(** * Watts-Strogatz model: the [Graph] class and its algorithms

    A shallow embedding of [watts_strogatz_model.py]: the [Graph]
    constructor, the ring-lattice factory [make_graph], the breadth-first
    [shortest_path], the statistics [clustering_coefficient] and
    [shortest_path_len_random], and the rewiring [randomize_graph].

    Conventions.
    - Python integers are [Z]; a tuple [(a, b)] of integers is a pair.
    - A Python list is a [list]; indexing follows Python: an index in
      [-len, -1] counts from the end, anything outside [-len, len-1]
      raises [IndexError].
    - A [for] loop is a left fold over the list it iterates on; a loop whose
      body may raise is the monadic fold [for_each].
    - A [while] loop takes a fuel argument; running out of it is the
      outcome [Timeout], which is distinct from every Python exception.
    - The [random] module is an oracle: the k-th call made to it returns the
      k-th value of a [random_source], and the number of calls made so far
      is threaded through the code as a counter.
    - The arithmetic on the running averages is a type class, [PyNumber],
      with an instance for exact rationals and one for binary64; bounds on
      binary64 results are derived from the standard library's
      specification of the primitive floats.
    - Where aliasing matters ([randomize_graph] copies the edge list and
      writes into the copy), lists and graph objects live in a heap and
      are updated in place. *)

From Stdlib Require Import ZArith QArith Qpower Lqa Lia Floats.
From stdpp Require Import base option list sorting gmap fin_maps numbers.
Local Open Scope Z_scope.
Set Warnings "-clear-no-such-hyp".

(** ** Python runtime *)

Inductive exn : Set := IndexError | ValueError | TypeError.

Inductive result (A : Type) : Type :=
| Ok (a : A)
| Raise (e : exn)
| Timeout.
Arguments Ok {A} a.
Arguments Raise {A} e.
Arguments Timeout {A}.

#[global] Instance result_ret : MRet result := λ A a, Ok a.
#[global] Instance result_bind : MBind result := λ A B f m,
  match m with
  | Ok a => f a
  | Raise e => Raise e
  | Timeout => Timeout
  end.

(** [for x in l: s = body(s, x)], where the body may raise. *)
Fixpoint for_each {A S : Type} (body : S → A → result S) (l : list A) (s : S)
  : result S :=
  match l with
  | [] => Ok s
  | x :: l' => s' ← body s x; for_each body l' s'
  end.

(** [range(a, b)] *)
Definition py_range (a b : Z) : list Z := seqZ a (b - a).

(** The position a Python subscript [idx] denotes in a list of length [len]. *)
Definition py_index (len : nat) (idx : Z) : result nat :=
  if bool_decide (0 ≤ idx < Z.of_nat len) then Ok (Z.to_nat idx)
  else if bool_decide (- Z.of_nat len ≤ idx < 0) then Ok (Z.to_nat (idx + Z.of_nat len))
  else Raise IndexError.

(** [l[idx]] *)
Definition py_getitem {A : Type} (l : list A) (idx : Z) : result A :=
  i ← py_index (length l) idx;
  match l !! i with
  | Some x => Ok x
  | None => Raise IndexError
  end.

(** [x in l] *)
Definition py_in {A : Type} `{EqDecision A} (x : A) (l : list A) : bool :=
  bool_decide (x ∈ l).

(** ** The [Graph] class *)

Definition edge : Type := Z * Z.

Record Graph : Type := {
  num_vertices : Z;
  edges : list edge;
  neighbors : list (list Z);
  all_possible_edges : list edge
}.

(** [neighbors[at].append(x)] *)
Definition append_neighbor (nbrs : list (list Z)) (at_ x : Z)
  : result (list (list Z)) :=
  i ← py_index (length nbrs) at_;
  mret (alter (λ l, l ++ [x]) i nbrs).

(** The body of the loop [for e in self.edges]. *)
Definition add_edge (nbrs : list (list Z)) (e : edge) : result (list (list Z)) :=
  nbrs1 ← append_neighbor nbrs e.1 e.2;
  append_neighbor nbrs1 e.2 e.1.

Definition build_neighbors (n : Z) (es : list edge) : result (list (list Z)) :=
  for_each add_edge es (replicate (Z.to_nat n) []).

(** The two loops [for a in range(num_vertices): for b in range(a)]. *)
Definition build_all_possible_edges (n : Z) : list edge :=
  foldl (λ acc a, foldl (λ acc b, acc ++ [(b, a)]) acc (py_range 0 a))
        [] (py_range 0 n).

(** [Graph.__init__] *)
Definition Graph_init (n : Z) (es : list edge) : result Graph :=
  nbrs ← build_neighbors n es;
  mret {| num_vertices := n;
          edges := es;
          neighbors := nbrs;
          all_possible_edges := build_all_possible_edges n |}.

(** The local list [edges] of [make_graph] when the loops are over. *)
Definition make_graph_edges (n separation : Z) : list edge :=
  foldl (λ acc i,
           foldl (λ acc j, if j <? 0 then acc ++ [(i, j + n)] else acc ++ [(i, j)])
                 acc (py_range (i - separation) i))
        [] (py_range 0 n).

(** [Graph.make_graph] *)
Definition make_graph (n separation : Z) : result Graph :=
  Graph_init n (make_graph_edges n separation).

(** [u in self.neighbors[v]], as a proposition. *)
Definition adjacent (nbrs : list (list Z)) (v u : Z) : Prop :=
  ∃ l, py_getitem nbrs v = Ok l ∧ u ∈ l.

(** A vertex is an integer of [0 .. n-1]. *)
Definition vertex (n v : Z) : Prop := 0 ≤ v < n.

(** The order the class docstring asks of an edge: [(2,3)] but not [(3,2)]. *)
Definition ascending (e : edge) : Prop := e.1 < e.2.

Definition in_range (n : Z) (e : edge) : Prop := vertex n e.1 ∧ vertex n e.2.

(** A subscript that a list of length [len] accepts. *)
Definition valid_subscript (len : nat) (idx : Z) : Prop :=
  - Z.of_nat len ≤ idx < Z.of_nat len.

(** Every entry of an adjacency index that [__init__] built is a subscript
    the index accepts, also when the edges carry negative endpoints. *)
Definition entries_are_subscripts (nbrs : list (list Z)) : Prop :=
  ∀ l u, l ∈ nbrs → u ∈ l → valid_subscript (length nbrs) u.

(** The tuple that the iteration [(i, j)] of [make_graph] appends. *)
Definition make_graph_emits (n i j : Z) : edge :=
  if j <? 0 then (i, j + n) else (i, j).

(** C3 as the specification words it: the iterations with a negative [j]
    append a pair that is not ascending, all the others an ascending one. *)
Definition wrap_unsorted_rest_ascending (n separation : Z) : Prop :=
  ∀ i j, i ∈ py_range 0 n → j ∈ py_range (i - separation) i →
    (j < 0 → make_graph_emits n i j = (i, j + n)
             ∧ ¬ ascending (make_graph_emits n i j))
    ∧ (0 ≤ j → ascending (make_graph_emits n i j)).

(** ** [shortest_path] *)

(** The body of [for neighbor in self.neighbors[v[0]]], with [d] for
    [v[1]]; the state is the queue and the dictionary [shortest_lengths]. *)
Definition visit (d : Z) (st : list (Z * Z) * gmap Z Z) (neighbor : Z)
  : list (Z * Z) * gmap Z Z :=
  match st.2 !! neighbor with
  | Some _ => st
  | None => (st.1 ++ [(neighbor, d + 1)], <[neighbor := d + 1]> st.2)
  end.

(** [while not queue.empty()]: one unit of fuel per dequeued pair. *)
Fixpoint bfs_loop (fuel : nat) (nbrs : list (list Z))
    (queue : list (Z * Z)) (shortest_lengths : gmap Z Z) {struct fuel}
  : result (gmap Z Z) :=
  match queue with
  | [] => Ok shortest_lengths
  | v :: queue' =>
      match fuel with
      | O => Timeout
      | S fuel' =>
          ns ← py_getitem nbrs v.1;
          let st := foldl (visit v.2) (queue', shortest_lengths) ns in
          bfs_loop fuel' nbrs st.1 st.2
      end
  end.

(** [Graph.shortest_path] *)
Definition shortest_path (fuel : nat) (g : Graph) (v1 : Z) : result (gmap Z Z) :=
  bfs_loop fuel (neighbors g) [(v1, 0)] {[v1 := 0]}.

(** A walk of [k] edges along the adjacency index. *)
Inductive walk (nbrs : list (list Z)) (s : Z) : Z → nat → Prop :=
| walk_here : walk nbrs s s 0
| walk_step w u k :
    walk nbrs s w k → adjacent nbrs w u → walk nbrs s u (S k).

Definition reachable (nbrs : list (list Z)) (s u : Z) : Prop :=
  ∃ k, walk nbrs s u k.

(** Every entry of the adjacency index is a vertex. *)
Definition entries_are_vertices (nbrs : list (list Z)) : Prop :=
  ∀ l u, l ∈ nbrs → u ∈ l → 0 ≤ u < Z.of_nat (length nbrs).

(** The queue holds its distances in non-decreasing order. *)
Definition by_distance (x y : Z * Z) : Prop := x.2 ≤ y.2.

(** A recorded vertex [w] at distance [d] whose neighbours are all recorded,
    none further than [d + 1]. *)
Definition settled (nbrs : list (list Z)) (m : gmap Z Z) (w d : Z) : Prop :=
  ∀ x, adjacent nbrs w x → ∃ d', m !! x = Some d' ∧ d' ≤ d + 1.

(** The loop invariant of [shortest_path] from the source [s]. *)
Record bfs_inv (nbrs : list (list Z)) (s : Z)
    (queue : list (Z * Z)) (m : gmap Z Z) : Prop := {
  inv_source : m !! s = Some 0;
  inv_queue : ∀ v d, (v, d) ∈ queue → m !! v = Some d;
  inv_sound : ∀ w d, m !! w = Some d →
    0 ≤ w < Z.of_nat (length nbrs) ∧ ∃ k, d = Z.of_nat k ∧ walk nbrs s w k;
  inv_frontier : ∀ w d, m !! w = Some d →
    (∃ d', (w, d') ∈ queue) ∨ settled nbrs m w d;
  inv_sorted : StronglySorted by_distance queue;
  inv_level : ∀ v d rest, queue = (v, d) :: rest →
    ∀ w d', m !! w = Some d' → d' ≤ d + 1
}.

(** What one pass of the inner loop does to the queue and the dictionary. *)
Record visited (d : Z) (ns : list Z)
    (st st' : list (Z * Z) * gmap Z Z) : Prop := {
  vis_incl : st.2 ⊆ st'.2;
  vis_new : ∃ new, st'.1 = st.1 ++ new
    ∧ (length new + size st.2 = size st'.2)%nat
    ∧ (∀ x dx, (x, dx) ∈ new → dx = d + 1 ∧ x ∈ ns ∧ st'.2 !! x = Some (d + 1))
    ∧ (∀ x dx, st'.2 !! x = Some dx →
         st.2 !! x = Some dx ∨ (dx = d + 1 ∧ (x, d + 1) ∈ new));
  vis_all : ∀ x, x ∈ ns → is_Some (st'.2 !! x)
}.

(** ** Numbers

    The running averages mix [int] and [float]: an [int] operand is
    converted, and [/] is true division.  The statistics are written once,
    over any carrier with these four operations. *)

Class PyNumber (F : Type) : Type := {
  num_of_int : Z → F;
  num_add : F → F → F;
  num_mul : F → F → F;
  num_div : F → F → F
}.

(** Exact rational arithmetic. *)
#[global] Instance exact_number : PyNumber Q := {|
  num_of_int := inject_Z;
  num_add := Qplus;
  num_mul := Qmult;
  num_div := Qdiv
|}.

(** IEEE 754 binary64, the [float] of CPython; the conversion is exact on
    the integers of magnitude below [2^53]. *)
#[global] Instance binary64_number : PyNumber float := {|
  num_of_int := λ z,
    if z <? 0 then PrimFloat.opp (PrimFloat.of_uint63 (Uint63.of_Z (- z)))
    else PrimFloat.of_uint63 (Uint63.of_Z z);
  num_add := PrimFloat.add;
  num_mul := PrimFloat.mul;
  num_div := PrimFloat.div
|}.

(** ** [clustering_coefficient] *)

Section statistics.
Context {F : Type} `{PyNumber F}.

(** [(i * avg_cluster + 1) / (i + 1)] *)
Definition closed_triad (i : Z) (avg : F) : F :=
  num_div (num_add (num_mul (num_of_int i) avg) (num_of_int 1))
          (num_of_int (i + 1)).

(** [avg_cluster * i / (i + 1)] *)
Definition open_triad (i : Z) (avg : F) : F :=
  num_div (num_mul avg (num_of_int i)) (num_of_int (i + 1)).

(** The body of [for k in range(j)]. *)
Definition cluster_k (nbrs : list (list Z)) (i j : Z) (avg : F) (k : Z)
  : result F :=
  ni ← py_getitem nbrs i;
  nik ← py_getitem ni k;
  nij ← py_getitem ni j;
  nj ← py_getitem nbrs nij;
  mret (if py_in nik nj then closed_triad i avg else open_triad i avg).

(** The body of [for j in range(len(self.neighbors[i]))]. *)
Definition cluster_j (nbrs : list (list Z)) (i : Z) (avg : F) (j : Z)
  : result F :=
  for_each (cluster_k nbrs i j) (py_range 0 j) avg.

(** The body of [for i in range(self.num_vertices)]. *)
Definition cluster_i (nbrs : list (list Z)) (avg : F) (i : Z) : result F :=
  ni ← py_getitem nbrs i;
  for_each (cluster_j nbrs i) (py_range 0 (Z.of_nat (length ni))) avg.

(** [Graph.clustering_coefficient] *)
Definition clustering_coefficient (g : Graph) : result F :=
  for_each (cluster_i (neighbors g)) (py_range 0 (num_vertices g))
           (num_of_int 0).

(** *** The recurrence as the specification words it *)

Definition neighbors_of (nbrs : list (list Z)) (i : Z) : list Z :=
  match py_getitem nbrs i with Ok l => l | _ => [] end.

Definition neighbor_at (nbrs : list (list Z)) (i pos : Z) : Z :=
  match py_getitem (neighbors_of nbrs i) pos with Ok x => x | _ => 0 end.

(** The triples [(i, j, k)]: an outer vertex index [i] from [0] to
    [num_vertices - 1] and a pair of positions [k < j] in
    [neighbors[i]]. *)
Definition position_pairs (g : Graph) : list (Z * Z * Z) :=
  i ← py_range 0 (num_vertices g);
  j ← py_range 0 (Z.of_nat (length (neighbors_of (neighbors g) i)));
  k ← py_range 0 j;
  [(i, j, k)].

(** [neighbors[i][k]] is a member of [neighbors[neighbors[i][j]]]. *)
Definition closes_triad (nbrs : list (list Z)) (t : Z * Z * Z) : bool :=
  let '(i, j, k) := t in
  py_in (neighbor_at nbrs i k) (neighbors_of nbrs (neighbor_at nbrs i j)).

Definition recurrence_step (nbrs : list (list Z)) (avg : F) (t : Z * Z * Z) : F :=
  if closes_triad nbrs t then closed_triad t.1.1 avg else open_triad t.1.1 avg.

Definition clustering_recurrence (g : Graph) : F :=
  foldl (recurrence_step (neighbors g)) (num_of_int 0) (position_pairs g).

(** The two updates, written out as the specification gives them:
    [avg = (i*avg + 1)/(i+1)] on a closed triad and [avg = avg*i/(i+1)]
    otherwise. *)
Definition stated_update (closed : bool) (i : Z) (avg : F) : F :=
  if closed
  then num_div (num_add (num_mul (num_of_int i) avg) (num_of_int 1))
               (num_of_int (i + 1))
  else num_div (num_mul avg (num_of_int i)) (num_of_int (i + 1)).

(** The value the specification describes: [avg] starts at 0 and is
    updated once for every outer index [i] and pair of positions [k < j]
    of [neighbors[i]], in that order, with the outer index as weight. *)
Definition stated_recurrence (g : Graph) : F :=
  foldl (λ avg t, stated_update (closes_triad (neighbors g) t) t.1.1 avg)
        (num_of_int 0) (position_pairs g).

(** ** [shortest_path_len] and [shortest_path_len_random] *)

(** [(avg * count + sp[v2]) / (count + 1)] *)
Definition mean_step (avg : F) (count d : Z) : F :=
  num_div (num_add (num_mul avg (num_of_int count)) (num_of_int d))
          (num_of_int (count + 1)).

(** The body of [for v2 in ...]: [if v2 in sp: avg = ...; count += 1]. *)
Definition accumulate (sp : gmap Z Z) (st : F * Z) (v2 : Z) : F * Z :=
  match sp !! v2 with
  | Some d => (mean_step st.1 st.2 d, st.2 + 1)
  | None => st
  end.

(** The body of [for v1 in range(self.num_vertices)]. *)
Definition path_len_body (fuel : nat) (g : Graph) (st : F * Z) (v1 : Z)
  : result (F * Z) :=
  sp ← shortest_path fuel g v1;
  mret (foldl (accumulate sp) st (py_range 0 v1)).

(** [Graph.shortest_path_len] *)
Definition shortest_path_len (fuel : nat) (g : Graph) : result F :=
  st ← for_each (path_len_body fuel g) (py_range 0 (num_vertices g))
                (num_of_int 0, 0);
  mret st.1.
End statistics.

(** ** The [random] module *)

(** The value the k-th call returns: [random_at k] if the call is
    [random()], [randint_at k a b] if it is [randint(a, b)]. *)
Record random_source : Type := {
  random_at : nat → Q;
  randint_at : nat → Z → Z → Z
}.

(** [random()] lies in [0, 1) and [randint(a, b)] in [a, b]. *)
Definition well_behaved (rs : random_source) : Prop :=
  (∀ k, (0 <= random_at rs k)%Q ∧ (random_at rs k < 1)%Q)
  ∧ (∀ k a b, a ≤ b → a ≤ randint_at rs k a b ≤ b).

(** [rand.random()], as call number [k]. *)
Definition py_random (rs : random_source) (k : nat) : Q * nat :=
  (random_at rs k, S k).

(** [rand.randint(a, b)], as call number [k]; an empty range raises. *)
Definition py_randint (rs : random_source) (k : nat) (a b : Z) : result (Z * nat) :=
  if bool_decide (a ≤ b) then Ok (randint_at rs k a b, S k)
  else Raise ValueError.

Section sampled.
Context {F : Type} `{PyNumber F}.

(** The body of [for i in range(20)]; the state is [avg], [count] and the
    number of calls made to [random]. *)
Definition path_len_random_body (fuel : nat) (g : Graph) (rs : random_source)
    (st : F * Z * nat) (i : Z) : result (F * Z * nat) :=
  r ← py_randint rs st.2 0 (num_vertices g - 1);
  sp ← shortest_path fuel g r.1;
  let st' := foldl (accumulate sp) st.1 (py_range 0 (num_vertices g)) in
  mret (st', r.2).

(** [Graph.shortest_path_len_random] *)
Definition shortest_path_len_random (fuel : nat) (g : Graph)
    (rs : random_source) (k : nat) : result (F * nat) :=
  st ← for_each (path_len_random_body fuel g rs) (py_range 0 20)
                ((num_of_int 0, 0), k);
  mret (st.1.1, st.2).

(** C4 as the specification words it: the mean runs over the vertices
    distinct from the sampled source. *)
Definition others_body (fuel : nat) (g : Graph) (rs : random_source)
    (st : F * Z * nat) (i : Z) : result (F * Z * nat) :=
  r ← py_randint rs st.2 0 (num_vertices g - 1);
  sp ← shortest_path fuel g r.1;
  let others := filter (λ v2, v2 ≠ r.1) (py_range 0 (num_vertices g)) in
  mret (foldl (accumulate sp) st.1 others, r.2).

Definition mean_over_other_vertices (fuel : nat) (g : Graph)
    (rs : random_source) (k : nat) : result (F * nat) :=
  st ← for_each (others_body fuel g rs) (py_range 0 20) ((num_of_int 0, 0), k);
  mret (st.1.1, st.2).
End sampled.

(** The source whose [randint(a, b)] is always [a] and whose [random()] is
    always 0. *)
Definition lowest_draws : random_source :=
  {| random_at := λ _, 0%Q; randint_at := λ _ a _, a |}.

(** ** [randomize_graph] *)

(** [l[idx] = x] *)
Definition py_setitem {A : Type} (l : list A) (idx : Z) (x : A) : result (list A) :=
  i ← py_index (length l) idx;
  mret (<[i := x]> l).

(** [self.all_possible_edges[rand.randint(0, len(self.all_possible_edges) - 1)]] *)
Definition draw_edge (ape : list edge) (rs : random_source) (k : nat)
  : result (edge * nat) :=
  r ← py_randint rs k 0 (Z.of_nat (length ape) - 1);
  e ← py_getitem ape r.1;
  mret (e, r.2).

(** A first draw, then [while new_edge in new_edges:] another draw; one
    unit of fuel per iteration of the loop. *)
Fixpoint redraw (fuel : nat) (ape new_edges : list edge)
    (rs : random_source) (k : nat) {struct fuel} : result (edge * nat) :=
  r ← draw_edge ape rs k;
  if py_in r.1 new_edges then
    match fuel with
    | O => Timeout
    | S fuel' => redraw fuel' ape new_edges rs r.2
    end
  else Ok r.

(** The body of [for i in range(len(self.edges))]; the state is
    [new_edges] and the number of calls made to [random]. *)
Definition rewire (fuel : nat) (ape : list edge) (p : Q) (rs : random_source)
    (st : list edge * nat) (i : Z) : result (list edge * nat) :=
  let u := py_random rs st.2 in
  if Qlt_le_dec u.1 p then
    r ← redraw fuel ape st.1 rs u.2;
    new_edges ← py_setitem st.1 i r.1;
    mret (new_edges, r.2)
  else Ok (st.1, u.2).

(** [Graph.randomize_graph]; [new_edges] starts as a copy of
    [self.edges]. *)
Definition randomize_graph (fuel : nat) (g : Graph) (p : Q)
    (rs : random_source) (k : nat) : result (Graph * nat) :=
  st ← for_each (rewire fuel (all_possible_edges g) p rs)
                (py_range 0 (Z.of_nat (length (edges g)))) (edges g, k);
  g' ← Graph_init (num_vertices g) st.1;
  mret (g', st.2).

(** An edge as the unordered pair of its endpoints. *)
Definition unordered (e : edge) : edge := (Z.min e.1 e.2, Z.max e.1 e.2).

(** No two positions of the sequence hold the same unordered pair. *)
Definition no_duplicate_edges (es : list edge) : Prop := NoDup (unordered <$> es).

(** C1 as the specification words it, for one call that returns. *)
Definition rewiring_keeps_edges_distinct (g : Graph) (fuel : nat) (p : Q)
    (rs : random_source) (k : nat) : Prop :=
  no_duplicate_edges (edges g) →
  ∀ g' k', randomize_graph fuel g p rs k = Ok (g', k') →
    no_duplicate_edges (edges g').

(** The state of the rewiring loop before iteration [i]: the positions
    from [i] on still hold the input; each earlier position holds either
    its input edge (if [may_keep]) or an edge of [all_possible_edges] that
    was absent from the sequence as it stood when the edge was drawn. *)
Definition rewired_upto (may_keep : bool) (ape old : list edge)
    (i : nat) (cur : list edge) : Prop :=
  length cur = length old
  ∧ drop i cur = drop i old
  ∧ ∀ j e, (j < i)%nat → cur !! j = Some e →
      (may_keep = true ∧ old !! j = Some e)
      ∨ (e ∈ ape ∧ (e ∉ take j cur) ∧ (e ∉ drop j old)).

(** A source whose first [random()] is 0 and whose later ones are 3/4,
    with [randint(a, b) = a]. *)
Definition first_draw_only : random_source :=
  {| random_at := λ k, match k with O => 0%Q | S _ => (3 # 4)%Q end;
     randint_at := λ _ a _, a |}.

(** A source whose [randint(a, b)] walks through [a .. b] in turn, and
    whose [random()] is always 0. *)
Definition round_robin : random_source :=
  {| random_at := λ _, 0%Q;
     randint_at := λ k a b, a + Z.of_nat k `mod` (b - a + 1) |}.

(** What [randomize_graph(1)] leaves when it returns [g'] for [g]: as many
    edges, each one an edge of [all_possible_edges] that was absent from
    the evolving sequence when it was drawn, that is, from the positions
    already rewired and from the input edges not yet rewired. *)
Definition every_edge_replaced (g g' : Graph) : Prop :=
  length (edges g') = length (edges g)
  ∧ ∀ j e, edges g' !! j = Some e →
      e ∈ all_possible_edges g
      ∧ (e ∉ take j (edges g')) ∧ (e ∉ drop j (edges g)).

(** C8 as the specification words it, for [randomize_graph(1)]: whatever
    values the random source yields within its ranges, the call returns
    and has replaced every edge. *)
Definition replaces_every_edge_regardless (g : Graph) : Prop :=
  ∀ rs k, well_behaved rs →
    ∃ fuel g' k', randomize_graph fuel g 1 rs k = Ok (g', k')
      ∧ every_edge_replaced g g'.

(** ** Objects and aliasing

    The lists a [Graph] holds are mutable objects, and [randomize_graph]
    writes into one.  Here the lists live in a heap, a graph object holds
    the locations of its three lists, and every [append] and every item
    assignment updates the heap in place at the location it is given. *)

Definition loc : Type := positive.

Inductive object : Type :=
| EdgeList (es : list edge)
| AdjList (nbrs : list (list Z))
| GraphObj (n : Z) (edges_at neighbors_at all_possible_edges_at : loc).

(** A new object, at a location the heap does not use. *)
Definition alloc (o : object) (h : gmap loc object) : loc * gmap loc object :=
  let l := fresh (dom h) in (l, <[l := o]> h).

Definition read_edges (h : gmap loc object) (l : loc) : result (list edge) :=
  match h !! l with Some (EdgeList es) => Ok es | _ => Raise TypeError end.

Definition read_adj (h : gmap loc object) (l : loc) : result (list (list Z)) :=
  match h !! l with Some (AdjList nbrs) => Ok nbrs | _ => Raise TypeError end.

(** [self.neighbors[at].append(x)], on the list at [nl]. *)
Definition append_neighbor_at (nl : loc) (h : gmap loc object) (at_ x : Z)
  : result (gmap loc object) :=
  nbrs ← read_adj h nl;
  nbrs' ← append_neighbor nbrs at_ x;
  mret (<[nl := AdjList nbrs']> h).

Definition add_edge_at (nl : loc) (h : gmap loc object) (e : edge)
  : result (gmap loc object) :=
  h1 ← append_neighbor_at nl h e.1 e.2;
  append_neighbor_at nl h1 e.2 e.1.

(** [self.all_possible_edges.append(e)], on the list at [al]. *)
Definition append_edge_at (al : loc) (h : gmap loc object) (e : edge)
  : result (gmap loc object) :=
  es ← read_edges h al;
  mret (<[al := EdgeList (es ++ [e])]> h).

(** [Graph(n, edges)] where [edges] is the list at [el]: the new object
    keeps that very list, and gets two lists of its own. *)
Definition Graph_new (n : Z) (el : loc) (h : gmap loc object)
  : result (loc * gmap loc object) :=
  es ← read_edges h el;
  let a1 := alloc (AdjList (replicate (Z.to_nat n) [])) h in
  h2 ← for_each (add_edge_at a1.1) es a1.2;
  let a2 := alloc (EdgeList []) h2 in
  h3 ← for_each (λ h a, for_each (λ h b, append_edge_at a2.1 h (b, a))
                                  (py_range 0 a) h)
                (py_range 0 n) a2.2;
  mret (alloc (GraphObj n el a1.1 a2.1) h3).

(** The body of the rewiring loop, with [self.all_possible_edges] at [al]
    and [new_edges] at [ne]. *)
Definition rewire_at (fuel : nat) (al ne : loc) (p : Q) (rs : random_source)
    (st : gmap loc object * nat) (i : Z) : result (gmap loc object * nat) :=
  let u := py_random rs st.2 in
  if Qlt_le_dec u.1 p then
    ape ← read_edges st.1 al;
    new_edges ← read_edges st.1 ne;
    r ← redraw fuel ape new_edges rs u.2;
    new_edges' ← py_setitem new_edges i r.1;
    mret (<[ne := EdgeList new_edges']> st.1, r.2)
  else Ok (st.1, u.2).

(** The loop and the constructor call of [randomize_graph], once
    [new_edges] is bound to the list at [ne]. *)
Definition rewire_from (fuel : nat) (n : Z) (al ne : loc) (len : nat) (p : Q)
    (rs : random_source) (k : nat) (h : gmap loc object)
  : result (loc * nat * gmap loc object) :=
  st ← for_each (rewire_at fuel al ne p rs) (py_range 0 (Z.of_nat len)) (h, k);
  r ← Graph_new n ne st.1;
  mret (r.1, st.2, r.2).

(** [Graph.randomize_graph] on the graph object at [gl];
    [new_edges = list(self.edges)] allocates a copy. *)
Definition randomize_graph_at (fuel : nat) (gl : loc) (p : Q)
    (rs : random_source) (k : nat) (h : gmap loc object)
  : result (loc * nat * gmap loc object) :=
  match h !! gl with
  | Some (GraphObj n el nl al) =>
      es ← read_edges h el;
      let a := alloc (EdgeList es) h in
      rewire_from fuel n al a.1 (length es) p rs k a.2
  | _ => Raise TypeError
  end.

(** For contrast, [new_edges = self.edges]: no copy, the loop writes into
    the list of the source graph. *)
Definition randomize_graph_sharing (fuel : nat) (gl : loc) (p : Q)
    (rs : random_source) (k : nat) (h : gmap loc object)
  : result (loc * nat * gmap loc object) :=
  match h !! gl with
  | Some (GraphObj n el nl al) =>
      es ← read_edges h el;
      rewire_from fuel n al el (length es) p rs k h
  | _ => Raise TypeError
  end.

(** The graph that the object at [gl] denotes. *)
Definition graph_at (h : gmap loc object) (gl : loc) : result Graph :=
  match h !! gl with
  | Some (GraphObj n el nl al) =>
      es ← read_edges h el;
      nbrs ← read_adj h nl;
      ape ← read_edges h al;
      mret {| num_vertices := n; edges := es; neighbors := nbrs;
              all_possible_edges := ape |}
  | _ => Raise TypeError
  end.

(** A heap with one graph object, [Graph(3, [(0, 2)])], at location 4. *)
Definition one_graph_heap : gmap loc object :=
  <[4%positive := GraphObj 3 1%positive 2%positive 3%positive]>
    (<[3%positive := EdgeList [(0, 1); (0, 2); (1, 2)]]>
       (<[2%positive := AdjList [[2]; []; [0]]]>
          (<[1%positive := EdgeList [(0, 2)]]> ∅))).

(** ** Inputs outside the documented ones *)

(** An edge both of whose endpoints are subscripts that a list of
    [num_vertices] items accepts: integers of [-n .. n-1]. *)
Definition accepted (n : Z) (e : edge) : Prop :=
  valid_subscript (Z.to_nat n) e.1 ∧ valid_subscript (Z.to_nat n) e.2.

#[global] Instance accepted_dec (n : Z) (e : edge) : Decision (accepted n e).
Proof. unfold accepted, valid_subscript. apply _. Defined.

(** ** Means *)

(** The values [sp[v]] for the [v] of [vs] that are keys of [sp], in the
    order of [vs]. *)
Definition recorded (sp : gmap Z Z) (vs : list Z) : list Z :=
  omap (λ v, sp !! v) vs.

Definition sum_Z (l : list Z) : Z := foldr Z.add 0 l.

(** The dictionary [shortest_path(v1)] returns, empty if it does not. *)
Definition distances_from (fuel : nat) (g : Graph) (v1 : Z) : gmap Z Z :=
  match shortest_path fuel g v1 with Ok m => m | _ => ∅ end.

(** The distances [shortest_path_len] averages: for [v1] in
    [range(num_vertices)] and [v2] in [range(v1)], the recorded ones. *)
Definition pair_distances (fuel : nat) (g : Graph) : list Z :=
  v1 ← py_range 0 (num_vertices g);
  recorded (distances_from fuel g v1) (py_range 0 v1).

(** No two neighbours of a vertex are neighbours of each other. *)
Definition triangle_free (nbrs : list (list Z)) : Prop :=
  ∀ v x y, adjacent nbrs v x → adjacent nbrs v y → ¬ adjacent nbrs y x.

(** ** Random sources and the rejection loop *)

(** A source fair to the rejection loop: among any [fuel + 1] consecutive
    calls of [randint(0, m - 1)], every index of [0 .. m-1] is returned. *)
Definition covering (fuel : nat) (rs : random_source) (m : nat) : Prop :=
  ∀ k i, (i < m)%nat →
    ∃ j, (j ≤ fuel)%nat ∧ randint_at rs (k + j) 0 (Z.of_nat m - 1) = Z.of_nat i.

(** ** Binary64 rounding

    The primitive operations on [float] are specified, by the axioms of
    the standard library, through the functions of [SpecFloat] on
    mantissas and exponents.  The definitions below are what the bounds on
    those functions are stated with. *)

(** [y] is [x] shifted right by [j] bits: the mantissa is halved [j]
    times, and the round and sticky bits stay clear when no set bit is
    shifted out. *)
Definition shifted (j : Z) (x y : shr_record) : Prop :=
  0 ≤ shr_m x →
  shr_m y = shr_m x / 2 ^ j
  ∧ (shr_r x = false → shr_s x = false → shr_m x `mod` 2 ^ j = 0 →
     shr_r y = false ∧ shr_s y = false).

(** The exponent of a binary64 number of magnitude [2^e]. *)
Definition fexp64 (e : Z) : Z := Z.max (e - 53) (-1074).

#[global] Instance location_eq_dec : EqDecision location.
Proof. solve_decision. Defined.

(** [2^e] for an integer [e]. *)
Definition pow2 (e : Z) : Q := (2 ^ e)%Q.

(** The number [m * 2^e]. *)
Definition scaled (m e : Z) : Q := (inject_Z m * pow2 e)%Q.

Arguments pow2 : simpl never.
Arguments scaled : simpl never.

(** A mantissa and exponent as [shr_fexp] leaves them: at the least
    exponent, or with a full mantissa. *)
Definition canonic (m e : Z) : Prop := e = -1074 ∨ 2 ^ 52 ≤ m.

(** A number of the format: a mantissa below [2^53] at an exponent from
    [-1074] up. *)
Definition in_format (m e : Z) : Prop := 0 ≤ m < 2 ^ 53 ∧ -1074 ≤ e.

(** A number that is zero, or positive and at most [b]. *)
Definition bounded_by (x : spec_float) (b : Q) : Prop :=
  match x with
  | S754_zero _ => True
  | S754_finite false m e => (scaled (Z.pos m) e <= b)%Q
  | _ => False
  end.

(** [0 <= x <= 1], by the comparisons of binary64. *)
Definition in_unit_interval (x : float) : Prop :=
  (0 <=? x)%float = true ∧ (x <=? 1)%float = true.

(** * Properties *)

(** ** Loops that only append *)

Lemma foldl_snoc_map {A B : Type} (f : A → B) (l : list A) (acc : list B) :
  foldl (λ acc x, acc ++ [f x]) acc l = acc ++ (f <$> l).
Proof.
  revert acc. induction l as [|x l IH]; intros acc; simpl.
  - by rewrite app_nil_r.
  - rewrite IH. by rewrite <- app_assoc.
Qed.

Lemma foldl_app_bind {A B : Type} (f : A → list B) (l : list A) (acc : list B) :
  foldl (λ acc x, acc ++ f x) acc l = acc ++ (l ≫= f).
Proof.
  revert acc. induction l as [|x l IH]; intros acc; simpl.
  - by rewrite app_nil_r.
  - rewrite IH. by rewrite <- app_assoc.
Qed.

Lemma foldl_ext_in {A S : Type} (f g : S → A → S) (l : list A) (s : S) :
  (∀ s x, x ∈ l → f s x = g s x) → foldl f s l = foldl g s l.
Proof.
  revert s. induction l as [|x l IH]; intros s H; simpl; [done|].
  rewrite H by constructor. apply IH. intros; apply H. by constructor.
Qed.

Lemma elem_of_py_range (a b k : Z) : k ∈ py_range a b ↔ a ≤ k < b.
Proof. unfold py_range. rewrite elem_of_seqZ. lia. Qed.

Lemma length_py_range (a b : Z) : length (py_range a b) = Z.to_nat (b - a).
Proof. apply length_seqZ. Qed.

Lemma py_range_snoc (a b : Z) : a ≤ b → py_range a (b + 1) = py_range a b ++ [b].
Proof.
  intros H. unfold py_range.
  replace (b + 1 - a) with ((b - a) + 1) by lia.
  rewrite seqZ_app by lia. f_equal.
  replace (a + (b - a)) with b by lia. by rewrite seqZ_cons, seqZ_nil by lia.
Qed.

(** ** [all_possible_edges] *)

Lemma build_all_possible_edges_bind (n : Z) :
  build_all_possible_edges n =
  py_range 0 n ≫= (λ a, (λ b, (b, a)) <$> py_range 0 a).
Proof.
  unfold build_all_possible_edges.
  rewrite <- (app_nil_l (_ ≫= _)), <- foldl_app_bind.
  apply foldl_ext_in. intros acc a _. apply foldl_snoc_map.
Qed.

Lemma elem_of_all_possible_edges (n b a : Z) :
  (b, a) ∈ build_all_possible_edges n ↔ 0 ≤ b < a ∧ a < n.
Proof.
  rewrite build_all_possible_edges_bind, list_elem_of_bind. split.
  - intros (a' & Hin & Ha'). apply list_elem_of_fmap in Hin as (b' & Heq & Hb').
    inversion Heq; subst. apply elem_of_py_range in Ha', Hb'. lia.
  - intros [H1 H2]. exists a. split.
    + apply list_elem_of_fmap. exists b. split; [done|]. apply elem_of_py_range. lia.
    + apply elem_of_py_range. lia.
Qed.

Lemma NoDup_all_possible_edges (n : Z) : NoDup (build_all_possible_edges n).
Proof.
  rewrite build_all_possible_edges_bind.
  apply NoDup_bind.
  - intros a1 a2 e _ _ H1 H2.
    apply list_elem_of_fmap in H1 as (b1 & -> & _).
    apply list_elem_of_fmap in H2 as (b2 & Heq & _). by inversion Heq.
  - intros a _. apply NoDup_fmap_2; [|apply NoDup_seqZ].
    intros b1 b2 Heq. by inversion Heq.
  - apply NoDup_seqZ.
Qed.

Lemma length_all_possible_edges_nat (k : nat) :
  2 * Z.of_nat (length (build_all_possible_edges (Z.of_nat k))) =
  Z.of_nat k * (Z.of_nat k - 1).
Proof.
  induction k as [|k IH].
  - reflexivity.
  - rewrite build_all_possible_edges_bind in *.
    replace (Z.of_nat (S k)) with (Z.of_nat k + 1) by lia.
    rewrite py_range_snoc by lia.
    rewrite bind_app, length_app, Nat2Z.inj_add. simpl.
    rewrite length_app, length_fmap, length_py_range. simpl.
    set (L := length _) in *. nia.
Qed.

Lemma length_all_possible_edges (n : Z) :
  0 ≤ n →
  Z.of_nat (length (build_all_possible_edges n)) = n * (n - 1) / 2.
Proof.
  intros Hn. pose proof (length_all_possible_edges_nat (Z.to_nat n)) as H.
  rewrite Z2Nat.id in H by done. rewrite <- H.
  by rewrite Z.mul_comm, Z.div_mul.
Qed.

Lemma Graph_init_fields (n : Z) (es : list edge) (g : Graph) :
  Graph_init n es = Ok g →
  num_vertices g = n ∧ edges g = es ∧
  build_neighbors n es = Ok (neighbors g) ∧
  all_possible_edges g = build_all_possible_edges n.
Proof.
  unfold Graph_init. destruct (build_neighbors n es) as [nbrs| |]; simpl; [|done..].
  intros [= <-]. done.
Qed.

(** C6. A graph built with [num_vertices > 0] has an [all_possible_edges] of
    length [num_vertices * (num_vertices - 1) / 2] that holds the pair
    [(b, a)] exactly when [0 <= b < a < num_vertices], each such pair once,
    and nothing else. *)
Theorem all_possible_edges_catalogue (n : Z) (es : list edge) (g : Graph) :
  0 < n →
  Graph_init n es = Ok g →
  Z.of_nat (length (all_possible_edges g)) = n * (n - 1) / 2
  ∧ NoDup (all_possible_edges g)
  ∧ ∀ b a, (b, a) ∈ all_possible_edges g ↔ 0 ≤ b < a ∧ a < n.
Proof.
  intros Hn Hg. apply Graph_init_fields in Hg as (_ & _ & _ & ->).
  split; [apply length_all_possible_edges; lia|].
  split; [apply NoDup_all_possible_edges|].
  intros b a. apply elem_of_all_possible_edges.
Qed.

Lemma all_possible_edges_catalogue_witness :
  ∃ g, Graph_init 4 [(0, 1); (2, 3)] = Ok g
  ∧ Z.of_nat (length (all_possible_edges g)) = 4 * (4 - 1) / 2
  ∧ NoDup (all_possible_edges g)
  ∧ ∀ b a, (b, a) ∈ all_possible_edges g ↔ 0 ≤ b < a ∧ a < 4.
Proof.
  eexists. split; [reflexivity|].
  apply (all_possible_edges_catalogue 4 [(0, 1); (2, 3)]); [lia | reflexivity].
Defined.

(** ** [make_graph] *)

Lemma make_graph_edges_bind (n separation : Z) :
  make_graph_edges n separation =
  py_range 0 n ≫= (λ i, make_graph_emits n i <$> py_range (i - separation) i).
Proof.
  unfold make_graph_edges.
  rewrite <- (app_nil_l (_ ≫= _)), <- foldl_app_bind.
  apply foldl_ext_in. intros acc i _.
  rewrite <- foldl_snoc_map. apply foldl_ext_in. intros acc' j _.
  unfold make_graph_emits. by destruct (j <? 0).
Qed.

Lemma elem_of_make_graph_edges (n separation : Z) (e : edge) :
  e ∈ make_graph_edges n separation ↔
  ∃ i j, 0 ≤ i < n ∧ i - separation ≤ j < i ∧ e = make_graph_emits n i j.
Proof.
  rewrite make_graph_edges_bind, list_elem_of_bind. split.
  - intros (i & Hin & Hi). apply list_elem_of_fmap in Hin as (j & -> & Hj).
    apply elem_of_py_range in Hi, Hj. exists i, j. split; [lia|]. split; [lia|done].
  - intros (i & j & Hi & Hj & ->). exists i. split.
    + apply list_elem_of_fmap. exists j. split; [done|]. by apply elem_of_py_range.
    + apply elem_of_py_range. lia.
Qed.

(** The iterations that do not wrap emit [(i, j)] with [j < i]: the pair is
    descending, whatever the docstring of the class asks. *)
Lemma make_graph_inner_edges_descending (n separation i j : Z) :
  j ∈ py_range (i - separation) i → 0 ≤ j →
  make_graph_emits n i j = (i, j) ∧ ¬ ascending (make_graph_emits n i j).
Proof.
  intros Hj%elem_of_py_range H0. unfold make_graph_emits, ascending.
  destruct (Z.ltb_spec j 0); [lia|]. simpl. split; [done|lia].
Qed.

(** C3 (as amended). In [make_graph(num_vertices, separation)] the local
    list [edges] is the concatenation, over [i] in [range(num_vertices)] and
    [j] in [range(i - separation, i)], of the pair the iteration emits; an
    iteration whose [j] is negative emits [(i, j + num_vertices)]; and when
    [separation < num_vertices] every such wrap-around pair is ascending. *)
Theorem make_graph_wrap_around_edges (n separation : Z) :
  make_graph_edges n separation =
    py_range 0 n ≫= (λ i, make_graph_emits n i <$> py_range (i - separation) i)
  ∧ (∀ i j, j < 0 → make_graph_emits n i j = (i, j + n))
  ∧ (separation < n →
     ∀ i j, i ∈ py_range 0 n → j ∈ py_range (i - separation) i → j < 0 →
       (i, j + n) ∈ make_graph_edges n separation ∧ ascending (i, j + n)).
Proof.
  split; [apply make_graph_edges_bind|]. split.
  - intros i j Hj. unfold make_graph_emits. destruct (Z.ltb_spec j 0); [done|lia].
  - intros Hsep i j Hi Hj Hneg.
    apply elem_of_py_range in Hi, Hj. split.
    + apply elem_of_make_graph_edges. exists i, j. split; [lia|]. split; [lia|].
      unfold make_graph_emits. destruct (Z.ltb_spec j 0); [done|lia].
    + unfold ascending. simpl. lia.
Qed.

Lemma make_graph_wrap_around_edges_witness :
  (0, -1 + 6) ∈ make_graph_edges 6 1 ∧ ascending (0, -1 + 6).
Proof.
  apply (proj2 (proj2 (make_graph_wrap_around_edges 6 1))); try lia.
  - apply elem_of_py_range. lia.
  - apply elem_of_py_range. lia.
Defined.

(** C3 as stated fails on [make_graph(3, 1)], whose edges are
    [(0,2); (1,0); (2,1)]: the wrap-around pair [(0,2)] is ascending and the
    other two are not. *)
Lemma make_graph_3_1_edges : make_graph_edges 3 1 = [(0, 2); (1, 0); (2, 1)].
Proof. reflexivity. Qed.

Lemma wrap_unsorted_rest_ascending_fails : ¬ wrap_unsorted_rest_ascending 3 1.
Proof.
  intros H. destruct (H 0 (-1)) as [Hwrap _].
  - apply elem_of_py_range. lia.
  - apply elem_of_py_range. lia.
  - destruct Hwrap as [_ Hn]; [lia|]. apply Hn. unfold ascending. simpl. lia.
Qed.

(** ** [Graph.__init__]: the adjacency index *)

Lemma py_index_vertex (len : nat) (v : Z) :
  0 ≤ v < Z.of_nat len → py_index len v = Ok (Z.to_nat v).
Proof. intros H. unfold py_index. by rewrite bool_decide_eq_true_2. Qed.

Lemma py_getitem_vertex {A : Type} (l : list A) (v : Z) :
  0 ≤ v < Z.of_nat (length l) →
  ∃ x, l !! Z.to_nat v = Some x ∧ py_getitem l v = Ok x.
Proof.
  intros H. unfold py_getitem. rewrite py_index_vertex by done. simpl.
  destruct (lookup_lt_is_Some_2 l (Z.to_nat v)) as [x Hx]; [lia|].
  exists x. by rewrite Hx.
Qed.

Lemma elem_of_alter_snoc (nbrs : list (list Z)) (i v : nat) (x u : Z) :
  (i < length nbrs)%nat →
  u ∈ alter (λ l, l ++ [x]) i nbrs !!! v ↔ u ∈ nbrs !!! v ∨ (v = i ∧ u = x).
Proof.
  intros Hi. destruct (decide (v = i)) as [->|Hne].
  - destruct (lookup_lt_is_Some_2 nbrs i Hi) as [l Hl].
    rewrite (list_lookup_total_correct _ _ _ Hl).
    erewrite list_lookup_total_correct;
      [|by rewrite list_lookup_alter_eq, Hl].
    rewrite elem_of_app, list_elem_of_singleton. naive_solver.
  - rewrite list_lookup_total_alter_ne by done. naive_solver.
Qed.

Lemma add_edge_in_range (nbrs : list (list Z)) (a b : Z) :
  0 ≤ a < Z.of_nat (length nbrs) → 0 ≤ b < Z.of_nat (length nbrs) →
  ∃ nbrs', add_edge nbrs (a, b) = Ok nbrs'
    ∧ length nbrs' = length nbrs
    ∧ ∀ (v : nat) u, u ∈ nbrs' !!! v ↔
        u ∈ nbrs !!! v ∨ (Z.of_nat v = a ∧ u = b) ∨ (Z.of_nat v = b ∧ u = a).
Proof.
  intros Ha Hb. unfold add_edge, append_neighbor. simpl.
  rewrite (py_index_vertex _ a) by done. simpl.
  rewrite length_alter, (py_index_vertex _ b) by done. simpl.
  eexists. split; [done|]. split; [by rewrite !length_alter|].
  intros v u. rewrite !elem_of_alter_snoc by (rewrite ?length_alter; lia).
  assert (v = Z.to_nat a ↔ Z.of_nat v = a) by lia.
  assert (v = Z.to_nat b ↔ Z.of_nat v = b) by lia.
  naive_solver.
Qed.

Lemma for_each_add_edge (es : list edge) (nbrs : list (list Z)) :
  Forall (in_range (Z.of_nat (length nbrs))) es →
  ∃ nbrs', for_each add_edge es nbrs = Ok nbrs'
    ∧ length nbrs' = length nbrs
    ∧ ∀ (v : nat) u, u ∈ nbrs' !!! v ↔
        u ∈ nbrs !!! v ∨ (Z.of_nat v, u) ∈ es ∨ (u, Z.of_nat v) ∈ es.
Proof.
  revert nbrs. induction es as [|[a b] es IH]; intros nbrs Hes.
  - exists nbrs. split; [done|]. split; [done|]. intros v u.
    rewrite !elem_of_nil. naive_solver.
  - inversion Hes as [|? ? [Ha Hb] Hes']; subst. simpl in Ha, Hb.
    destruct (add_edge_in_range nbrs a b Ha Hb) as (nbrs1 & Hadd & Hlen & Hmem).
    destruct (IH nbrs1) as (nbrs' & Hfor & Hlen' & Hmem'); [by rewrite Hlen|].
    exists nbrs'. simpl. rewrite Hadd. simpl. split; [done|].
    split; [congruence|]. intros v u.
    rewrite Hmem', Hmem, !elem_of_cons. naive_solver.
Qed.

Lemma adjacent_vertex (nbrs : list (list Z)) (v u : Z) :
  0 ≤ v < Z.of_nat (length nbrs) →
  adjacent nbrs v u ↔ u ∈ nbrs !!! Z.to_nat v.
Proof.
  intros Hv. destruct (py_getitem_vertex nbrs v Hv) as (l & Hl & Hget).
  rewrite (list_lookup_total_correct _ _ _ Hl). unfold adjacent. rewrite Hget.
  naive_solver.
Qed.

Lemma not_elem_of_replicate_nil (k v : nat) (u : Z) :
  u ∉ (replicate k ([] : list Z)) !!! v.
Proof.
  rewrite list_lookup_total_alt.
  destruct (replicate k [] !! v) as [l|] eqn:Hl; simpl; [|apply not_elem_of_nil].
  apply lookup_replicate in Hl as [-> _]. apply not_elem_of_nil.
Qed.

Lemma build_neighbors_in_range (n : Z) (es : list edge) :
  Forall (in_range n) es →
  ∃ nbrs, build_neighbors n es = Ok nbrs
    ∧ length nbrs = Z.to_nat n
    ∧ ∀ v u, vertex n v → adjacent nbrs v u ↔ (v, u) ∈ es ∨ (u, v) ∈ es.
Proof.
  intros Hes. unfold build_neighbors.
  destruct (for_each_add_edge es (replicate (Z.to_nat n) []))
    as (nbrs & Hfor & Hlen & Hmem).
  { rewrite length_replicate. revert Hes. apply Forall_impl.
    intros e. unfold in_range, vertex. lia. }
  rewrite length_replicate in Hlen.
  exists nbrs. split; [done|]. split; [done|].
  intros v u Hv. unfold vertex in Hv.
  rewrite adjacent_vertex, Hmem by lia. rewrite Z2Nat.id by lia.
  pose proof (not_elem_of_replicate_nil (Z.to_nat n) (Z.to_nat v) u).
  naive_solver.
Qed.

(** C7. A graph built from edges whose endpoints are vertices has a
    symmetric [neighbors]: [u in neighbors[v]] exactly when
    [v in neighbors[u]]; and [u in neighbors[v]] exactly when the edge
    sequence holds [(v, u)] or [(u, v)]. *)
Theorem neighbors_symmetric_closure (n : Z) (es : list edge) :
  Forall (in_range n) es →
  ∃ g, Graph_init n es = Ok g
    ∧ ∀ u v, vertex n u → vertex n v →
        (adjacent (neighbors g) v u ↔ adjacent (neighbors g) u v)
        ∧ (adjacent (neighbors g) v u ↔ (v, u) ∈ es ∨ (u, v) ∈ es).
Proof.
  intros Hes.
  destruct (build_neighbors_in_range n es Hes) as (nbrs & Hbuild & _ & Hadj).
  unfold Graph_init. rewrite Hbuild. simpl. eexists. split; [done|]. simpl.
  intros u v Hu Hv. rewrite !Hadj by done. naive_solver.
Qed.

Lemma neighbors_symmetric_closure_witness :
  ∃ g, Graph_init 3 [(0, 1); (2, 1)] = Ok g
    ∧ ∀ u v, vertex 3 u → vertex 3 v →
        (adjacent (neighbors g) v u ↔ adjacent (neighbors g) u v)
        ∧ (adjacent (neighbors g) v u ↔
             (v, u) ∈ [(0, 1); (2, 1)] ∨ (u, v) ∈ [(0, 1); (2, 1)]).
Proof.
  apply (neighbors_symmetric_closure 3 [(0, 1); (2, 1)]).
  repeat constructor; simpl; lia.
Defined.

(** ** [shortest_path]: the inner loop *)

Lemma visited_refl (d : Z) (st : list (Z * Z) * gmap Z Z) : visited d [] st st.
Proof.
  split; [done| |by intros x Hx%elem_of_nil].
  exists []. rewrite app_nil_r. split; [done|]. split; [done|].
  split; [by intros x dx Hx%elem_of_nil | auto].
Qed.

Lemma visit_visited (d x : Z) (st : list (Z * Z) * gmap Z Z) :
  visited d [x] st (visit d st x).
Proof.
  unfold visit. destruct (st.2 !! x) as [dx|] eqn:Hx.
  - split; [done| |].
    + exists []. rewrite app_nil_r. split; [done|]. split; [done|].
      split; [by intros y dy Hy%elem_of_nil | auto].
    + intros y ->%list_elem_of_singleton. by rewrite Hx.
  - split; simpl.
    + by apply insert_subseteq.
    + exists [(x, d + 1)]. split; [done|]. split.
      { rewrite map_size_insert_None by done. simpl. lia. }
      split.
      * intros y dy [= -> ->]%list_elem_of_singleton.
        rewrite lookup_insert_eq, list_elem_of_singleton. done.
      * intros y dy. rewrite lookup_insert. case_decide as Hy.
        -- intros [= <-]. subst. right. split; [done|].
           by apply list_elem_of_singleton.
        -- auto.
    + intros y ->%list_elem_of_singleton. rewrite lookup_insert_eq. eauto.
Qed.

Lemma visited_trans (d : Z) (ns1 ns2 : list Z)
    (st1 st2 st3 : list (Z * Z) * gmap Z Z) :
  visited d ns1 st1 st2 → visited d ns2 st2 st3 →
  visited d (ns1 ++ ns2) st1 st3.
Proof.
  intros [Hi1 (new1 & Hq1 & Hs1 & Hn1 & Ho1) Ha1]
         [Hi2 (new2 & Hq2 & Hs2 & Hn2 & Ho2) Ha2].
  split.
  - by etrans.
  - exists (new1 ++ new2). split; [by rewrite Hq2, Hq1, app_assoc|].
    split; [rewrite length_app; lia|]. split.
    + intros x dx [Hx|Hx]%elem_of_app.
      * destruct (Hn1 x dx Hx) as (-> & Hin & Hl).
        split; [done|]. split; [apply elem_of_app; auto|].
        by eapply lookup_weaken.
      * destruct (Hn2 x dx Hx) as (-> & Hin & Hl).
        split; [done|]. split; [apply elem_of_app; auto|done].
    + intros x dx Hx. destruct (Ho2 x dx Hx) as [Hold|[-> Hin]].
      * destruct (Ho1 x dx Hold) as [?|[-> Hin]]; [auto|].
        right. split; [done|]. apply elem_of_app; auto.
      * right. split; [done|]. apply elem_of_app; auto.
  - intros x [Hx|Hx]%elem_of_app; [|auto].
    destruct (Ha1 x Hx) as [dx Hdx]. exists dx. by eapply lookup_weaken.
Qed.

Lemma foldl_visit_visited (d : Z) (ns : list Z) (st : list (Z * Z) * gmap Z Z) :
  visited d ns st (foldl (visit d) st ns).
Proof.
  revert st. induction ns as [|x ns IH]; intros st; simpl.
  - apply visited_refl.
  - change (x :: ns) with ([x] ++ ns).
    eapply visited_trans; [apply visit_visited | apply IH].
Qed.

(** ** [shortest_path]: the outer loop *)

Lemma size_keys_bounded (m : gmap Z Z) (n : nat) :
  (∀ w d, m !! w = Some d → 0 ≤ w < Z.of_nat n) → (size m ≤ n)%nat.
Proof.
  intros Hkeys. rewrite <- size_dom.
  assert (dom m ⊆ list_to_set (C := gset Z) (seqZ 0 (Z.of_nat n))) as Hsub.
  { intros w [d Hd]%elem_of_dom. apply elem_of_list_to_set, elem_of_seqZ.
    specialize (Hkeys w d Hd). lia. }
  apply subseteq_size in Hsub.
  rewrite size_list_to_set in Hsub by apply NoDup_seqZ.
  rewrite length_seqZ in Hsub. lia.
Qed.

Section bfs.
Variable nbrs : list (list Z).
Variable s : Z.
Hypothesis nbrs_vertices : entries_are_vertices nbrs.
Hypothesis s_vertex : 0 ≤ s < Z.of_nat (length nbrs).

Lemma adjacent_is_vertex (v u : Z) :
  adjacent nbrs v u → 0 ≤ u < Z.of_nat (length nbrs).
Proof.
  intros (l & Hget & Hu). apply (nbrs_vertices l u); [|done].
  unfold py_getitem in Hget.
  destruct (py_index (length nbrs) v) as [i| |]; simpl in Hget; [|done..].
  destruct (nbrs !! i) as [l'|] eqn:Hl; [|done].
  injection Hget as ->. by eapply list_elem_of_lookup_2.
Qed.

Lemma bfs_inv_init : bfs_inv nbrs s [(s, 0)] {[s := 0]}.
Proof.
  split.
  - apply lookup_singleton_eq.
  - intros v d [= -> ->]%list_elem_of_singleton. apply lookup_singleton_eq.
  - intros w d [-> <-]%lookup_singleton_Some. split; [done|].
    exists 0%nat. split; [done|constructor].
  - intros w d [-> <-]%lookup_singleton_Some. left. exists 0.
    by apply list_elem_of_singleton.
  - repeat constructor.
  - intros v d rest [= <- <- <-] w d' [_ <-]%lookup_singleton_Some. lia.
Qed.

Lemma bfs_inv_step (v d : Z) (queue : list (Z * Z)) (m : gmap Z Z)
    (ns : list Z) (st' : list (Z * Z) * gmap Z Z) :
  bfs_inv nbrs s ((v, d) :: queue) m →
  py_getitem nbrs v = Ok ns →
  visited d ns (queue, m) st' →
  bfs_inv nbrs s st'.1 st'.2.
Proof.
  intros [Hsrc Hq Hsound Hfront Hsorted Hlevel] Hget
         [Hincl (new & Hq' & _ & Hnew & Hold) Hall].
  simpl in *.
  assert (m !! v = Some d) as Hv by (apply Hq; left).
  assert (∀ w d', m !! w = Some d' → d' ≤ d + 1) as Hlev by eauto.
  apply StronglySorted_cons in Hsorted as [Hhead Hsorted].
  rewrite list.Forall_forall in Hhead.
  split.
  - by eapply lookup_weaken.
  - intros x dx. rewrite Hq'. intros [Hx|Hx]%elem_of_app.
    + eapply lookup_weaken; [|done]. apply Hq. by right.
    + by destruct (Hnew x dx Hx) as (-> & _ & ?).
  - intros w dw Hw. destruct (Hold w dw Hw) as [Hw'|[-> Hin]]; [auto|].
    destruct (Hnew w (d + 1) Hin) as (_ & Hwns & _).
    assert (adjacent nbrs v w) as Hadj by (by exists ns).
    split; [by eapply adjacent_is_vertex|].
    destruct (Hsound v d Hv) as (_ & k & -> & Hwalk).
    exists (S k). split; [lia|]. by econstructor.
  - intros w dw Hw. rewrite Hq'.
    destruct (Hold w dw Hw) as [Hw'|[-> Hin]].
    + destruct (Hfront w dw Hw') as [(d' & Hin)|Hset].
      * apply elem_of_cons in Hin as [[= -> ->]|Hin].
        -- right. assert (dw = d) as -> by congruence.
           intros x (l & Hl & Hx). assert (l = ns) as -> by congruence.
           destruct (Hall x Hx) as [dx Hdx]. exists dx. split; [done|].
           destruct (Hold x dx Hdx) as [?|[-> _]]; [eauto|lia].
        -- left. exists d'. apply elem_of_app. auto.
      * right. intros x Hx. destruct (Hset x Hx) as (d' & Hd' & Hle).
        exists d'. split; [by eapply lookup_weaken|done].
    + left. exists (d + 1). apply elem_of_app. auto.
  - rewrite Hq'. apply StronglySorted_app_2; [|done|].
    + intros [x1 d1] [x2 d2] H1 H2. unfold by_distance. simpl.
      destruct (Hnew x2 d2 H2) as (-> & _). apply Hlev with x1, Hq. by right.
    + assert (Forall (λ x, x.2 = d + 1) new) as Hall1.
      { apply list.Forall_forall. intros [x dx] Hx. by destruct (Hnew x dx Hx). }
      clear -Hall1. induction Hall1 as [|x l Hx Hl IH]; constructor; [done|].
      revert Hl. apply Forall_impl. intros y Hy. unfold by_distance. lia.
  - intros v2 d2 rest Heq w dw Hw.
    assert (d ≤ d2) as Hle.
    { assert ((v2, d2) ∈ queue ++ new) as [Hin|Hin]%elem_of_app
        by (rewrite <- Hq', Heq; left).
      - apply (Hhead (v2, d2) Hin).
      - destruct (Hnew v2 d2 Hin) as (-> & _). lia. }
    destruct (Hold w dw Hw) as [Hw'|[-> _]]; [|lia].
    specialize (Hlev w dw Hw'). lia.
Qed.

Lemma bfs_loop_terminates (fuel : nat) (queue : list (Z * Z)) (m : gmap Z Z) :
  bfs_inv nbrs s queue m →
  (length queue + length nbrs ≤ fuel + size m)%nat →
  ∃ m', bfs_loop fuel nbrs queue m = Ok m' ∧ bfs_inv nbrs s [] m'.
Proof.
  revert queue m. induction fuel as [|fuel IH]; intros queue m Hinv Hfuel.
  - destruct queue as [|v queue]; [by exists m|]. exfalso.
    assert (size m ≤ length nbrs)%nat.
    { apply size_keys_bounded. intros w d Hw. by apply (inv_sound _ _ _ _ Hinv w d). }
    simpl in Hfuel. lia.
  - destruct queue as [|[v d] queue]; [by exists m|]. simpl.
    assert (m !! v = Some d) as Hv by (apply (inv_queue _ _ _ _ Hinv); left).
    destruct (inv_sound _ _ _ _ Hinv v d Hv) as [Hvv _].
    destruct (py_getitem_vertex nbrs v Hvv) as (ns & _ & Hget).
    rewrite Hget. simpl.
    pose proof (foldl_visit_visited d ns (queue, m)) as Hvis.
    apply IH.
    + by eapply bfs_inv_step.
    + destruct Hvis as [_ (new & -> & Hsize & _) _]. simpl in *.
      rewrite length_app. lia.
Qed.

(** Every walk from the source ends at a recorded vertex, whose recorded
    distance is at most the length of the walk. *)
Lemma bfs_inv_complete (m : gmap Z Z) (u : Z) (k : nat) :
  bfs_inv nbrs s [] m → walk nbrs s u k →
  ∃ d, m !! u = Some d ∧ d ≤ Z.of_nat k.
Proof.
  intros Hinv. induction 1 as [|w u k Hwalk (d & Hd & Hle) Hadj].
  - exists 0. split; [apply (inv_source _ _ _ _ Hinv)|done].
  - destruct (inv_frontier _ _ _ _ Hinv w d Hd) as [(d' & Hin)|Hset].
    + by apply elem_of_nil in Hin.
    + destruct (Hset u Hadj) as (d' & Hd' & Hle'). exists d'. split; [done|lia].
Qed.

Lemma walk_is_vertex (u : Z) (k : nat) :
  walk nbrs s u k → 0 ≤ u < Z.of_nat (length nbrs).
Proof. destruct 1; [done|]. by eapply adjacent_is_vertex. Qed.
End bfs.

(** ** [shortest_path] on a constructed graph *)

Lemma walk_prepend (nbrs : list (list Z)) (s w u : Z) (k : nat) :
  adjacent nbrs s w → walk nbrs w u k → walk nbrs s u (S k).
Proof.
  intros Hadj. induction 1 as [|x u k _ IH Hxu].
  - econstructor; [constructor|done].
  - econstructor; [exact IH|done].
Qed.

Lemma walk_reverse (nbrs : list (list Z)) (s u : Z) (k : nat) :
  entries_are_vertices nbrs →
  (∀ a b, 0 ≤ a < Z.of_nat (length nbrs) → 0 ≤ b < Z.of_nat (length nbrs) →
     adjacent nbrs a b → adjacent nbrs b a) →
  0 ≤ s < Z.of_nat (length nbrs) →
  walk nbrs s u k → walk nbrs u s k.
Proof.
  intros Hvs Hsym Hs. induction 1 as [|w u k Hwalk IH Hadj].
  - constructor.
  - apply walk_prepend with w; [|done].
    apply Hsym; [by eapply walk_is_vertex|by eapply adjacent_is_vertex|done].
Qed.

Lemma Graph_init_in_range (n : Z) (es : list edge) (g : Graph) :
  Forall (in_range n) es → Graph_init n es = Ok g →
  length (neighbors g) = Z.to_nat n
  ∧ entries_are_vertices (neighbors g)
  ∧ ∀ v u, vertex n v → adjacent (neighbors g) v u ↔ (v, u) ∈ es ∨ (u, v) ∈ es.
Proof.
  intros Hes Hg. apply Graph_init_fields in Hg as (_ & _ & Hbuild & _).
  destruct (build_neighbors_in_range n es Hes) as (nbrs & Hbuild' & Hlen & Hadj).
  assert (neighbors g = nbrs) as -> by congruence.
  split; [done|]. split; [|done].
  intros l u Hl Hu. apply list_elem_of_lookup in Hl as [i Hi].
  assert (i < length nbrs)%nat as Hlt by (by eapply lookup_lt_Some).
  assert (adjacent nbrs (Z.of_nat i) u) as Hiu.
  { apply adjacent_vertex; [lia|]. rewrite Nat2Z.id.
    by rewrite (list_lookup_total_correct _ _ _ Hi). }
  apply Hadj in Hiu; [|unfold vertex; lia].
  rewrite list.Forall_forall in Hes.
  destruct Hiu as [Hin|Hin]; apply Hes in Hin as [H1 H2];
    unfold vertex in *; simpl in *; lia.
Qed.

(** The recorded distance is the length of a shortest walk. *)
Lemma shortest_path_is_distance (n : Z) (es : list edge) (g : Graph)
    (v : Z) (fuel : nat) :
  Forall (in_range n) es → Graph_init n es = Ok g → vertex n v →
  (Z.to_nat n ≤ fuel)%nat →
  ∃ m, shortest_path fuel g v = Ok m
    ∧ m !! v = Some 0
    ∧ (∀ u d, m !! u = Some d → ∃ k, d = Z.of_nat k ∧ walk (neighbors g) v u k)
    ∧ (∀ u k, walk (neighbors g) v u k → ∃ d, m !! u = Some d ∧ d ≤ Z.of_nat k).
Proof.
  intros Hes Hg Hv Hfuel.
  destruct (Graph_init_in_range n es g Hes Hg) as (Hlen & Hvs & _).
  assert (0 ≤ v < Z.of_nat (length (neighbors g))) as Hv'
    by (unfold vertex in Hv; lia).
  destruct (bfs_loop_terminates (neighbors g) v Hvs fuel [(v, 0)] {[v := 0]})
    as (m & Hm & Hinv).
  { by apply bfs_inv_init. }
  { rewrite map_size_singleton. simpl. lia. }
  exists m. split; [done|]. split; [apply (inv_source _ _ _ _ Hinv)|]. split.
  - intros u d Hu. by apply (inv_sound _ _ _ _ Hinv).
  - intros u k. by apply bfs_inv_complete.
Qed.

(** C5. On a graph built from edges whose endpoints are vertices,
    [shortest_path(v)] returns a dictionary (it raises nothing) that maps
    [v] to 0; for [u] reachable from [v], the entry of [u] in
    [shortest_path(v)] is the entry of [v] in [shortest_path(u)]; and an
    integer is absent from the dictionary exactly when it is unreachable
    from [v]. *)
Theorem shortest_path_symmetric (n : Z) (es : list edge) (g : Graph)
    (v : Z) (fuel : nat) :
  Forall (in_range n) es → Graph_init n es = Ok g → vertex n v →
  (Z.to_nat n ≤ fuel)%nat →
  ∃ m, shortest_path fuel g v = Ok m
    ∧ m !! v = Some 0
    ∧ (∀ u, reachable (neighbors g) v u →
         ∃ m', shortest_path fuel g u = Ok m'
           ∧ is_Some (m !! u) ∧ m !! u = m' !! v)
    ∧ (∀ u, m !! u = None ↔ ¬ reachable (neighbors g) v u).
Proof.
  intros Hes Hg Hv Hfuel.
  destruct (shortest_path_is_distance n es g v fuel Hes Hg Hv Hfuel)
    as (m & Hm & Hsrc & Hsound & Hcomplete).
  destruct (Graph_init_in_range n es g Hes Hg) as (Hlen & Hvs & Hadj).
  assert (∀ a b, 0 ≤ a < Z.of_nat (length (neighbors g)) →
                 0 ≤ b < Z.of_nat (length (neighbors g)) →
                 adjacent (neighbors g) a b → adjacent (neighbors g) b a) as Hsym.
  { intros a b Ha Hb. rewrite !Hadj by (unfold vertex; lia). tauto. }
  assert (0 ≤ v < Z.of_nat (length (neighbors g))) as Hv'
    by (unfold vertex in Hv; lia).
  exists m. split; [done|]. split; [done|]. split.
  - intros u [k Hwalk].
    assert (0 ≤ u < Z.of_nat (length (neighbors g))) as Hu'
      by (by eapply walk_is_vertex).
    assert (vertex n u) as Hu by (unfold vertex; lia).
    destruct (shortest_path_is_distance n es g u fuel Hes Hg Hu Hfuel)
      as (m' & Hm' & _ & Hsound' & Hcomplete').
    exists m'. split; [done|].
    destruct (Hcomplete u k Hwalk) as (d & Hd & _).
    split; [by exists d|]. rewrite Hd.
    destruct (Hsound u d Hd) as (kd & -> & Hwd).
    apply walk_reverse in Hwd; [|done..].
    destruct (Hcomplete' v kd Hwd) as (d' & Hd' & Hle'). rewrite Hd'.
    destruct (Hsound' v d' Hd') as (kd' & -> & Hwd').
    apply walk_reverse in Hwd'; [|done..].
    destruct (Hcomplete u kd' Hwd') as (d'' & Hd'' & Hle'').
    f_equal. assert (d'' = Z.of_nat kd) by congruence. lia.
  - intros u. split.
    + intros Hnone [k Hwalk]. destruct (Hcomplete u k Hwalk) as (d & Hd & _).
      congruence.
    + intros Hnot. destruct (m !! u) as [d|] eqn:Hd; [|done].
      destruct (Hsound u d Hd) as (k & _ & Hwalk). exfalso. apply Hnot. by exists k.
Qed.

Lemma shortest_path_symmetric_witness :
  ∃ g, Graph_init 4 [(0, 1); (1, 2)] = Ok g ∧
  ∃ m, shortest_path 4 g 0 = Ok m
    ∧ m !! 0 = Some 0
    ∧ (∀ u, reachable (neighbors g) 0 u →
         ∃ m', shortest_path 4 g u = Ok m'
           ∧ is_Some (m !! u) ∧ m !! u = m' !! 0)
    ∧ (∀ u, m !! u = None ↔ ¬ reachable (neighbors g) 0 u).
Proof.
  eexists. split; [reflexivity|].
  apply (shortest_path_symmetric 4 [(0, 1); (1, 2)]).
  - repeat constructor; simpl; lia.
  - reflexivity.
  - unfold vertex. lia.
  - simpl. lia.
Defined.

(** ** The six-cycle [make_graph(6, 1)] *)

Example make_graph_6_1_edges :
  make_graph_edges 6 1 = [(0, 5); (1, 0); (2, 1); (3, 2); (4, 3); (5, 4)].
Proof. reflexivity. Qed.

Example make_graph_6_1_neighbors :
  neighbors <$> (match make_graph 6 1 with Ok g => Some g | _ => None end)
  = Some [[5; 1]; [0; 2]; [1; 3]; [2; 4]; [3; 5]; [0; 4]].
Proof. reflexivity. Qed.

Example make_graph_6_1_shortest_path :
  (g ← make_graph 6 1; m ← shortest_path 6 g 0;
   mret ((λ u, m !! u) <$> [0; 1; 2; 3; 4; 5; 6]))
  = Ok [Some 0; Some 1; Some 2; Some 3; Some 2; Some 1; None].
Proof. vm_compute. reflexivity. Qed.

(** ** Loops whose body cannot raise *)

Lemma for_each_ok {A S : Type} (body : S → A → result S) (f : S → A → S)
    (l : list A) (s : S) :
  (∀ s x, x ∈ l → body s x = Ok (f s x)) →
  for_each body l s = Ok (foldl f s l).
Proof.
  revert s. induction l as [|x l IH]; intros s Hbody; simpl; [done|].
  rewrite Hbody by constructor. simpl. apply IH.
  intros s' y Hy. apply Hbody. by constructor.
Qed.

Lemma foldl_bind {A B S : Type} (f : S → B → S) (g : A → list B)
    (l : list A) (s : S) :
  foldl f s (l ≫= g) = foldl (λ s x, foldl f s (g x)) s l.
Proof.
  revert s. induction l as [|x l IH]; intros s; [done|].
  change ((x :: l) ≫= g) with (g x ++ (l ≫= g)).
  rewrite foldl_app. apply IH.
Qed.

Lemma foldl_invariant {A S : Type} (P : S → Prop) (f : S → A → S)
    (l : list A) (s : S) :
  P s → (∀ s x, x ∈ l → P s → P (f s x)) → P (foldl f s l).
Proof.
  revert s. induction l as [|x l IH]; intros s Hs Hstep; simpl; [done|].
  apply IH.
  - apply Hstep; [constructor|done].
  - intros s' y Hy. apply Hstep. by constructor.
Qed.

(** ** Subscripts that Python accepts *)

Lemma py_index_Ok (len : nat) (idx : Z) (i : nat) :
  py_index len idx = Ok i → valid_subscript len idx ∧ (i < len)%nat.
Proof.
  unfold py_index, valid_subscript.
  repeat case_bool_decide; intros [= <-]; lia.
Qed.

Lemma py_index_valid (len : nat) (idx : Z) :
  valid_subscript len idx → ∃ i, py_index len idx = Ok i ∧ (i < len)%nat.
Proof.
  unfold py_index, valid_subscript. intros Hv.
  case_bool_decide as H1; [eexists; split; [done|lia]|].
  case_bool_decide as H2; [eexists; split; [done|lia]|]. lia.
Qed.

Lemma py_getitem_valid {A : Type} (l : list A) (idx : Z) :
  valid_subscript (length l) idx → ∃ x, py_getitem l idx = Ok x ∧ x ∈ l.
Proof.
  intros (i & Hi & Hlt)%py_index_valid. unfold py_getitem. rewrite Hi. simpl.
  destruct (lookup_lt_is_Some_2 l i Hlt) as [x Hx]. rewrite Hx.
  exists x. split; [done|]. by eapply list_elem_of_lookup_2.
Qed.

Lemma py_getitem_elem_of {A : Type} (l : list A) (idx : Z) (x : A) :
  py_getitem l idx = Ok x → x ∈ l.
Proof.
  unfold py_getitem. destruct (py_index (length l) idx) as [i| |]; simpl; [|done..].
  destruct (l !! i) as [y|] eqn:Hy; [|done]. intros [= <-].
  by eapply list_elem_of_lookup_2.
Qed.

Lemma elem_of_alter_snoc_inv (nbrs : list (list Z)) (i : nat) (x u : Z) (l : list Z) :
  l ∈ alter (λ l, l ++ [x]) i nbrs → u ∈ l →
  (∃ l0, l0 ∈ nbrs ∧ u ∈ l0) ∨ u = x.
Proof.
  intros [j Hj]%list_elem_of_lookup Hu.
  destruct (decide (j = i)) as [->|Hne].
  - rewrite list_lookup_alter_eq in Hj.
    destruct (nbrs !! i) as [l0|] eqn:Hl0; [|done]. simpl in Hj.
    injection Hj as <-. apply elem_of_app in Hu as [Hu|Hu%list_elem_of_singleton].
    + left. exists l0. split; [by eapply list_elem_of_lookup_2|done].
    + by right.
  - rewrite list_lookup_alter_ne in Hj by done.
    left. exists l. split; [by eapply list_elem_of_lookup_2|done].
Qed.

Lemma add_edge_Ok (nbrs nbrs' : list (list Z)) (e : edge) :
  add_edge nbrs e = Ok nbrs' →
  length nbrs' = length nbrs
  ∧ valid_subscript (length nbrs) e.1 ∧ valid_subscript (length nbrs) e.2
  ∧ ∀ l u, l ∈ nbrs' → u ∈ l →
      (∃ l0, l0 ∈ nbrs ∧ u ∈ l0) ∨ u = e.1 ∨ u = e.2.
Proof.
  unfold add_edge, append_neighbor.
  destruct (py_index (length nbrs) e.1) as [i1| |] eqn:H1; simpl; [|done..].
  rewrite length_alter.
  destruct (py_index (length nbrs) e.2) as [i2| |] eqn:H2; simpl; [|done..].
  intros [= <-]. rewrite !length_alter.
  apply py_index_Ok in H1 as [H1 _], H2 as [H2 _].
  split; [done|]. split; [done|]. split; [done|].
  intros l u Hl Hu.
  destruct (elem_of_alter_snoc_inv _ _ _ _ _ Hl Hu) as [(l1 & Hl1 & Hu1) | ->]; [|auto].
  destruct (elem_of_alter_snoc_inv _ _ _ _ _ Hl1 Hu1) as [? | ->]; auto.
Qed.

Lemma for_each_add_edge_Ok (es : list edge) (nbrs nbrs' : list (list Z)) :
  for_each add_edge es nbrs = Ok nbrs' →
  entries_are_subscripts nbrs →
  length nbrs' = length nbrs ∧ entries_are_subscripts nbrs'.
Proof.
  revert nbrs. induction es as [|e es IH]; intros nbrs; simpl.
  - by intros [= <-].
  - destruct (add_edge nbrs e) as [nbrs1| |] eqn:Hadd; simpl; [|done..].
    intros Hfor Hsub.
    apply add_edge_Ok in Hadd as (Hlen & Hv1 & Hv2 & Hmem).
    destruct (IH nbrs1 Hfor) as [Hlen' Hsub'].
    + intros l u Hl Hu. rewrite Hlen.
      destruct (Hmem l u Hl Hu) as [(l0 & Hl0 & Hu0)|[Heq|Heq]]; subst; eauto.
    + split; [congruence|done].
Qed.

Lemma Graph_init_subscripts (n : Z) (es : list edge) (g : Graph) :
  Graph_init n es = Ok g →
  length (neighbors g) = Z.to_nat n ∧ entries_are_subscripts (neighbors g).
Proof.
  intros (_ & _ & Hbuild & _)%Graph_init_fields. unfold build_neighbors in Hbuild.
  apply for_each_add_edge_Ok in Hbuild as [Hlen Hsub].
  - by rewrite length_replicate in Hlen.
  - intros l u [-> _]%elem_of_replicate Hu. by apply elem_of_nil in Hu.
Qed.

(** ** [clustering_coefficient] *)

Section clustering.
Context {F : Type} `{PyNumber F}.

Lemma cluster_k_ok (nbrs : list (list Z)) (i j k : Z) (avg : F) :
  entries_are_subscripts nbrs →
  0 ≤ i < Z.of_nat (length nbrs) →
  0 ≤ k < j → j < Z.of_nat (length (neighbors_of nbrs i)) →
  cluster_k nbrs i j avg k = Ok (recurrence_step nbrs avg (i, j, k)).
Proof.
  intros Hsub Hi Hk Hj.
  destruct (py_getitem_vertex nbrs i Hi) as (ni & Hni & Hget).
  assert (neighbors_of nbrs i = ni) as Hof by (unfold neighbors_of; by rewrite Hget).
  rewrite Hof in Hj.
  destruct (py_getitem_vertex ni k) as (nik & _ & Hgetk); [lia|].
  destruct (py_getitem_vertex ni j) as (nij & Hnij & Hgetj); [lia|].
  assert (valid_subscript (length nbrs) nij) as Hvalid.
  { apply (Hsub ni); by eapply list_elem_of_lookup_2. }
  destruct (py_getitem_valid nbrs nij Hvalid) as (nj & Hgetnj & _).
  unfold cluster_k. rewrite Hget. simpl. rewrite Hgetk. simpl.
  rewrite Hgetj. simpl. rewrite Hgetnj. simpl.
  unfold recurrence_step, closes_triad, neighbor_at. rewrite Hof, Hgetk, Hgetj.
  unfold neighbors_of. by rewrite Hgetnj.
Qed.

Lemma cluster_i_ok (nbrs : list (list Z)) (i : Z) (avg : F) :
  entries_are_subscripts nbrs →
  0 ≤ i < Z.of_nat (length nbrs) →
  cluster_i nbrs avg i =
  Ok (foldl (λ avg j,
               foldl (λ avg k, recurrence_step nbrs avg (i, j, k)) avg (py_range 0 j))
            avg (py_range 0 (Z.of_nat (length (neighbors_of nbrs i))))).
Proof.
  intros Hsub Hi.
  destruct (py_getitem_vertex nbrs i Hi) as (ni & Hni & Hget).
  assert (neighbors_of nbrs i = ni) as Hof by (unfold neighbors_of; by rewrite Hget).
  unfold cluster_i. rewrite Hget. simpl. rewrite Hof.
  apply for_each_ok. intros avg' j Hj%elem_of_py_range.
  apply for_each_ok. intros avg'' k Hk%elem_of_py_range.
  apply cluster_k_ok; [done|done|lia|]. rewrite Hof. lia.
Qed.

Lemma clustering_recurrence_nested (g : Graph) :
  clustering_recurrence g =
  foldl (λ avg i,
           foldl (λ avg j,
                    foldl (λ avg k, recurrence_step (neighbors g) avg (i, j, k))
                          avg (py_range 0 j))
                 avg (py_range 0 (Z.of_nat (length (neighbors_of (neighbors g) i)))))
        (num_of_int 0) (py_range 0 (num_vertices g)).
Proof.
  unfold clustering_recurrence, position_pairs. rewrite foldl_bind.
  apply foldl_ext_in. intros avg i _. rewrite foldl_bind.
  apply foldl_ext_in. intros avg' j _. rewrite foldl_bind.
  by apply foldl_ext_in.
Qed.

Lemma cluster_loop_ok (nbrs : list (list Z)) (n : Z) (avg : F) :
  entries_are_subscripts nbrs → length nbrs = Z.to_nat n →
  for_each (cluster_i nbrs) (py_range 0 n) avg =
  Ok (foldl (λ avg i,
               foldl (λ avg j,
                        foldl (λ avg k, recurrence_step nbrs avg (i, j, k))
                              avg (py_range 0 j))
                     avg (py_range 0 (Z.of_nat (length (neighbors_of nbrs i)))))
            avg (py_range 0 n)).
Proof.
  intros Hsub Hlen. apply for_each_ok. intros avg' i Hi%elem_of_py_range.
  apply cluster_i_ok; [done|]. rewrite Hlen. lia.
Qed.

Lemma clustering_coefficient_flattened (n : Z) (es : list edge) (g : Graph) :
  Graph_init n es = Ok g →
  clustering_coefficient g = Ok (clustering_recurrence g).
Proof.
  intros Hg. destruct (Graph_init_subscripts n es g Hg) as [Hlen Hsub].
  apply Graph_init_fields in Hg as (Hn & _).
  rewrite clustering_recurrence_nested. unfold clustering_coefficient.
  apply cluster_loop_ok; [done|]. by rewrite Hn.
Qed.

Lemma stated_recurrence_flattened (g : Graph) :
  stated_recurrence g = clustering_recurrence g.
Proof.
  unfold stated_recurrence, clustering_recurrence.
  apply foldl_ext_in. intros avg t _.
  unfold stated_update, recurrence_step, closed_triad, open_triad.
  by destruct (closes_triad (neighbors g) t).
Qed.
End clustering.

(** C2. [clustering_coefficient()] returns the value of the recurrence,
    in whatever arithmetic the four operations are carried out: [avg]
    starts at 0; for every outer index [i] from 0 to [num_vertices - 1]
    and every pair of positions [k < j] of [neighbors[i]], in loop order,
    [avg] becomes [(i * avg + 1) / (i + 1)] when [neighbors[i][k]] is in
    [neighbors[neighbors[i][j]]] and [avg * i / (i + 1)] otherwise, with
    [i] the outer index.  The second part spells the two updates out in
    rational arithmetic. *)
Theorem clustering_coefficient_recurrence (n : Z) (es : list edge) (g : Graph) :
  Graph_init n es = Ok g →
  (∀ (F : Type) (number : PyNumber F),
     clustering_coefficient (F := F) g
     = Ok (foldl (λ avg t,
                    stated_update (closes_triad (neighbors g) t) t.1.1 avg)
                 (num_of_int 0) (position_pairs g)))
  ∧ (∀ (i : Z) (avg : Q), 0 ≤ i →
       (stated_update true i avg == (inject_Z i * avg + 1) / (inject_Z i + 1))%Q
       ∧ (stated_update false i avg == avg * inject_Z i / (inject_Z i + 1))%Q)
  ∧ (∀ t, t ∈ position_pairs g →
       0 ≤ t.1.1 < num_vertices g
       ∧ 0 ≤ t.2 < t.1.2
       ∧ t.1.2 < Z.of_nat (length (neighbors_of (neighbors g) t.1.1))).
Proof.
  intros Hg. split; [|split].
  - intros F number.
    change (foldl _ (num_of_int 0) (position_pairs g)) with (stated_recurrence g).
    rewrite stated_recurrence_flattened.
    by apply (clustering_coefficient_flattened n es).
  - intros i avg Hi. unfold stated_update. simpl.
    rewrite inject_Z_plus. change (inject_Z 1) with 1%Q. split; reflexivity.
  - intros [[i j] k] Ht. simpl.
    unfold position_pairs in Ht.
    apply list_elem_of_bind in Ht as (i' & Ht & Hi%elem_of_py_range).
    apply list_elem_of_bind in Ht as (j' & Ht & Hj%elem_of_py_range).
    apply list_elem_of_bind in Ht
      as (k' & Ht%list_elem_of_singleton & Hk%elem_of_py_range).
    injection Ht as -> -> ->. lia.
Qed.

Lemma clustering_coefficient_recurrence_witness :
  ∃ g, make_graph 6 2 = Ok g
    ∧ (∃ r : Q, clustering_coefficient g = Ok r ∧ (r == 5221 # 7776)%Q)
    ∧ clustering_coefficient g = Ok 0x1.57c5010db20abp-1%float
    ∧ (stated_update true 2 (1 # 2) == 2 # 3)%Q
    ∧ (stated_update false 2 (1 # 2) == 1 # 3)%Q.
Proof.
  eexists. split; [reflexivity|].
  destruct (clustering_coefficient_recurrence 6 (make_graph_edges 6 2) _ eq_refl)
    as (Hloops & Hupdates & _).
  split; [|split; [|split]].
  - eexists. split; [apply (Hloops Q exact_number)|]. vm_compute. reflexivity.
  - rewrite (Hloops float binary64_number). vm_compute. reflexivity.
  - rewrite (proj1 (Hupdates 2 (1 # 2) ltac:(lia))). reflexivity.
  - rewrite (proj2 (Hupdates 2 (1 # 2) ltac:(lia))). reflexivity.
Defined.

(** The weight of an update is the outer index, not the number of
    observations: on the path [1 - 0 - 2] next to the triangle [3, 4, 5]
    the four observations are open, closed, closed, closed, whose mean is
    3/4, and the recurrence yields 1/2. *)
Example recurrence_weighs_by_index :
  ∃ g, Graph_init 6 [(0, 1); (0, 2); (3, 4); (3, 5); (4, 5)] = Ok g
    ∧ closes_triad (neighbors g) <$> position_pairs g = [false; true; true; true]
    ∧ ∃ r, clustering_coefficient (F := Q) g = Ok r ∧ (r == 1 # 2)%Q.
Proof.
  eexists. split; [reflexivity|]. split; [reflexivity|].
  eexists. split; [reflexivity|]. reflexivity.
Qed.

(** ** The recurrence stays in [0, 1] *)

Lemma inject_Z_succ_pos (i : Z) : 0 ≤ i → (0 < inject_Z (i + 1))%Q.
Proof.
  intros Hi. change 0%Q with (inject_Z 0). rewrite <- Zlt_Qlt. lia.
Qed.

Lemma closed_triad_unit_interval (i : Z) (a : Q) :
  0 ≤ i → (0 <= a)%Q ∧ (a <= 1)%Q →
  (0 <= closed_triad i a)%Q ∧ (closed_triad i a <= 1)%Q.
Proof.
  intros Hi [Ha0 Ha1]. unfold closed_triad. simpl.
  pose proof (inject_Z_succ_pos i Hi) as Hpos.
  assert (0 <= inject_Z i)%Q as Hi0
    by (change 0%Q with (inject_Z 0); rewrite <- Zle_Qle; lia).
  assert (0 <= inject_Z i * a)%Q as Hprod by (by apply Qmult_le_0_compat).
  assert (inject_Z i * a <= inject_Z i * 1)%Q as Hle.
  { apply Qmult_le_compat_nonneg; split; auto with qarith. }
  rewrite inject_Z_plus in *. change (inject_Z 1) with 1%Q in *. split.
  - apply Qle_shift_div_l; [done|]. lra.
  - apply Qle_shift_div_r; [done|]. lra.
Qed.

Lemma open_triad_unit_interval (i : Z) (a : Q) :
  0 ≤ i → (0 <= a)%Q ∧ (a <= 1)%Q →
  (0 <= open_triad i a)%Q ∧ (open_triad i a <= 1)%Q.
Proof.
  intros Hi [Ha0 Ha1]. unfold open_triad. simpl.
  pose proof (inject_Z_succ_pos i Hi) as Hpos.
  assert (0 <= inject_Z i)%Q as Hi0
    by (change 0%Q with (inject_Z 0); rewrite <- Zle_Qle; lia).
  assert (0 <= a * inject_Z i)%Q as Hprod by (by apply Qmult_le_0_compat).
  assert (a * inject_Z i <= 1 * inject_Z i)%Q as Hle.
  { apply Qmult_le_compat_nonneg; split; auto with qarith. }
  rewrite inject_Z_plus in *. change (inject_Z 1) with 1%Q in *. split.
  - apply Qle_shift_div_l; [done|]. lra.
  - apply Qle_shift_div_r; [done|]. lra.
Qed.

Lemma position_pairs_index (g : Graph) (t : Z * Z * Z) :
  t ∈ position_pairs g → 0 ≤ t.1.1 < num_vertices g.
Proof.
  unfold position_pairs.
  intros (i & Ht & Hi%elem_of_py_range)%list_elem_of_bind.
  apply list_elem_of_bind in Ht as (j & Ht & _).
  apply list_elem_of_bind in Ht as (k & Ht%list_elem_of_singleton & _).
  by subst.
Qed.

Lemma clustering_recurrence_unit_interval (g : Graph) :
  (0 <= clustering_recurrence (F := Q) g)%Q
  ∧ (clustering_recurrence (F := Q) g <= 1)%Q.
Proof.
  unfold clustering_recurrence.
  apply (foldl_invariant (λ avg : Q, (0 <= avg)%Q ∧ (avg <= 1)%Q)).
  - simpl. split; [apply Qle_refl|done].
  - intros avg t Ht%position_pairs_index Havg. unfold recurrence_step.
    destruct (closes_triad (neighbors g) t).
    + apply closed_triad_unit_interval; [lia|done].
    + apply open_triad_unit_interval; [lia|done].
Qed.

(** The two scenarios of the specification, in binary64: a six-cycle has
    coefficient 0 and a triangle has coefficient 1. *)
Example clustering_coefficient_six_cycle :
  (g ← make_graph 6 1; clustering_coefficient g) = Ok 0%float.
Proof. vm_compute. reflexivity. Qed.

Example clustering_coefficient_triangle :
  (g ← Graph_init 3 [(0, 1); (0, 2); (1, 2)]; clustering_coefficient g)
  = Ok 1%float.
Proof. vm_compute. reflexivity. Qed.

(** ** [shortest_path_len_random] *)

(** C4, the code at the failing input. On the graph of the single edge
    [(0, 1)], whichever source is sampled, the other vertex is at distance
    1, so the mean over the vertices distinct from the source is 1, and
    that is what the exact variant [shortest_path_len] returns.
    [shortest_path_len_random] returns 0.5: its inner loop runs over
    [range(num_vertices)], the source included, at distance 0. *)
Theorem shortest_path_len_random_counts_source :
  ∃ g, Graph_init 2 [(0, 1)] = Ok g
    ∧ shortest_path_len_random 2 g lowest_draws 0 = Ok (0.5%float, 20%nat)
    ∧ mean_over_other_vertices 2 g lowest_draws 0 = Ok (1%float, 20%nat)
    ∧ shortest_path_len 2 g = Ok 1%float
    ∧ ∃ r r' : Q,
        shortest_path_len_random 2 g lowest_draws 0 = Ok (r, 20%nat)
        ∧ mean_over_other_vertices 2 g lowest_draws 0 = Ok (r', 20%nat)
        ∧ (r == 1 # 2)%Q ∧ (r' == 1)%Q.
Proof.
  eexists. split; [reflexivity|].
  split; [by vm_compute|]. split; [by vm_compute|]. split; [by vm_compute|].
  eexists _, _. split; [by vm_compute|]. split; [by vm_compute|].
  split; reflexivity.
Qed.

(** ** [randomize_graph] *)

Lemma for_each_app {A S : Type} (body : S → A → result S) (l1 l2 : list A) (s : S) :
  for_each body (l1 ++ l2) s = (s1 ← for_each body l1 s; for_each body l2 s1).
Proof.
  revert s. induction l1 as [|x l1 IH]; intros s; simpl; [done|].
  destruct (body s x) as [s'| |]; simpl; [apply IH|done..].
Qed.

(** A loop [for i in range(n)] with an invariant that depends on [i]. *)
Lemma for_each_range_inv {S : Type} (P : nat → S → Prop)
    (body : S → Z → result S) (n : nat) (s0 s : S) :
  P 0%nat s0 →
  (∀ i s s', (i < n)%nat → P i s → body s (Z.of_nat i) = Ok s' → P (Datatypes.S i) s') →
  for_each body (py_range 0 (Z.of_nat n)) s0 = Ok s → P n s.
Proof.
  intros H0. revert s. induction n as [|n IH]; intros s Hstep.
  - by intros [= <-].
  - replace (Z.of_nat (Datatypes.S n)) with (Z.of_nat n + 1) by lia.
    rewrite py_range_snoc, for_each_app by lia.
    destruct (for_each body (py_range 0 (Z.of_nat n)) s0) as [s1| |] eqn:H1;
      simpl; [|done..].
    destruct (body s1 (Z.of_nat n)) as [s2| |] eqn:H2; simpl; [|done..].
    intros [= <-]. apply (Hstep n s1); [lia| |done].
    apply IH; [|done]. intros i s' s'' Hi. apply Hstep. lia.
Qed.

Lemma draw_edge_Ok (ape : list edge) (rs : random_source) (k : nat) (r : edge * nat) :
  draw_edge ape rs k = Ok r → r.1 ∈ ape.
Proof.
  unfold draw_edge.
  destruct (py_randint rs k 0 (Z.of_nat (length ape) - 1)) as [d| |]; simpl; [|done..].
  destruct (py_getitem ape d.1) as [e| |] eqn:He; simpl; [|done..].
  intros [= <-]. by eapply py_getitem_elem_of.
Qed.

Lemma redraw_Ok (fuel : nat) (ape new_edges : list edge) (rs : random_source)
    (k : nat) (r : edge * nat) :
  redraw fuel ape new_edges rs k = Ok r → r.1 ∈ ape ∧ r.1 ∉ new_edges.
Proof.
  revert k. induction fuel as [|fuel IH]; intros k; simpl;
    destruct (draw_edge ape rs k) as [d| |] eqn:Hd; simpl; try done;
    unfold py_in; case_bool_decide as Hin; try done.
  - intros [= <-]. split; [by eapply draw_edge_Ok|done].
  - apply IH.
  - intros [= <-]. split; [by eapply draw_edge_Ok|done].
Qed.

(** What one iteration of the rewiring loop does to [new_edges]. *)
Lemma rewire_Ok (fuel : nat) (ape : list edge) (p : Q) (rs : random_source)
    (cur cur' : list edge) (k k' : nat) (i : nat) :
  (i < length cur)%nat →
  rewire fuel ape p rs (cur, k) (Z.of_nat i) = Ok (cur', k') →
  ((p <= random_at rs k)%Q ∧ cur' = cur)
  ∨ ((random_at rs k < p)%Q ∧ ∃ e, e ∈ ape ∧ (e ∉ cur) ∧ cur' = <[i := e]> cur).
Proof.
  intros Hi. unfold rewire. simpl.
  destruct (Qlt_le_dec (random_at rs k) p) as [Hlt|Hle].
  - destruct (redraw fuel ape cur rs (S k)) as [r| |] eqn:Hr; simpl; [|done..].
    apply redraw_Ok in Hr as [Hape Hfresh].
    unfold py_setitem. rewrite py_index_vertex by lia. simpl. rewrite Nat2Z.id.
    intros [= <- <-]. right. split; [done|]. by exists r.1.
  - intros [= <- <-]. by left.
Qed.

Lemma rewired_upto_init (may_keep : bool) (ape old : list edge) :
  rewired_upto may_keep ape old 0 old.
Proof. split; [done|]. split; [done|]. intros j e Hj. lia. Qed.

Lemma rewired_upto_keep (ape old cur : list edge) (i : nat) :
  rewired_upto true ape old i cur →
  rewired_upto true ape old (S i) cur.
Proof.
  intros (Hlen & Hdrop & Hpos). split; [done|]. split.
  - replace (S i) with (i + 1)%nat by lia. by rewrite <- !drop_drop, Hdrop.
  - intros j e Hj He. destruct (decide (j = i)) as [->|Hne].
    + left. split; [done|].
      pose proof (f_equal (λ l : list edge, l !! 0%nat) Hdrop) as H0. simpl in H0.
      rewrite !lookup_drop, Nat.add_0_r in H0. congruence.
    + apply Hpos; [lia|done].
Qed.

Lemma rewired_upto_replace (may_keep : bool) (ape old cur : list edge)
    (i : nat) (e : edge) :
  (i < length old)%nat → e ∈ ape → e ∉ cur →
  rewired_upto may_keep ape old i cur →
  rewired_upto may_keep ape old (S i) (<[i := e]> cur).
Proof.
  intros Hi Hape Hfresh (Hlen & Hdrop & Hpos). split; [by rewrite length_insert|].
  split.
  - rewrite drop_insert_lt by lia.
    replace (S i) with (i + 1)%nat by lia. by rewrite <- !drop_drop, Hdrop.
  - intros j e' Hj He'. destruct (decide (j = i)) as [->|Hne].
    + rewrite list_lookup_insert_eq in He' by lia. injection He' as <-.
      right. split; [done|]. split.
      * rewrite take_insert_ge by lia. intros Hin. apply Hfresh.
        by eapply subseteq_take.
      * rewrite <- Hdrop. intros Hin. apply Hfresh. by eapply subseteq_drop.
    + rewrite list_lookup_insert_ne in He' by done.
      destruct (Hpos j e') as [?|(? & Htake & ?)]; [lia|done|by left|].
      right. split; [done|]. split; [|done].
      by rewrite take_insert_ge by lia.
Qed.

Lemma list_elem_of_insert_inv {A : Type} (l : list A) (i : nat) (x z : A) :
  z ∈ <[i := x]> l → z = x ∨ z ∈ l.
Proof.
  revert i. induction l as [|y l IH]; intros [|i]; simpl.
  - by right.
  - by right.
  - intros [->|Hz]%elem_of_cons; [by left|]. right. by right.
  - intros [->|Hz]%elem_of_cons; [right; by left|].
    destruct (IH i Hz) as [->|Hin]; [by left|]. right. by right.
Qed.

Lemma NoDup_insert_fresh {A : Type} (l : list A) (i : nat) (x : A) :
  NoDup l → x ∉ l → NoDup (<[i := x]> l).
Proof.
  revert i. induction l as [|y l IH]; intros [|i] Hnd Hx; simpl; try done.
  - apply list.NoDup_cons in Hnd as [_ Hnd]. apply list.NoDup_cons. split; [|done].
    intros Hin. apply Hx. by right.
  - apply list.NoDup_cons in Hnd as [Hy Hnd]. apply list.NoDup_cons. split.
    + intros [->|Hin]%list_elem_of_insert_inv; [|done]. apply Hx. by left.
    + apply IH; [done|]. intros Hin. apply Hx. by right.
Qed.

Lemma unordered_ascending (e : edge) : ascending e → unordered e = e.
Proof.
  destruct e as [a b]. unfold ascending, unordered. simpl. intros Hab.
  f_equal; lia.
Qed.

Lemma no_duplicate_edges_ascending (es : list edge) :
  Forall ascending es → no_duplicate_edges es ↔ NoDup es.
Proof.
  intros Hes. unfold no_duplicate_edges.
  assert (unordered <$> es = es) as ->; [|done].
  induction Hes as [|e es He _ IH]; [done|].
  rewrite fmap_cons, IH. by rewrite unordered_ascending.
Qed.

Lemma all_possible_edges_ascending (n : Z) :
  Forall ascending (build_all_possible_edges n).
Proof.
  apply list.Forall_forall. intros [b a] Hin%elem_of_all_possible_edges.
  unfold ascending. simpl. lia.
Qed.

Lemma rewire_loop_rewired (may_keep : bool) (fuel : nat) (ape old : list edge)
    (p : Q) (rs : random_source) (k : nat) (st : list edge * nat) :
  (may_keep = false → ∀ k, (random_at rs k < p)%Q) →
  for_each (rewire fuel ape p rs) (py_range 0 (Z.of_nat (length old))) (old, k)
    = Ok st →
  rewired_upto may_keep ape old (length old) st.1.
Proof.
  intros Hp.
  apply (for_each_range_inv (λ i s, rewired_upto may_keep ape old i s.1)).
  - apply rewired_upto_init.
  - intros i [cur k0] [cur' k1] Hi Hinv Hstep. simpl in *.
    assert (length cur = length old) as Hlen by apply Hinv.
    apply rewire_Ok in Hstep as [[Hle ->]|(Hlt & e & Hape & Hfresh & ->)]; [| |lia].
    + destruct may_keep; [by apply rewired_upto_keep|].
      exfalso. apply (Qlt_not_le _ _ (Hp eq_refl k0)), Hle.
    + by apply rewired_upto_replace.
Qed.

Lemma rewire_loop_distinct (fuel : nat) (ape old : list edge)
    (p : Q) (rs : random_source) (k : nat) (st : list edge * nat) :
  Forall ascending ape → Forall ascending old → NoDup old →
  for_each (rewire fuel ape p rs) (py_range 0 (Z.of_nat (length old))) (old, k)
    = Ok st →
  Forall ascending st.1 ∧ NoDup st.1.
Proof.
  intros Hape Hold Hnd Hloop.
  enough (length st.1 = length old ∧ Forall ascending st.1 ∧ NoDup st.1)
    as (_ & ? & ?) by done.
  revert Hloop.
  apply (for_each_range_inv
           (λ (i : nat) (s : list edge * nat),
              length s.1 = length old ∧ Forall ascending s.1 ∧ NoDup s.1)).
  - done.
  - intros i [cur k0] [cur' k1] Hi (Hlen & Hasc & Hnd') Hstep. simpl in *.
    apply rewire_Ok in Hstep as [[Hle ->]|(Hlt & e & He & Hfresh & ->)]; [done| |lia].
    split; [by rewrite length_insert|]. split.
    + apply Forall_insert; [done|].
      rewrite list.Forall_forall in Hape. by apply Hape.
    + by apply NoDup_insert_fresh.
Qed.

Lemma randomize_graph_Ok (n : Z) (es : list edge) (g g' : Graph)
    (fuel : nat) (p : Q) (rs : random_source) (k k' : nat) :
  Graph_init n es = Ok g →
  randomize_graph fuel g p rs k = Ok (g', k') →
  for_each (rewire fuel (build_all_possible_edges n) p rs)
           (py_range 0 (Z.of_nat (length es))) (es, k) = Ok (edges g', k')
  ∧ Graph_init n (edges g') = Ok g'.
Proof.
  intros (Hn & Hes & _ & Hape)%Graph_init_fields.
  unfold randomize_graph. rewrite Hn, Hes, Hape.
  destruct (for_each _ _ _) as [[new_edges k1]| |]; simpl; [|done..].
  destruct (Graph_init n new_edges) as [g1| |] eqn:Hg1; simpl; [|done..].
  intros [= <- <-].
  apply Graph_init_fields in Hg1 as Hf. destruct Hf as (_ & -> & _). done.
Qed.

(** Under the precondition of the class docstring, the guard of the
    rejection loop does its job.  On a graph whose edges are all ascending,
    whenever [randomize_graph(p)] returns, the new graph has the same
    vertex count and as many edges; each position holds either the edge
    the input had there or an edge of [all_possible_edges] that was absent
    from the evolving sequence when it was drawn; and the returned
    sequence has no duplicate edge, as unordered pairs, when the input had
    none. *)
Theorem randomize_graph_no_duplicates (n : Z) (es : list edge) (g g' : Graph)
    (fuel : nat) (p : Q) (rs : random_source) (k k' : nat) :
  Forall ascending es →
  no_duplicate_edges es →
  Graph_init n es = Ok g →
  randomize_graph fuel g p rs k = Ok (g', k') →
  no_duplicate_edges (edges g')
  ∧ num_vertices g' = n
  ∧ length (edges g') = length es
  ∧ ∀ j e, edges g' !! j = Some e →
      (es !! j = Some e)
      ∨ (e ∈ all_possible_edges g ∧ (e ∉ take j (edges g')) ∧ (e ∉ drop j es)).
Proof.
  intros Hasc Hnd Hg Hrun.
  destruct (randomize_graph_Ok n es g g' fuel p rs k k' Hg Hrun) as [Hloop Hg'].
  apply (no_duplicate_edges_ascending es Hasc) in Hnd.
  destruct (rewire_loop_distinct _ _ _ _ _ _ _
              (all_possible_edges_ascending n) Hasc Hnd Hloop) as [Hasc' Hnd'].
  destruct (rewire_loop_rewired true _ _ _ _ _ _ _ ltac:(done) Hloop)
    as (Hlen & _ & Hpos). simpl in *.
  split; [by apply (no_duplicate_edges_ascending _ Hasc')|].
  split; [by apply Graph_init_fields in Hg' as (? & _)|].
  split; [done|].
  intros j e He.
  assert (j < length (edges g'))%nat as Hj by (by eapply lookup_lt_Some).
  apply Graph_init_fields in Hg as (_ & _ & _ & ->).
  destruct (Hpos j e) as [[_ ?]|?]; [lia|done|by left|by right].
Qed.

Lemma randomize_graph_no_duplicates_witness :
  ∃ g g', Graph_init 3 [(0, 2); (1, 2)] = Ok g
    ∧ randomize_graph 1 g (1 # 2) first_draw_only 0 = Ok (g', 3%nat)
    ∧ edges g' = [(0, 1); (1, 2)]
    ∧ no_duplicate_edges (edges g')
    ∧ num_vertices g' = 3
    ∧ length (edges g') = length [(0, 2); (1, 2)]
    ∧ ∀ j e, edges g' !! j = Some e →
        ([(0, 2); (1, 2)] !! j = Some e)
        ∨ (e ∈ all_possible_edges g ∧ (e ∉ take j (edges g'))
           ∧ (e ∉ drop j [(0, 2); (1, 2)])).
Proof.
  eexists _, _. split; [reflexivity|]. split; [vm_compute; reflexivity|].
  split; [reflexivity|].
  apply (randomize_graph_no_duplicates 3 [(0, 2); (1, 2)] _ _ 1 (1 # 2)
           first_draw_only 0 3).
  - repeat constructor; unfold ascending; simpl; lia.
  - apply (bool_decide_unpack _). vm_compute. reflexivity.
  - reflexivity.
  - vm_compute. reflexivity.
Defined.

Lemma first_draw_only_well_behaved : well_behaved first_draw_only.
Proof.
  split.
  - intros [|k]; simpl; split; lra.
  - intros k a b Hab. simpl. lia.
Qed.

(** Without that precondition the property fails, and [make_graph] does
    not establish it: on the ring [make_graph(3, 1)], whose edges
    [(0,2); (1,0); (2,1)] are pairwise distinct, the candidate [(0,1)] is
    not [in] the sequence, which holds [(1,0)], so it replaces the first
    edge and the result [(0,1); (1,0); (2,1)] holds the edge between 0 and 1
    twice. *)
Lemma randomize_graph_duplicates_descending_edge :
  ∃ g, make_graph 3 1 = Ok g
    ∧ well_behaved first_draw_only
    ∧ ¬ rewiring_keeps_edges_distinct g 1 (1 # 2) first_draw_only 0.
Proof.
  eexists. split; [reflexivity|]. split; [apply first_draw_only_well_behaved|].
  intros Hclaim.
  unfold rewiring_keeps_edges_distinct in Hclaim.
  assert (no_duplicate_edges [(0, 2); (1, 0); (2, 1)]) as Hnd.
  { apply (bool_decide_unpack _). vm_compute. reflexivity. }
  specialize (Hclaim Hnd).
  assert (∃ g', randomize_graph 1
              {| num_vertices := 3; edges := [(0, 2); (1, 0); (2, 1)];
                 neighbors := [[2; 1]; [0; 2]; [0; 1]];
                 all_possible_edges := [(0, 1); (0, 2); (1, 2)] |}
              (1 # 2) first_draw_only 0 = Ok (g', 4%nat)
            ∧ edges g' = [(0, 1); (1, 0); (2, 1)]) as (g' & Hrun & Hedges).
  { eexists. split; [vm_compute; reflexivity|reflexivity]. }
  specialize (Hclaim g' 4%nat Hrun). rewrite Hedges in Hclaim.
  unfold no_duplicate_edges in Hclaim. simpl in Hclaim.
  apply list.NoDup_cons in Hclaim as [Hnotin _]. apply Hnotin. left.
Qed.

(** C1, the code at the failing input.  [make_graph(3, 1)] builds the
    edges [(0,2); (1,0); (2,1)], no two of them the same unordered pair;
    [(1,0)] is descending, against the docstring of the class.  With
    [random()] below [p] at the first edge only and [randint] at its lower
    bound, [randomize_graph(1/2)] draws [(0,1)], finds it absent, since
    [in] compares ordered tuples, and returns [(0,1); (1,0); (2,1)]: the
    edge between 0 and 1 twice. *)
Theorem randomize_graph_duplicates_ring_edge :
  ∃ g g', make_graph 3 1 = Ok g
    ∧ edges g = [(0, 2); (1, 0); (2, 1)]
    ∧ no_duplicate_edges (edges g)
    ∧ well_behaved first_draw_only
    ∧ randomize_graph 1 g (1 # 2) first_draw_only 0 = Ok (g', 4%nat)
    ∧ edges g' = [(0, 1); (1, 0); (2, 1)]
    ∧ ¬ no_duplicate_edges (edges g').
Proof.
  eexists _, _. split; [reflexivity|]. split; [reflexivity|].
  split; [apply (bool_decide_unpack _); vm_compute; reflexivity|].
  split; [apply first_draw_only_well_behaved|].
  split; [vm_compute; reflexivity|]. split; [reflexivity|].
  unfold no_duplicate_edges. simpl.
  intros [Hnotin _]%list.NoDup_cons. apply Hnotin. left.
Qed.

(** ** [randomize_graph(0)] and [randomize_graph(1)] *)

Lemma rewire_never (fuel : nat) (ape : list edge) (rs : random_source)
    (st : list edge * nat) (i : Z) :
  well_behaved rs → rewire fuel ape 0 rs st i = Ok (st.1, S st.2).
Proof.
  intros [Hrand _]. unfold rewire. simpl.
  destruct (Qlt_le_dec (random_at rs st.2) 0) as [Hlt|Hle]; [|done].
  exfalso. destruct (Hrand st.2) as [H0 _]. by apply (Qlt_not_le _ _ Hlt).
Qed.

Lemma foldl_count_calls {A : Type} (es : list edge) (k : nat) (l : list A) :
  foldl (λ (s : list edge * nat) (_ : A), (s.1, S s.2)) (es, k) l
  = (es, (k + length l)%nat).
Proof.
  revert k. induction l as [|x l IH]; intros k; simpl.
  - by rewrite Nat.add_0_r.
  - rewrite IH. f_equal. lia.
Qed.

(** [randomize_graph(1)] does return on that input, with the edge drawn. *)
Example randomize_graph_1_returns :
  (g ← Graph_init 3 [(0, 2)];
   r ← randomize_graph 1 g 1 first_draw_only 0;
   mret (edges r.1, r.2))
  = Ok ([(0, 1)], 2%nat).
Proof. vm_compute. reflexivity. Qed.

(** It need not: when every possible edge is already in the sequence, each
    candidate is rejected, whatever the fuel. *)
Lemma redraw_saturated (fuel : nat) (ape : list edge) (rs : random_source)
    (k : nat) (r : edge * nat) :
  redraw fuel ape ape rs k ≠ Ok r.
Proof.
  intros [Hin Hnot]%redraw_Ok. done.
Qed.

(** ** The heap: each loop writes at one location *)

Lemma read_edges_insert_eq (h : gmap loc object) (l : loc) (es : list edge) :
  read_edges (<[l := EdgeList es]> h) l = Ok es.
Proof. unfold read_edges. by rewrite lookup_insert_eq. Qed.

Lemma read_adj_insert_eq (h : gmap loc object) (l : loc) (nbrs : list (list Z)) :
  read_adj (<[l := AdjList nbrs]> h) l = Ok nbrs.
Proof. unfold read_adj. by rewrite lookup_insert_eq. Qed.

Lemma read_edges_insert_ne (h : gmap loc object) (l l' : loc) (o : object) :
  l' ≠ l → read_edges (<[l' := o]> h) l = read_edges h l.
Proof. intros Hne. unfold read_edges. by rewrite lookup_insert_ne. Qed.

Lemma read_edges_Ok (h : gmap loc object) (l : loc) (es : list edge) :
  read_edges h l = Ok es ↔ h !! l = Some (EdgeList es).
Proof.
  unfold read_edges. destruct (h !! l) as [[]|]; split; intros; simplify_eq; done.
Qed.

Lemma read_adj_Ok (h : gmap loc object) (l : loc) (nbrs : list (list Z)) :
  read_adj h l = Ok nbrs ↔ h !! l = Some (AdjList nbrs).
Proof.
  unfold read_adj. destruct (h !! l) as [[]|]; split; intros; simplify_eq; done.
Qed.

Lemma alloc_fresh (o : object) (h : gmap loc object) : h !! (alloc o h).1 = None.
Proof. simpl. apply not_elem_of_dom, is_fresh. Qed.

Lemma add_edge_at_insert (nl : loc) (h : gmap loc object)
    (nb : list (list Z)) (e : edge) :
  add_edge_at nl (<[nl := AdjList nb]> h) e
  = (nb' ← add_edge nb e; mret (<[nl := AdjList nb']> h)).
Proof.
  unfold add_edge_at, append_neighbor_at, add_edge.
  rewrite read_adj_insert_eq. simpl.
  destruct (append_neighbor nb e.1 e.2) as [nb1| |]; simpl; [|done..].
  rewrite read_adj_insert_eq. simpl.
  destruct (append_neighbor nb1 e.2 e.1) as [nb2| |]; simpl; [|done..].
  by rewrite !insert_insert_eq.
Qed.

Lemma for_each_add_edge_at (nl : loc) (h : gmap loc object)
    (es : list edge) (nb : list (list Z)) :
  for_each (add_edge_at nl) es (<[nl := AdjList nb]> h)
  = (nbrs ← for_each add_edge es nb; mret (<[nl := AdjList nbrs]> h)).
Proof.
  revert nb. induction es as [|e es IH]; intros nb; simpl; [done|].
  rewrite add_edge_at_insert.
  destruct (add_edge nb e) as [nb'| |]; simpl; [apply IH|done..].
Qed.

Lemma append_edge_at_insert (al : loc) (h : gmap loc object)
    (acc : list edge) (e : edge) :
  append_edge_at al (<[al := EdgeList acc]> h) e
  = Ok (<[al := EdgeList (acc ++ [e])]> h).
Proof.
  unfold append_edge_at. rewrite read_edges_insert_eq. simpl.
  by rewrite insert_insert_eq.
Qed.

Lemma for_each_append_edge_at (al : loc) (h : gmap loc object) (a : Z)
    (l : list Z) (acc : list edge) :
  for_each (λ h b, append_edge_at al h (b, a)) l (<[al := EdgeList acc]> h)
  = Ok (<[al := EdgeList (foldl (λ acc b, acc ++ [(b, a)]) acc l)]> h).
Proof.
  revert acc. induction l as [|b l IH]; intros acc; simpl; [done|].
  rewrite append_edge_at_insert. simpl. apply IH.
Qed.

Lemma for_each_all_possible_edges_at (al : loc) (h : gmap loc object)
    (l : list Z) (acc : list edge) :
  for_each (λ h a, for_each (λ h b, append_edge_at al h (b, a)) (py_range 0 a) h)
           l (<[al := EdgeList acc]> h)
  = Ok (<[al := EdgeList
            (foldl (λ acc a, foldl (λ acc b, acc ++ [(b, a)]) acc (py_range 0 a))
                   acc l)]> h).
Proof.
  revert acc. induction l as [|a l IH]; intros acc; simpl; [done|].
  rewrite for_each_append_edge_at. simpl. apply IH.
Qed.

(** What the constructor leaves in the heap: the three new objects, at
    locations the heap did not use, and nothing else changed. *)
Lemma Graph_new_Ok (n : Z) (el gl : loc) (h h' : gmap loc object) (es : list edge) :
  h !! el = Some (EdgeList es) →
  Graph_new n el h = Ok (gl, h') →
  ∃ nbrs nl al,
    build_neighbors n es = Ok nbrs
    ∧ h !! nl = None ∧ h !! al = None ∧ h !! gl = None
    ∧ nl ≠ al ∧ nl ≠ gl ∧ al ≠ gl
    ∧ h' = <[gl := GraphObj n el nl al]>
             (<[al := EdgeList (build_all_possible_edges n)]>
                (<[nl := AdjList nbrs]> h)).
Proof.
  intros Hel%read_edges_Ok. unfold Graph_new. rewrite Hel. simpl.
  set (nl := fresh (dom h)).
  rewrite for_each_add_edge_at. fold (build_neighbors n es).
  destruct (build_neighbors n es) as [nbrs| |]; simpl; [|done..].
  set (h1 := <[nl := AdjList nbrs]> h). set (al := fresh (dom h1)).
  rewrite for_each_all_possible_edges_at. simpl.
  change (foldl _ [] (py_range 0 n)) with (build_all_possible_edges n).
  set (h2 := <[al := EdgeList (build_all_possible_edges n)]> h1).
  intros [= <- <-].
  assert (h !! nl = None) as Hnl by apply not_elem_of_dom, is_fresh.
  assert (h1 !! al = None) as Hal by apply not_elem_of_dom, is_fresh.
  assert (h2 !! fresh (dom h2) = None) as Hgl by apply not_elem_of_dom, is_fresh.
  set (gl := fresh (dom h2)) in *.
  unfold h2 in Hgl. apply lookup_insert_None in Hgl as [Hgl Hne2].
  unfold h1 in Hal, Hgl.
  apply lookup_insert_None in Hal as [Hal Hne1], Hgl as [Hgl Hne3].
  exists nbrs, nl, al. done.
Qed.

Lemma rewire_at_insert (fuel : nat) (al ne : loc) (p : Q) (rs : random_source)
    (h : gmap loc object) (ape cur : list edge) (k : nat) (i : Z) :
  h !! al = Some (EdgeList ape) → h !! ne = None →
  rewire_at fuel al ne p rs (<[ne := EdgeList cur]> h, k) i
  = (st ← rewire fuel ape p rs (cur, k) i;
     mret (<[ne := EdgeList st.1]> h, st.2)).
Proof.
  intros Hal Hne. unfold rewire_at, rewire. simpl.
  destruct (Qlt_le_dec (random_at rs k) p); [|done].
  assert (ne ≠ al) as Hneq by congruence.
  rewrite (read_edges_insert_ne h al ne) by done.
  apply read_edges_Ok in Hal. rewrite Hal. simpl.
  rewrite read_edges_insert_eq. simpl.
  destruct (redraw fuel ape cur rs (S k)) as [r| |]; simpl; [|done..].
  destruct (py_setitem cur i r.1) as [cur'| |]; simpl; [|done..].
  by rewrite insert_insert_eq.
Qed.

Lemma for_each_rewire_at (fuel : nat) (al ne : loc) (p : Q) (rs : random_source)
    (h : gmap loc object) (ape : list edge) (l : list Z)
    (cur : list edge) (k : nat) :
  h !! al = Some (EdgeList ape) → h !! ne = None →
  for_each (rewire_at fuel al ne p rs) l (<[ne := EdgeList cur]> h, k)
  = (st ← for_each (rewire fuel ape p rs) l (cur, k);
     mret (<[ne := EdgeList st.1]> h, st.2)).
Proof.
  intros Hal Hne. revert cur k. induction l as [|i l IH]; intros cur k; simpl.
  - done.
  - rewrite (rewire_at_insert _ _ _ _ _ _ ape) by done.
    destruct (rewire fuel ape p rs (cur, k) i) as [[cur' k']| |]; simpl; [|done..].
    apply IH.
Qed.

Lemma graph_at_Ok (h : gmap loc object) (gl : loc) (g : Graph) :
  graph_at h gl = Ok g ↔
  ∃ el nl al, h !! gl = Some (GraphObj (num_vertices g) el nl al)
    ∧ h !! el = Some (EdgeList (edges g))
    ∧ h !! nl = Some (AdjList (neighbors g))
    ∧ h !! al = Some (EdgeList (all_possible_edges g)).
Proof.
  unfold graph_at. split.
  - destruct (h !! gl) as [[| |n el nl al]|]; try done.
    destruct (read_edges h el) as [es| |] eqn:Hes; simpl; [|done..].
    destruct (read_adj h nl) as [nbrs| |] eqn:Hnbrs; simpl; [|done..].
    destruct (read_edges h al) as [ape| |] eqn:Hape; simpl; [|done..].
    intros [= <-]. simpl. exists el, nl, al.
    apply read_edges_Ok in Hes, Hape. apply read_adj_Ok in Hnbrs. done.
  - intros (el & nl & al & -> & Hes & Hnbrs & Hape).
    apply read_edges_Ok in Hes, Hape. apply read_adj_Ok in Hnbrs.
    rewrite Hes, Hnbrs, Hape. simpl. by destruct g.
Qed.

Lemma graph_at_weaken (h h' : gmap loc object) (gl : loc) (g : Graph) :
  h ⊆ h' → graph_at h gl = Ok g → graph_at h' gl = Ok g.
Proof.
  intros Hsub (el & nl & al & ? & ? & ? & ?)%graph_at_Ok.
  apply graph_at_Ok. exists el, nl, al.
  repeat split; by eapply lookup_weaken.
Qed.

(** The run on the heap and the run on values agree, and the heap only
    grows. *)
Lemma randomize_graph_at_Ok (h h' : gmap loc object) (gl gl' : loc) (g : Graph)
    (fuel : nat) (p : Q) (rs : random_source) (k k' : nat) :
  graph_at h gl = Ok g →
  randomize_graph_at fuel gl p rs k h = Ok (gl', k', h') →
  h ⊆ h'
  ∧ h !! gl' = None
  ∧ (∃ el nl al, h' !! gl' = Some (GraphObj (num_vertices g) el nl al)
       ∧ h !! el = None ∧ h !! nl = None ∧ h !! al = None)
  ∧ ∃ g', randomize_graph fuel g p rs k = Ok (g', k') ∧ graph_at h' gl' = Ok g'.
Proof.
  intros (el & nl & al & Hgl & Hel & Hnl & Hal)%graph_at_Ok.
  unfold randomize_graph_at. rewrite Hgl.
  apply read_edges_Ok in Hel as Hread. rewrite Hread. simpl.
  set (ne := fresh (dom h)).
  assert (h !! ne = None) as Hne by apply not_elem_of_dom, is_fresh.
  unfold rewire_from.
  rewrite (for_each_rewire_at _ _ _ _ _ _ (all_possible_edges g)) by done.
  unfold randomize_graph.
  destruct (for_each (rewire fuel (all_possible_edges g) p rs) _ _)
    as [[new_edges k1]| |]; simpl; [|done..].
  set (h1 := <[ne := EdgeList new_edges]> h).
  destruct (Graph_new (num_vertices g) ne h1) as [[gl1 h2]| |] eqn:Hnew;
    simpl; [|done..].
  intros [= <- <- <-].
  apply (Graph_new_Ok _ _ _ _ _ new_edges) in Hnew
    as (nbrs & nl' & al' & Hbuild & Hnl' & Hal' & Hgl' & Hne1 & Hne2 & Hne3 & ->);
    [|apply lookup_insert_eq].
  unfold h1 in Hnl', Hal', Hgl'.
  apply lookup_insert_None in Hnl' as [Hnl' ?], Hal' as [Hal' ?], Hgl' as [Hgl' ?].
  split.
  { do 3 (apply insert_subseteq_r; [done|]). by apply insert_subseteq. }
  split; [done|]. split.
  { exists ne, nl', al'. rewrite lookup_insert_eq. done. }
  unfold Graph_init. rewrite Hbuild. simpl. eexists. split; [done|].
  apply graph_at_Ok. simpl. exists ne, nl', al'.
  split; [apply lookup_insert_eq|]. split.
  { rewrite !lookup_insert_ne by done. apply lookup_insert_eq. }
  split.
  { rewrite lookup_insert_ne, lookup_insert_ne by done. apply lookup_insert_eq. }
  rewrite lookup_insert_ne by done. apply lookup_insert_eq.
Qed.

(** C9. After [g.randomize_graph(p)] every object that was in the heap is
    still there and unchanged, so [g] still denotes the same graph
    ([num_vertices], [edges], [neighbors], [all_possible_edges]); the value
    returned is a graph object at a location that was not in use, whose
    three lists are at locations that were not in use either, with the
    vertex count of [g]. *)
Theorem randomize_graph_leaves_source (h h' : gmap loc object) (gl gl' : loc)
    (g : Graph) (fuel : nat) (p : Q) (rs : random_source) (k k' : nat) :
  graph_at h gl = Ok g →
  randomize_graph_at fuel gl p rs k h = Ok (gl', k', h') →
  h ⊆ h'
  ∧ graph_at h' gl = Ok g
  ∧ h !! gl' = None
  ∧ (∃ el nl al, h' !! gl' = Some (GraphObj (num_vertices g) el nl al)
       ∧ h !! el = None ∧ h !! nl = None ∧ h !! al = None)
  ∧ ∃ g', graph_at h' gl' = Ok g' ∧ num_vertices g' = num_vertices g.
Proof.
  intros Hg Hrun.
  destruct (randomize_graph_at_Ok h h' gl gl' g fuel p rs k k' Hg Hrun)
    as (Hsub & Hfresh & Hobj & g' & Hpure & Hg').
  split; [done|]. split; [by eapply graph_at_weaken|]. split; [done|].
  split; [done|]. exists g'. split; [done|].
  apply graph_at_Ok in Hg' as (el & nl & al & Hgl' & _).
  destruct Hobj as (el' & nl' & al' & Hgl'' & _). congruence.
Qed.

Lemma randomize_graph_leaves_source_witness :
  ∃ g gl' k' h',
    graph_at one_graph_heap 4%positive = Ok g
    ∧ randomize_graph_at 1 4%positive 1 first_draw_only 0 one_graph_heap
      = Ok (gl', k', h')
    ∧ one_graph_heap ⊆ h'
    ∧ graph_at h' 4%positive = Ok g
    ∧ one_graph_heap !! gl' = None
    ∧ (∃ el nl al, h' !! gl' = Some (GraphObj (num_vertices g) el nl al)
         ∧ one_graph_heap !! el = None ∧ one_graph_heap !! nl = None
         ∧ one_graph_heap !! al = None)
    ∧ ∃ g', graph_at h' gl' = Ok g' ∧ num_vertices g' = num_vertices g.
Proof.
  eexists _, _, _, _.
  split; [vm_compute; reflexivity|]. split; [vm_compute; reflexivity|].
  eapply (randomize_graph_leaves_source one_graph_heap _ 4%positive _ _
            1 1 first_draw_only 0 _).
  - vm_compute. reflexivity.
  - vm_compute. reflexivity.
Defined.

(** The copy matters: were [new_edges] the list of the source graph
    itself, the same call would change the edges of the source. *)
Example sharing_would_change_source :
  read_edges one_graph_heap 1%positive = Ok [(0, 2)]
  ∧ (r ← randomize_graph_at 1 4%positive 1 first_draw_only 0 one_graph_heap;
     read_edges r.2 1%positive) = Ok [(0, 2)]
  ∧ (r ← randomize_graph_sharing 1 4%positive 1 first_draw_only 0 one_graph_heap;
     read_edges r.2 1%positive) = Ok [(0, 1)].
Proof. repeat split; vm_compute; reflexivity. Qed.

(** ** When the rejection loop returns *)

(** The candidate that the call number [k] proposes. *)
Lemma draw_edge_well_behaved (ape : list edge) (rs : random_source) (k : nat) :
  well_behaved rs → ape ≠ [] →
  ∃ e, draw_edge ape rs k = Ok (e, S k)
    ∧ ape !! Z.to_nat (randint_at rs k 0 (Z.of_nat (length ape) - 1)) = Some e.
Proof.
  intros [_ Hint] Hape. unfold draw_edge, py_randint.
  assert (0 < length ape)%nat as Hlen by (destruct ape; [done|simpl; lia]).
  rewrite bool_decide_eq_true_2 by lia. simpl.
  specialize (Hint k 0 (Z.of_nat (length ape) - 1) ltac:(lia)).
  destruct (py_getitem_vertex ape (randint_at rs k 0 (Z.of_nat (length ape) - 1)))
    as (e & He & Hget); [lia|].
  rewrite Hget. simpl. by exists e.
Qed.

(** If one of the next [fuel + 1] candidates is absent from [new_edges],
    the loop returns. *)
Lemma redraw_returns (fuel j : nat) (ape new_edges : list edge)
    (rs : random_source) (k : nat) (e : edge) :
  well_behaved rs → ape ≠ [] → (j ≤ fuel)%nat →
  ape !! Z.to_nat (randint_at rs (k + j) 0 (Z.of_nat (length ape) - 1)) = Some e →
  e ∉ new_edges →
  ∃ r, redraw fuel ape new_edges rs k = Ok r.
Proof.
  intros Hrs Hape. revert j k.
  induction fuel as [|fuel IH]; intros j k Hj He Hfresh; simpl;
    destruct (draw_edge_well_behaved ape rs k Hrs Hape) as (e0 & -> & He0);
    simpl; unfold py_in; case_bool_decide as Hin; eauto.
  - exfalso. assert (j = 0%nat) as -> by lia. rewrite Nat.add_0_r in He.
    congruence.
  - destruct j as [|j].
    + exfalso. rewrite Nat.add_0_r in He. congruence.
    + apply (IH j); [lia| |done]. by replace (S k + j)%nat with (k + S j)%nat by lia.
Qed.

Lemma redraw_raises_nothing (fuel : nat) (ape new_edges : list edge)
    (rs : random_source) (k : nat) :
  well_behaved rs → ape ≠ [] →
  (∃ r, redraw fuel ape new_edges rs k = Ok r)
  ∨ redraw fuel ape new_edges rs k = Timeout.
Proof.
  intros Hrs Hape. revert k. induction fuel as [|fuel IH]; intros k; simpl;
    destruct (draw_edge_well_behaved ape rs k Hrs Hape) as (e0 & -> & He0);
    simpl; unfold py_in; case_bool_decide as Hin; eauto.
Qed.

Lemma for_each_raises_nothing {A S : Type} (P : S → Prop)
    (body : S → A → result S) (l : list A) (s : S) :
  P s →
  (∀ s x, x ∈ l → P s → (∃ s', body s x = Ok s' ∧ P s') ∨ body s x = Timeout) →
  (∃ s', for_each body l s = Ok s' ∧ P s') ∨ for_each body l s = Timeout.
Proof.
  revert s. induction l as [|x l IH]; intros s Hs Hbody; simpl; [eauto|].
  destruct (Hbody s x) as [(s' & -> & Hs')| ->]; [by left|done| |by right].
  simpl. apply IH; [done|]. intros s'' y Hy. apply Hbody. by right.
Qed.

(** On a graph with ascending edges between vertices, and a random source
    that honours its ranges, [randomize_graph] raises nothing: it returns,
    or the rejection loop runs out of fuel. *)
Lemma randomize_graph_raises_nothing (n : Z) (es : list edge) (g : Graph)
    (fuel : nat) (p : Q) (rs : random_source) (k : nat) :
  Forall (in_range n) es → Forall ascending es →
  Graph_init n es = Ok g → well_behaved rs →
  (∃ r, randomize_graph fuel g p rs k = Ok r)
  ∨ randomize_graph fuel g p rs k = Timeout.
Proof.
  intros Hrange Hasc Hg Hrs.
  apply Graph_init_fields in Hg as (Hn & Hes & _ & Hape).
  unfold randomize_graph. rewrite Hn, Hes, Hape. clear Hn Hes Hape.
  destruct (for_each_raises_nothing
              (λ s : list edge * nat,
                 length s.1 = length es ∧ Forall (in_range n) s.1)
              (rewire fuel (build_all_possible_edges n) p rs)
              (py_range 0 (Z.of_nat (length es))) (es, k))
    as [([cur k1] & -> & Hlen & Hcur)| ->]; [done| |simpl|by right].
  - intros [cur k0] i Hi%elem_of_py_range [Hlen Hcur]. simpl in *.
    unfold rewire. simpl.
    destruct (Qlt_le_dec (random_at rs k0) p); [|left; eauto].
    assert (build_all_possible_edges n ≠ []) as Hne.
    { destruct es as [|[a b] es']; [simpl in Hi; lia|].
      inversion Hrange as [|? ? [Ha Hb]]; inversion Hasc as [|? ? Hab]; subst.
      unfold vertex, ascending in *. simpl in *.
      intros Hnil. assert ((a, b) ∈ build_all_possible_edges n) as Hin
        by (apply elem_of_all_possible_edges; lia).
      rewrite Hnil in Hin. by apply elem_of_nil in Hin. }
    destruct (redraw_raises_nothing fuel (build_all_possible_edges n) cur rs
                (S k0) Hrs Hne) as [[r Hr]|Hr]; rewrite Hr; simpl; [|by right].
    apply redraw_Ok in Hr as [Hin _].
    unfold py_setitem. rewrite py_index_vertex by lia. simpl. left.
    eexists. split; [done|]. simpl. split; [by rewrite length_insert|].
    apply Forall_insert; [done|]. destruct r as [[b a] k2]. simpl in *.
    apply elem_of_all_possible_edges in Hin. unfold in_range, vertex. simpl. lia.
  - destruct (build_neighbors_in_range n cur Hcur) as (nbrs & Hbuild & _).
    unfold Graph_init. rewrite Hbuild. simpl. eauto.
Qed.

Lemma for_each_returns {A S : Type} (P : S → Prop)
    (body : S → A → result S) (l : list A) (s : S) :
  P s →
  (∀ s x, x ∈ l → P s → ∃ s', body s x = Ok s' ∧ P s') →
  ∃ s', for_each body l s = Ok s' ∧ P s'.
Proof.
  revert s. induction l as [|x l IH]; intros s Hs Hbody; simpl; [eauto|].
  destruct (Hbody s x) as (s' & -> & Hs'); [by left|done|].
  simpl. apply IH; [done|]. intros s'' y Hy. apply Hbody. by right.
Qed.

(** The call returns when the random source is fair to the rejection loop:
    whatever the sequence of as many edges as the graph has, one of any
    [fuel + 1] consecutive candidates is absent from it. *)
Lemma randomize_graph_returns (n : Z) (es : list edge) (g : Graph)
    (fuel : nat) (p : Q) (rs : random_source) (k : nat) :
  Forall (in_range n) es → Forall ascending es →
  Graph_init n es = Ok g → well_behaved rs →
  (∀ k cur, length cur = length es →
     ∃ j e, (j ≤ fuel)%nat
       ∧ all_possible_edges g
           !! Z.to_nat (randint_at rs (k + j) 0
                          (Z.of_nat (length (all_possible_edges g)) - 1)) = Some e
       ∧ e ∉ cur) →
  ∃ r, randomize_graph fuel g p rs k = Ok r.
Proof.
  intros Hrange Hasc Hg Hrs Hfair.
  apply Graph_init_fields in Hg as (Hn & Hes & _ & Hape).
  unfold randomize_graph. rewrite Hn, Hes. clear Hn Hes.
  destruct (for_each_returns
              (λ s : list edge * nat,
                 length s.1 = length es ∧ Forall (in_range n) s.1)
              (rewire fuel (all_possible_edges g) p rs)
              (py_range 0 (Z.of_nat (length es))) (es, k))
    as ([cur k1] & -> & Hlen & Hcur); [done| |simpl].
  - intros [cur k0] i Hi%elem_of_py_range [Hlen Hcur]. simpl in *.
    unfold rewire. simpl.
    destruct (Qlt_le_dec (random_at rs k0) p); [|eauto].
    destruct (Hfair (S k0) cur Hlen) as (j & e & Hj & He & Hfresh).
    assert (all_possible_edges g ≠ []) as Hne
      by (intros Hnil; by rewrite Hnil in He).
    destruct (redraw_returns fuel j (all_possible_edges g) cur rs (S k0) e
                Hrs Hne Hj He Hfresh) as [r Hr].
    rewrite Hr. simpl. apply redraw_Ok in Hr as [Hin _].
    unfold py_setitem. rewrite py_index_vertex by lia. simpl.
    eexists. split; [done|]. simpl. split; [by rewrite length_insert|].
    apply Forall_insert; [done|]. destruct r as [[b a] k2]. simpl in *.
    rewrite Hape in Hin.
    apply elem_of_all_possible_edges in Hin. unfold in_range, vertex. simpl. lia.
  - destruct (build_neighbors_in_range n cur Hcur) as (nbrs & Hbuild & _).
    unfold Graph_init. rewrite Hbuild. simpl. eauto.
Qed.

Lemma round_robin_well_behaved : well_behaved round_robin.
Proof.
  split.
  - intros k. simpl. split; lra.
  - intros k a b Hab. simpl.
    pose proof (Z.mod_pos_bound (Z.of_nat k) (b - a + 1) ltac:(lia)). lia.
Qed.

(** A fair source for the graph of the single edge [(0, 2)] on three
    vertices: any three consecutive candidates are the three possible
    edges, and the sequence holds one edge. *)
Example randomize_graph_returns_round_robin :
  ∃ g, Graph_init 3 [(0, 2)] = Ok g
    ∧ ∀ p k, ∃ r, randomize_graph 2 g p round_robin k = Ok r.
Proof.
  eexists. split; [reflexivity|]. intros p k.
  apply (randomize_graph_returns 3 [(0, 2)]).
  - repeat constructor; simpl; lia.
  - by repeat constructor.
  - reflexivity.
  - apply round_robin_well_behaved.
  - intros k0 [|c [|? ?]] Hlen; simpl in Hlen; try lia.
    change (all_possible_edges _) with [(0, 1); (0, 2); (1, 2)].
    cbn [length randint_at round_robin].
    change (Z.of_nat 3 - 1 - 0 + 1) with 3.
    assert (∃ e0 e1, e0 ≠ e1
              ∧ [(0, 1); (0, 2); (1, 2)]
                  !! Z.to_nat (0 + Z.of_nat (k0 + 0) `mod` 3) = Some e0
              ∧ [(0, 1); (0, 2); (1, 2)]
                  !! Z.to_nat (0 + Z.of_nat (k0 + 1) `mod` 3) = Some e1)
      as (e0 & e1 & Hne & H0 & H1).
    { pose proof (Z.mod_pos_bound (Z.of_nat k0) 3 ltac:(lia)) as Hm.
      rewrite Nat.add_0_r, Nat2Z.inj_add, <- Zplus_mod_idemp_l.
      assert (Z.of_nat k0 `mod` 3 = 0 ∨ Z.of_nat k0 `mod` 3 = 1
              ∨ Z.of_nat k0 `mod` 3 = 2) as [->|[->| ->]] by lia;
        eexists _, _; (split; [|split; reflexivity]); done. }
    destruct (decide (c = e0)) as [->|Hc].
    + exists 1%nat, e1. split; [lia|]. split; [done|].
      intros ->%list_elem_of_singleton. done.
    + exists 0%nat, e0. split; [lia|]. split; [done|].
      intros ->%list_elem_of_singleton. done.
Qed.

(** * Further properties *)

(** ** [shortest_path]: the recorded distances *)

(** X1. On a graph built from edges between vertices, [shortest_path(v)]
    returns a dictionary in which [v] is at 0, every recorded distance is
    the length of a walk from [v], and no walk from [v] to a vertex is
    shorter than the distance recorded for it: the distances are the
    lengths of the shortest walks. *)
Theorem shortest_path_shortest (n : Z) (es : list edge) (g : Graph)
    (v : Z) (fuel : nat) :
  Forall (in_range n) es → Graph_init n es = Ok g → vertex n v →
  (Z.to_nat n ≤ fuel)%nat →
  ∃ m, shortest_path fuel g v = Ok m
    ∧ (∀ u d, m !! u = Some d → ∃ k, d = Z.of_nat k ∧ walk (neighbors g) v u k)
    ∧ (∀ u k, walk (neighbors g) v u k → ∃ d, m !! u = Some d ∧ d ≤ Z.of_nat k).
Proof.
  intros Hes Hg Hv Hfuel.
  destruct (shortest_path_is_distance n es g v fuel Hes Hg Hv Hfuel)
    as (m & Hm & _ & Hsound & Hcomplete).
  by exists m.
Qed.

Lemma shortest_path_shortest_witness :
  ∃ g, Graph_init 4 [(0, 1); (1, 2)] = Ok g ∧
  ∃ m, shortest_path 4 g 0 = Ok m
    ∧ (∀ u d, m !! u = Some d → ∃ k, d = Z.of_nat k ∧ walk (neighbors g) 0 u k)
    ∧ (∀ u k, walk (neighbors g) 0 u k → ∃ d, m !! u = Some d ∧ d ≤ Z.of_nat k).
Proof.
  eexists. split; [reflexivity|].
  apply (shortest_path_shortest 4 [(0, 1); (1, 2)]).
  - repeat constructor; simpl; lia.
  - reflexivity.
  - unfold vertex. lia.
  - simpl. lia.
Defined.

(** In a dictionary of shortest distances, below a vertex at distance [k]
    there are vertices at every smaller distance: [k + 1] keys in all. *)
Lemma distances_fill_levels (nbrs : list (list Z)) (s : Z) (m : gmap Z Z) :
  (∀ u d, m !! u = Some d → ∃ k, d = Z.of_nat k ∧ walk nbrs s u k) →
  (∀ u k, walk nbrs s u k → ∃ d, m !! u = Some d ∧ d ≤ Z.of_nat k) →
  ∀ k u, m !! u = Some (Z.of_nat k) →
    ∃ X : gset Z, X ⊆ dom m ∧ size X = S k
      ∧ ∀ x, x ∈ X → ∃ d, m !! x = Some d ∧ d ≤ Z.of_nat k.
Proof.
  intros Hsound Hcomplete. induction k as [|k IH]; intros u Hu.
  - exists {[u]}. split; [|split].
    + apply singleton_subseteq_l, elem_of_dom. eauto.
    + apply size_singleton.
    + intros x ->%elem_of_singleton. eexists. split; [done|lia].
  - destruct (Hsound u _ Hu) as (k' & Hk' & Hwalk).
    assert (k' = S k) as -> by lia.
    inversion Hwalk as [|w ? ? Hw Hadj]; subst.
    destruct (Hcomplete w k Hw) as (dw & Hdw & Hle).
    destruct (Hsound w dw Hdw) as (kw & -> & Hkw).
    assert (walk nbrs s u (S kw)) as Hshort by (by econstructor).
    destruct (Hcomplete u (S kw) Hshort) as (du & Hdu & Hle').
    assert (kw = k) as -> by (rewrite Hu in Hdu; injection Hdu as <-; lia).
    destruct (IH w Hdw) as (X & Hsub & Hsize & Hlab).
    assert (u ∉ X) as Hnotin.
    { intros (d & Hd & Hd')%Hlab. rewrite Hu in Hd. injection Hd as <-. lia. }
    exists ({[u]} ∪ X). split; [|split].
    + apply union_subseteq. split; [|done].
      apply singleton_subseteq_l, elem_of_dom. eauto.
    + rewrite size_union by set_solver. rewrite size_singleton, Hsize. lia.
    + intros x [->%elem_of_singleton|Hx]%elem_of_union.
      * eexists. split; [done|lia].
      * destruct (Hlab x Hx) as (d & Hd & Hd'). exists d. split; [done|lia].
Qed.

Lemma distances_below_size (nbrs : list (list Z)) (s : Z) (m : gmap Z Z) :
  entries_are_vertices nbrs → 0 ≤ s < Z.of_nat (length nbrs) →
  (∀ u d, m !! u = Some d → ∃ k, d = Z.of_nat k ∧ walk nbrs s u k) →
  (∀ u k, walk nbrs s u k → ∃ d, m !! u = Some d ∧ d ≤ Z.of_nat k) →
  ∀ u d, m !! u = Some d →
    0 ≤ u < Z.of_nat (length nbrs) ∧ 0 ≤ d ≤ Z.of_nat (length nbrs) - 1.
Proof.
  intros Hvs Hs Hsound Hcomplete.
  assert (∀ u d, m !! u = Some d → 0 ≤ u < Z.of_nat (length nbrs)) as Hkeys.
  { intros u d (k & _ & Hwalk)%Hsound. by eapply walk_is_vertex. }
  intros u d Hu. split; [by eapply Hkeys|].
  destruct (Hsound u d Hu) as (k & -> & _).
  destruct (distances_fill_levels _ _ _ Hsound Hcomplete k u Hu)
    as (X & Hsub & Hsize & _).
  apply subseteq_size in Hsub. rewrite size_dom in Hsub.
  pose proof (size_keys_bounded m (length nbrs) Hkeys). lia.
Qed.

(** X2. The keys of the dictionary [shortest_path(v)] returns are vertices
    and its values lie between 0 and [num_vertices - 1]. *)
Theorem shortest_path_bounded (n : Z) (es : list edge) (g : Graph)
    (v : Z) (fuel : nat) :
  Forall (in_range n) es → Graph_init n es = Ok g → vertex n v →
  (Z.to_nat n ≤ fuel)%nat →
  ∃ m, shortest_path fuel g v = Ok m
    ∧ ∀ u d, m !! u = Some d → vertex n u ∧ 0 ≤ d ≤ n - 1.
Proof.
  intros Hes Hg Hv Hfuel.
  destruct (shortest_path_is_distance n es g v fuel Hes Hg Hv Hfuel)
    as (m & Hm & _ & Hsound & Hcomplete).
  destruct (Graph_init_in_range n es g Hes Hg) as (Hlen & Hvs & _).
  assert (0 ≤ v < Z.of_nat (length (neighbors g))) as Hv'
    by (unfold vertex in Hv; lia).
  exists m. split; [done|]. intros u d Hu.
  destruct (distances_below_size _ _ _ Hvs Hv' Hsound Hcomplete u d Hu).
  unfold vertex in *. lia.
Qed.

Lemma shortest_path_bounded_witness :
  ∃ g, Graph_init 4 [(0, 1); (1, 2)] = Ok g ∧
  ∃ m, shortest_path 4 g 0 = Ok m
    ∧ ∀ u d, m !! u = Some d → vertex 4 u ∧ 0 ≤ d ≤ 4 - 1.
Proof.
  eexists. split; [reflexivity|].
  apply (shortest_path_bounded 4 [(0, 1); (1, 2)]).
  - repeat constructor; simpl; lia.
  - reflexivity.
  - unfold vertex. lia.
  - simpl. lia.
Defined.

(** X3. In the dictionary [shortest_path(v)] returns, every neighbour of a
    recorded vertex is recorded, and the distances of two neighbours differ
    by at most one. *)
Theorem shortest_path_neighbours_one_apart (n : Z) (es : list edge) (g : Graph)
    (v : Z) (fuel : nat) :
  Forall (in_range n) es → Graph_init n es = Ok g → vertex n v →
  (Z.to_nat n ≤ fuel)%nat →
  ∃ m, shortest_path fuel g v = Ok m
    ∧ ∀ u w d, m !! u = Some d → adjacent (neighbors g) u w →
        ∃ d', m !! w = Some d' ∧ d - 1 ≤ d' ≤ d + 1.
Proof.
  intros Hes Hg Hv Hfuel.
  destruct (shortest_path_is_distance n es g v fuel Hes Hg Hv Hfuel)
    as (m & Hm & _ & Hsound & Hcomplete).
  destruct (Graph_init_in_range n es g Hes Hg) as (Hlen & Hvs & Hadj).
  assert (0 ≤ v < Z.of_nat (length (neighbors g))) as Hv'
    by (unfold vertex in Hv; lia).
  exists m. split; [done|]. intros u w d Hu Huw.
  destruct (Hsound u d Hu) as (k & -> & Hwalk).
  assert (walk (neighbors g) v w (S k)) as Hw by (by econstructor).
  destruct (Hcomplete w (S k) Hw) as (d' & Hd' & Hle).
  exists d'. split; [done|]. split; [|lia].
  destruct (Hsound w d' Hd') as (k' & -> & Hwalk').
  assert (adjacent (neighbors g) w u) as Hwu.
  { assert (vertex n u) by (apply (walk_is_vertex _ _ Hvs Hv') in Hwalk;
                            unfold vertex; lia).
    assert (vertex n w) by (apply (walk_is_vertex _ _ Hvs Hv') in Hw;
                            unfold vertex; lia).
    apply Hadj; [done|]. apply Hadj in Huw; [|done]. tauto. }
  assert (walk (neighbors g) v u (S k')) as Hu' by (by econstructor).
  destruct (Hcomplete u (S k') Hu') as (d'' & Hd'' & Hle'').
  rewrite Hu in Hd''. injection Hd'' as <-. lia.
Qed.

Lemma shortest_path_neighbours_one_apart_witness :
  ∃ g, Graph_init 4 [(0, 1); (1, 2)] = Ok g ∧
  ∃ m, shortest_path 4 g 0 = Ok m
    ∧ ∀ u w d, m !! u = Some d → adjacent (neighbors g) u w →
        ∃ d', m !! w = Some d' ∧ d - 1 ≤ d' ≤ d + 1.
Proof.
  eexists. split; [reflexivity|].
  apply (shortest_path_neighbours_one_apart 4 [(0, 1); (1, 2)]).
  - repeat constructor; simpl; lia.
  - reflexivity.
  - unfold vertex. lia.
  - simpl. lia.
Defined.

(** ** [Graph.__init__]: what it accepts and what it builds *)

Lemma py_index_invalid (len : nat) (idx : Z) :
  ¬ valid_subscript len idx → py_index len idx = Raise IndexError.
Proof.
  unfold valid_subscript, py_index. intros Hinv.
  rewrite !bool_decide_eq_false_2 by lia. done.
Qed.

Lemma py_index_mod (len : nat) (idx : Z) :
  valid_subscript len idx →
  py_index len idx = Ok (Z.to_nat (idx `mod` Z.of_nat len))
  ∧ (Z.to_nat (idx `mod` Z.of_nat len) < len)%nat.
Proof.
  unfold valid_subscript, py_index. intros Hv.
  assert (0 < Z.of_nat len) as Hlen by lia.
  pose proof (Z.mod_pos_bound idx (Z.of_nat len) Hlen) as Hb.
  split; [|lia].
  case_bool_decide as H1.
  - by rewrite Z.mod_small by lia.
  - rewrite bool_decide_eq_true_2 by lia.
    rewrite <- (Z_mod_plus_full idx 1 (Z.of_nat len)).
    rewrite Z.mod_small by lia. do 2 f_equal. lia.
Qed.

(** One edge: both appends are done, or the first bad endpoint raises. *)
Lemma add_edge_accepted (nbrs : list (list Z)) (a b : Z) :
  valid_subscript (length nbrs) a → valid_subscript (length nbrs) b →
  add_edge nbrs (a, b)
  = Ok (alter (λ l, l ++ [a]) (Z.to_nat (b `mod` Z.of_nat (length nbrs)))
          (alter (λ l, l ++ [b]) (Z.to_nat (a `mod` Z.of_nat (length nbrs))) nbrs)).
Proof.
  intros [Ha _]%py_index_mod [Hb _]%py_index_mod.
  unfold add_edge, append_neighbor. simpl. rewrite Ha. simpl.
  rewrite length_alter, Hb. done.
Qed.

Lemma add_edge_rejected (nbrs : list (list Z)) (e : edge) :
  ¬ (valid_subscript (length nbrs) e.1 ∧ valid_subscript (length nbrs) e.2) →
  add_edge nbrs e = Raise IndexError.
Proof.
  intros Hinv. unfold add_edge, append_neighbor.
  destruct (decide (valid_subscript (length nbrs) e.1)) as [H1|H1].
  - destruct (py_index_mod _ _ H1) as [-> _]. simpl. rewrite length_alter.
    rewrite py_index_invalid by tauto. done.
  - by rewrite py_index_invalid.
Qed.

Lemma for_each_add_edge_outcome (es : list edge) (nbrs : list (list Z)) :
  (Forall (λ e, valid_subscript (length nbrs) e.1
                ∧ valid_subscript (length nbrs) e.2) es →
   ∃ nbrs', for_each add_edge es nbrs = Ok nbrs')
  ∧ (¬ Forall (λ e, valid_subscript (length nbrs) e.1
                    ∧ valid_subscript (length nbrs) e.2) es →
     for_each add_edge es nbrs = Raise IndexError).
Proof.
  revert nbrs. induction es as [|[a b] es IH]; intros nbrs.
  - split; [by eexists|]. intros Hnot. exfalso. apply Hnot. constructor.
  - simpl.
    destruct (decide (valid_subscript (length nbrs) a
                      ∧ valid_subscript (length nbrs) b)) as [[Ha Hb]|Hbad].
    + rewrite add_edge_accepted by done. simpl.
      set (nbrs1 := alter _ _ (alter _ _ nbrs)).
      assert (length nbrs1 = length nbrs) as Hlen
        by (unfold nbrs1; by rewrite !length_alter).
      destruct (IH nbrs1) as [Hok Hraise]. rewrite Hlen in Hok, Hraise. split.
      * intros Hall. apply Hok. by inversion Hall.
      * intros Hnot. apply Hraise. intros Hall. apply Hnot. by constructor.
    + rewrite (add_edge_rejected nbrs (a, b)) by done. simpl. split; [|done].
      intros Hall. inversion Hall; subst. done.
Qed.

(** X4. The constructor checks nothing itself: it returns exactly when
    every endpoint of every edge is an integer of
    [-num_vertices .. num_vertices - 1], negative ones included, and
    raises [IndexError] otherwise. *)
Theorem Graph_init_accepts (n : Z) (es : list edge) :
  (Forall (accepted n) es → ∃ g, Graph_init n es = Ok g)
  ∧ (¬ Forall (accepted n) es → Graph_init n es = Raise IndexError).
Proof.
  unfold Graph_init, build_neighbors.
  destruct (for_each_add_edge_outcome es (replicate (Z.to_nat n) []))
    as [Hok Hraise].
  rewrite length_replicate in Hok, Hraise. split.
  - intros Hall. destruct (Hok Hall) as [nbrs ->]. simpl. eauto.
  - intros Hnot. by rewrite (Hraise Hnot).
Qed.

Lemma Graph_init_accepts_witness :
  (∃ g, Graph_init 3 [(0, -1); (-3, 2)] = Ok g)
  ∧ Graph_init 3 [(0, 1); (1, 3)] = Raise IndexError.
Proof.
  split.
  - apply (proj1 (Graph_init_accepts 3 [(0, -1); (-3, 2)])).
    apply (bool_decide_unpack _). reflexivity.
  - apply (proj2 (Graph_init_accepts 3 [(0, 1); (1, 3)])).
    apply (bool_decide_unpack _). reflexivity.
Defined.

Lemma sum_length_alter_snoc (nbrs : list (list Z)) (i : nat) (x : Z) :
  (i < length nbrs)%nat →
  sum_list (length <$> alter (λ l, l ++ [x]) i nbrs)
  = S (sum_list (length <$> nbrs)).
Proof.
  revert i. induction nbrs as [|l nbrs IH]; intros [|i] Hi;
    [simpl in Hi; lia..| |].
  - change (sum_list (length (l ++ [x]) :: (length <$> nbrs))
            = S (sum_list (length l :: (length <$> nbrs)))).
    rewrite length_app. simpl. lia.
  - change (sum_list (length l :: (length <$> alter (λ l, l ++ [x]) i nbrs))
            = S (sum_list (length l :: (length <$> nbrs)))).
    change (length l + sum_list (length <$> alter (λ l, l ++ [x]) i nbrs)
            = S (length l + sum_list (length <$> nbrs)))%nat.
    rewrite IH by (simpl in Hi; lia). lia.
Qed.

Lemma sum_length_replicate_nil (k : nat) :
  sum_list (length <$> replicate k ([] : list Z)) = 0%nat.
Proof.
  induction k as [|k IH]; [done|].
  change (0 + sum_list (length <$> replicate k ([] : list Z)) = 0)%nat.
  by rewrite IH.
Qed.

Lemma for_each_add_edge_degrees (es : list edge) (nbrs nbrs' : list (list Z)) :
  for_each add_edge es nbrs = Ok nbrs' →
  sum_list (length <$> nbrs')
  = (sum_list (length <$> nbrs) + 2 * length es)%nat.
Proof.
  revert nbrs. induction es as [|[a b] es IH]; intros nbrs; simpl.
  - intros [= <-]. lia.
  - destruct (add_edge nbrs (a, b)) as [nbrs1| |] eqn:Hadd; simpl; [|done..].
    intros Hfor. rewrite (IH nbrs1 Hfor).
    apply add_edge_Ok in Hadd as Hv. destruct Hv as (_ & Ha & Hb & _).
    simpl in Ha, Hb. rewrite add_edge_accepted in Hadd by done.
    injection Hadd as <-.
    destruct (py_index_mod _ _ Ha) as [_ Ha'], (py_index_mod _ _ Hb) as [_ Hb'].
    rewrite !sum_length_alter_snoc by (rewrite ?length_alter; lia). lia.
Qed.

(** X5. After construction the lengths of the lists of [neighbors] add up
    to twice the number of edges: each edge is appended at both of its
    endpoints, a self-loop twice at the same one. *)
Theorem neighbors_degree_sum (n : Z) (es : list edge) (g : Graph) :
  Graph_init n es = Ok g →
  sum_list (length <$> neighbors g) = (2 * length es)%nat.
Proof.
  intros (_ & _ & Hbuild & _)%Graph_init_fields. unfold build_neighbors in Hbuild.
  rewrite (for_each_add_edge_degrees _ _ _ Hbuild).
  rewrite sum_length_replicate_nil. lia.
Qed.

Lemma neighbors_degree_sum_witness :
  ∃ g, Graph_init 3 [(0, 1); (2, 2); (0, -1)] = Ok g
    ∧ sum_list (length <$> neighbors g)
      = (2 * length ([(0, 1); (2, 2); (0, -1)]%Z : list edge))%nat.
Proof.
  eexists. split; [reflexivity|].
  apply (neighbors_degree_sum 3 [(0, 1); (2, 2); (0, -1)]). reflexivity.
Defined.

Lemma for_each_add_edge_members (es : list edge) (nbrs nbrs' : list (list Z)) :
  for_each add_edge es nbrs = Ok nbrs' →
  length nbrs' = length nbrs
  ∧ ∀ (p : nat) u, u ∈ nbrs' !!! p ↔
      u ∈ nbrs !!! p
      ∨ ∃ a b, (a, b) ∈ es
          ∧ ((Z.to_nat (a `mod` Z.of_nat (length nbrs)) = p ∧ u = b)
             ∨ (Z.to_nat (b `mod` Z.of_nat (length nbrs)) = p ∧ u = a)).
Proof.
  revert nbrs. induction es as [|[a b] es IH]; intros nbrs; simpl.
  - intros [= <-]. split; [done|]. intros p u. split; [auto|].
    intros [?|(a & b & Hin & _)]; [done|]. by apply elem_of_nil in Hin.
  - destruct (add_edge nbrs (a, b)) as [nbrs1| |] eqn:Hadd; simpl; [|done..].
    intros Hfor.
    apply add_edge_Ok in Hadd as Hv. destruct Hv as (Hlen1 & Ha & Hb & _).
    simpl in Ha, Hb. rewrite add_edge_accepted in Hadd by done.
    injection Hadd as <-.
    destruct (py_index_mod _ _ Ha) as [_ Ha'], (py_index_mod _ _ Hb) as [_ Hb'].
    destruct (IH _ Hfor) as [Hlen Hmem]. rewrite !length_alter in Hlen, Hmem.
    split; [done|]. intros p u. rewrite Hmem.
    rewrite !elem_of_alter_snoc by (rewrite ?length_alter; lia).
    setoid_rewrite elem_of_cons. split.
    + intros [[[?|[-> ->]]|[-> ->]]|(a' & b' & Hin & Hcase)].
      * by left.
      * right. exists a, b. split; [by left|]. by left.
      * right. exists a, b. split; [by left|]. by right.
      * right. exists a', b'. split; [by right|done].
    + intros [?|(a' & b' & [[= -> ->]|Hin] & Hcase)].
      * left. left. by left.
      * left. destruct Hcase as [[<- ->]|[<- ->]]; [left; by right|by right].
      * right. exists a', b'. done.
Qed.

(** X6. Whatever edges the constructor accepts, [u] is in [neighbors[v]],
    for a vertex [v], exactly when some edge has an endpoint that denotes
    [v] as a subscript (the endpoint modulo [num_vertices]) and has [u],
    as written, for its other endpoint. *)
Theorem neighbors_of_accepted_edges (n : Z) (es : list edge) (g : Graph) :
  Graph_init n es = Ok g →
  ∀ v u, vertex n v →
    adjacent (neighbors g) v u ↔
    ∃ a b, (a, b) ∈ es ∧ ((a `mod` n = v ∧ u = b) ∨ (b `mod` n = v ∧ u = a)).
Proof.
  intros Hg v u Hv. destruct (Graph_init_subscripts n es g Hg) as [Hlen _].
  apply Graph_init_fields in Hg as (_ & _ & Hbuild & _).
  unfold build_neighbors in Hbuild.
  apply for_each_add_edge_members in Hbuild as [_ Hmem].
  rewrite length_replicate in Hmem. unfold vertex in Hv.
  rewrite adjacent_vertex by lia. rewrite Hmem, Z2Nat.id by lia.
  pose proof (not_elem_of_replicate_nil (Z.to_nat n) (Z.to_nat v) u) as Hnil.
  assert (∀ x, Z.to_nat (x `mod` n) = Z.to_nat v ↔ x `mod` n = v) as Hpos.
  { intros x. pose proof (Z.mod_pos_bound x n ltac:(lia)). lia. }
  setoid_rewrite Hpos. tauto.
Qed.

Lemma neighbors_of_accepted_edges_witness :
  ∃ g, Graph_init 3 [(0, -1)] = Ok g
    ∧ ∀ v u, vertex 3 v →
        adjacent (neighbors g) v u ↔
        ∃ a b, (a, b) ∈ [(0, -1)]
          ∧ ((a `mod` 3 = v ∧ u = b) ∨ (b `mod` 3 = v ∧ u = a)).
Proof.
  eexists. split; [reflexivity|].
  apply (neighbors_of_accepted_edges 3 [(0, -1)]). reflexivity.
Defined.

(** With a negative endpoint the index is no longer symmetric: the edge
    [(0, -1)] on three vertices puts 0 in [neighbors[2]] and -1, not 2, in
    [neighbors[0]]. *)
Example negative_endpoint_breaks_symmetry :
  neighbors <$> (match Graph_init 3 [(0, -1)] with Ok g => Some g | _ => None end)
  = Some [[-1]; []; [0]].
Proof. reflexivity. Qed.

(** ** [make_graph]: the ring lattice *)

Lemma length_bind_const {A B : Type} (f : A → list B) (l : list A) (c : nat) :
  (∀ x, x ∈ l → length (f x) = c) → length (l ≫= f) = (length l * c)%nat.
Proof.
  induction l as [|x l IH]; intros Hf; [done|].
  change ((x :: l) ≫= f) with (f x ++ (l ≫= f)).
  rewrite length_app, Hf by constructor. rewrite IH; [simpl; lia|].
  intros y Hy. apply Hf. by constructor.
Qed.

Lemma make_graph_edges_in_range (n separation : Z) :
  separation ≤ n → Forall (in_range n) (make_graph_edges n separation).
Proof.
  intros Hsep. apply list.Forall_forall.
  intros e (i & j & Hi & Hj & ->)%elem_of_make_graph_edges.
  unfold make_graph_emits, in_range, vertex.
  destruct (Z.ltb_spec j 0); simpl; lia.
Qed.

(** X7. When [0 <= separation <= num_vertices], [make_graph] returns a
    graph with [num_vertices * separation] edges, each joining two
    vertices. *)
Theorem make_graph_returns (n separation : Z) :
  0 ≤ separation ≤ n →
  ∃ g, make_graph n separation = Ok g
    ∧ num_vertices g = n
    ∧ Forall (in_range n) (edges g)
    ∧ Z.of_nat (length (edges g)) = n * separation.
Proof.
  intros Hsep. unfold make_graph.
  pose proof (make_graph_edges_in_range n separation ltac:(lia)) as Hrange.
  destruct (build_neighbors_in_range n _ Hrange) as (nbrs & Hbuild & _).
  unfold Graph_init. rewrite Hbuild. simpl. eexists. split; [done|]. simpl.
  split; [done|]. split; [done|].
  rewrite make_graph_edges_bind.
  rewrite (length_bind_const _ _ (Z.to_nat separation)).
  - rewrite length_py_range. nia.
  - intros i _. rewrite length_fmap, length_py_range. f_equal. lia.
Qed.

Lemma make_graph_returns_witness :
  ∃ g, make_graph 6 2 = Ok g
    ∧ num_vertices g = 6
    ∧ Forall (in_range 6) (edges g)
    ∧ Z.of_nat (length (edges g)) = 6 * 2.
Proof. apply (make_graph_returns 6 2). lia. Defined.

Lemma ring_edge (n separation v u : Z) :
  0 ≤ separation ≤ n → vertex n v →
  (v, u) ∈ make_graph_edges n separation ↔
  ∃ d, 1 ≤ d ≤ separation ∧ u = (v - d) `mod` n.
Proof.
  intros Hsep Hv. unfold vertex in Hv. rewrite elem_of_make_graph_edges. split.
  - intros (i & j & Hi & Hj & Heq). unfold make_graph_emits in Heq.
    exists (v - j). destruct (Z.ltb_spec j 0); injection Heq as -> ->.
    + split; [lia|]. replace (i - (i - j)) with j by lia.
      rewrite <- (Z_mod_plus_full j 1 n). rewrite Z.mod_small; lia.
    + split; [lia|]. replace (i - (i - j)) with j by lia.
      rewrite Z.mod_small; lia.
  - intros (d & Hd & ->). exists v, (v - d). split; [lia|]. split; [lia|].
    unfold make_graph_emits. destruct (Z.ltb_spec (v - d) 0); f_equal.
    + rewrite <- (Z_mod_plus_full (v - d) 1 n). rewrite Z.mod_small; lia.
    + rewrite Z.mod_small; lia.
Qed.

(** X8. In the graph [make_graph(num_vertices, separation)], with
    [0 <= separation <= num_vertices], two vertices are neighbours exactly
    when one is [d] places before the other on the ring, for some [d] from
    1 to [separation]. *)
Theorem make_graph_ring (n separation : Z) (g : Graph) :
  0 ≤ separation ≤ n →
  make_graph n separation = Ok g →
  ∀ v u, vertex n v → vertex n u →
    adjacent (neighbors g) v u ↔
    ∃ d, 1 ≤ d ≤ separation ∧ (u = (v - d) `mod` n ∨ v = (u - d) `mod` n).
Proof.
  intros Hsep Hg v u Hv Hu. unfold make_graph in Hg.
  pose proof (make_graph_edges_in_range n separation ltac:(lia)) as Hrange.
  destruct (Graph_init_in_range n _ g Hrange Hg) as (_ & _ & Hadj).
  rewrite Hadj, !ring_edge by done. naive_solver.
Qed.

Lemma make_graph_ring_witness :
  ∃ g, make_graph 6 2 = Ok g
    ∧ ∀ v u, vertex 6 v → vertex 6 u →
        adjacent (neighbors g) v u ↔
        ∃ d, 1 ≤ d ≤ 2 ∧ (u = (v - d) `mod` 6 ∨ v = (u - d) `mod` 6).
Proof.
  eexists. split; [reflexivity|].
  apply (make_graph_ring 6 2); [lia|reflexivity].
Defined.

Lemma make_graph_edges_accepted (n separation : Z) :
  separation ≤ 2 * n → Forall (accepted n) (make_graph_edges n separation).
Proof.
  intros Hsep. apply list.Forall_forall.
  intros e (i & j & Hi & Hj & ->)%elem_of_make_graph_edges.
  unfold make_graph_emits, accepted, valid_subscript.
  destruct (Z.ltb_spec j 0); simpl; lia.
Qed.

(** X9. [make_graph] assumes a small separation and checks none: with at
    least one vertex it returns as long as
    [separation <= 2 * num_vertices] (beyond [num_vertices] the wrapped
    endpoints are negative subscripts), raises [IndexError] above that, and
    returns a graph without edges when [separation <= 0]. *)
Theorem make_graph_separation_bounds (n separation : Z) :
  1 ≤ n →
  (separation ≤ 2 * n → ∃ g, make_graph n separation = Ok g)
  ∧ (2 * n < separation → make_graph n separation = Raise IndexError)
  ∧ (separation ≤ 0 → ∃ g, make_graph n separation = Ok g ∧ edges g = []).
Proof.
  intros Hn. unfold make_graph, Graph_init, build_neighbors.
  destruct (for_each_add_edge_outcome (make_graph_edges n separation)
              (replicate (Z.to_nat n) [])) as [Hok Hraise].
  rewrite length_replicate in Hok, Hraise.
  split; [|split].
  - intros Hsep. destruct Hok as [nbrs ->]; [|simpl; eauto].
    by apply make_graph_edges_accepted.
  - intros Hsep. rewrite Hraise; [done|]. intros Hall.
    rewrite list.Forall_forall in Hall.
    destruct (Hall (0, - separation + n)) as [_ Hbad].
    + apply elem_of_make_graph_edges. exists 0, (- separation).
      split; [lia|]. split; [lia|]. unfold make_graph_emits.
      destruct (Z.ltb_spec (- separation) 0); [done|lia].
    + unfold valid_subscript in Hbad. simpl in Hbad. lia.
  - intros Hsep.
    assert (make_graph_edges n separation = []) as ->.
    { destruct (make_graph_edges n separation) as [|e l] eqn:Heq; [done|].
      assert (e ∈ make_graph_edges n separation) as Hin by (rewrite Heq; left).
      apply elem_of_make_graph_edges in Hin as (i & j & _ & Hj & _). lia. }
    simpl. eauto.
Qed.

Lemma make_graph_separation_bounds_witness :
  (∃ g, make_graph 2 3 = Ok g)
  ∧ make_graph 2 5 = Raise IndexError
  ∧ (∃ g, make_graph 2 0 = Ok g ∧ edges g = []).
Proof.
  split; [|split].
  - apply (proj1 (make_graph_separation_bounds 2 3 ltac:(lia))). lia.
  - apply (proj1 (proj2 (make_graph_separation_bounds 2 5 ltac:(lia)))). lia.
  - apply (proj2 (proj2 (make_graph_separation_bounds 2 0 ltac:(lia)))). lia.
Defined.

(** ** The running mean *)

Section mean.
Context {F : Type} `{PyNumber F}.

Lemma accumulate_recorded (sp : gmap Z Z) (vs : list Z) (st : F * Z) :
  foldl (accumulate sp) st vs
  = foldl (λ st d, (mean_step st.1 st.2 d, st.2 + 1)) st (recorded sp vs).
Proof.
  revert st. induction vs as [|v vs IH]; intros st; [done|].
  unfold recorded. simpl. unfold accumulate at 2.
  destruct (sp !! v) as [d|]; simpl; apply IH.
Qed.
End mean.

Lemma inject_Z_nonneg (c : Z) : 0 ≤ c → (0 <= inject_Z c)%Q.
Proof. intros Hc. change 0%Q with (inject_Z 0). by rewrite <- Zle_Qle. Qed.

(** In exact arithmetic the running mean times the count is the sum. *)
Lemma running_mean (ds : list Z) (avg : Q) (c : Z) :
  0 ≤ c →
  let st := foldl (λ (st : Q * Z) d, (mean_step st.1 st.2 d, st.2 + 1)) (avg, c) ds in
  st.2 = c + Z.of_nat (length ds)
  ∧ (st.1 * inject_Z st.2 == avg * inject_Z c + inject_Z (sum_Z ds))%Q.
Proof.
  revert avg c. induction ds as [|d ds IH]; intros avg c Hc; simpl.
  - split; [lia|]. unfold sum_Z. simpl. change (inject_Z 0) with 0%Q. ring.
  - destruct (IH (mean_step avg c d) (c + 1) ltac:(lia)) as [Hcount Hmean].
    simpl in Hcount, Hmean. split; [lia|]. rewrite Hmean.
    unfold mean_step. simpl.
    change (sum_Z (d :: ds)) with (d + sum_Z ds).
    rewrite !inject_Z_plus. change (inject_Z 1) with 1%Q.
    pose proof (inject_Z_nonneg c Hc). field. lra.
Qed.

(** A mean of values between 0 and [b] stays between 0 and [b]. *)
Lemma mean_step_bounded (avg : Q) (c d b : Z) :
  0 ≤ c → 0 ≤ d ≤ b →
  (0 <= avg)%Q ∧ (avg <= inject_Z b)%Q →
  (0 <= mean_step avg c d)%Q ∧ (mean_step avg c d <= inject_Z b)%Q.
Proof.
  intros Hc Hd [H0 Hb]. unfold mean_step. simpl.
  pose proof (inject_Z_nonneg c Hc) as Hc0.
  pose proof (inject_Z_nonneg d ltac:(lia)) as Hd0.
  assert (inject_Z d <= inject_Z b)%Q as Hdb by (rewrite <- Zle_Qle; lia).
  assert (0 <= avg * inject_Z c)%Q as Hprod by (by apply Qmult_le_0_compat).
  assert (avg * inject_Z c <= inject_Z b * inject_Z c)%Q as Hle
    by (by apply Qmult_le_compat_r).
  rewrite inject_Z_plus. change (inject_Z 1) with 1%Q. split.
  - apply Qle_shift_div_l; lra.
  - apply Qle_shift_div_r; lra.
Qed.

(** ** [shortest_path_len] *)

Lemma shortest_path_distances_from (n : Z) (es : list edge) (g : Graph)
    (v : Z) (fuel : nat) :
  Forall (in_range n) es → Graph_init n es = Ok g → vertex n v →
  (Z.to_nat n ≤ fuel)%nat →
  shortest_path fuel g v = Ok (distances_from fuel g v)
  ∧ ∀ u d, distances_from fuel g v !! u = Some d → 0 ≤ d ≤ n - 1.
Proof.
  intros Hes Hg Hv Hfuel.
  destruct (shortest_path_is_distance n es g v fuel Hes Hg Hv Hfuel)
    as (m & Hm & _ & Hsound & Hcomplete).
  destruct (Graph_init_in_range n es g Hes Hg) as (Hlen & Hvs & _).
  assert (0 ≤ v < Z.of_nat (length (neighbors g))) as Hv'
    by (unfold vertex in Hv; lia).
  unfold distances_from. rewrite Hm. split; [done|]. intros u d Hu.
  destruct (distances_below_size _ _ _ Hvs Hv' Hsound Hcomplete u d Hu).
  unfold vertex in *. lia.
Qed.

(** X10. On a graph built from edges between vertices, [shortest_path_len]
    returns, and in exact arithmetic its value is the arithmetic mean of
    the recorded distances [sp[v2]] over the pairs [v2 < v1]: the value
    times their number is their sum, and it is 0 when no pair is
    connected. *)
Theorem shortest_path_len_mean (n : Z) (es : list edge) (g : Graph) (fuel : nat) :
  Forall (in_range n) es → Graph_init n es = Ok g →
  (Z.to_nat n ≤ fuel)%nat →
  ∃ r : Q, shortest_path_len fuel g = Ok r
    ∧ (pair_distances fuel g = [] → r = 0%Q)
    ∧ (r * inject_Z (Z.of_nat (length (pair_distances fuel g)))
       == inject_Z (sum_Z (pair_distances fuel g)))%Q.
Proof.
  intros Hes Hg Hfuel.
  apply Graph_init_fields in Hg as Hf. destruct Hf as (Hn & _).
  unfold shortest_path_len.
  rewrite (for_each_ok _
             (λ st v1, foldl (accumulate (distances_from fuel g v1)) st
                             (py_range 0 v1))).
  2:{ intros st v1 Hv1%elem_of_py_range. unfold path_len_body.
      destruct (shortest_path_distances_from n es g v1 fuel Hes Hg) as [-> _];
        [unfold vertex; lia|done|done]. }
  simpl. eexists. split; [done|].
  assert (foldl (λ st v1, foldl (accumulate (distances_from fuel g v1)) st
                                (py_range 0 v1))
                (inject_Z 0, 0) (py_range 0 (num_vertices g))
          = foldl (λ (st : Q * Z) d, (mean_step st.1 st.2 d, st.2 + 1))
                  (0%Q, 0) (pair_distances fuel g)) as ->.
  { unfold pair_distances. rewrite foldl_bind. apply foldl_ext_in.
    intros st v1 _. apply accumulate_recorded. }
  split.
  - by intros ->.
  - pose proof (running_mean (pair_distances fuel g) 0 0 ltac:(lia)) as Hrm.
    cbv zeta in Hrm. destruct Hrm as [Hc Hm].
    rewrite Hc, Z.add_0_l in Hm. rewrite Hm.
    change (inject_Z 0) with 0%Q. ring.
Qed.

Lemma shortest_path_len_mean_witness :
  ∃ g, Graph_init 3 [(0, 1); (1, 2)] = Ok g ∧
  ∃ r : Q, shortest_path_len 3 g = Ok r
    ∧ (pair_distances 3 g = [] → r = 0%Q)
    ∧ (r * inject_Z (Z.of_nat (length (pair_distances 3 g)))
       == inject_Z (sum_Z (pair_distances 3 g)))%Q.
Proof.
  eexists. split; [reflexivity|].
  apply (shortest_path_len_mean 3 [(0, 1); (1, 2)]).
  - repeat constructor; simpl; lia.
  - reflexivity.
  - simpl. lia.
Defined.

(** On the path [0 - 1 - 2] the three pairs are at distances 1, 2 and 1. *)
Example pair_distances_path :
  (g ← Graph_init 3 [(0, 1); (1, 2)]; mret (pair_distances 3 g)) = Ok [1; 2; 1].
Proof. vm_compute. reflexivity. Qed.

(** ** [shortest_path_len_random] *)

Section sampled_mean.
Context {F : Type} `{PyNumber F}.

(** X11. On a graph without vertices [shortest_path_len_random] raises
    [ValueError], from [randint(0, -1)], where [shortest_path_len] returns
    its initial 0. *)
Theorem shortest_path_len_random_no_vertex (g : Graph) (fuel : nat)
    (rs : random_source) (k : nat) :
  num_vertices g ≤ 0 →
  shortest_path_len_random fuel g rs k = Raise ValueError
  ∧ shortest_path_len fuel g = Ok (num_of_int 0).
Proof.
  intros Hn. split.
  - assert (∀ st i, path_len_random_body fuel g rs st i = Raise ValueError)
      as Hbody.
    { intros st i. unfold path_len_random_body, py_randint.
      by rewrite bool_decide_eq_false_2 by lia. }
    unfold shortest_path_len_random.
    change (py_range 0 20) with (0 :: py_range 1 20).
    cbn [for_each]. by rewrite Hbody.
  - unfold shortest_path_len, py_range. rewrite seqZ_nil by lia. done.
Qed.
End sampled_mean.

Lemma shortest_path_len_random_no_vertex_witness :
  ∃ g, Graph_init 0 [] = Ok g
    ∧ shortest_path_len_random (F := Q) 1 g lowest_draws 0 = Raise ValueError
    ∧ shortest_path_len (F := Q) 1 g = Ok (num_of_int 0).
Proof.
  eexists. split; [reflexivity|].
  apply shortest_path_len_random_no_vertex. simpl. lia.
Defined.

Lemma foldl_accumulate_bounded (sp : gmap Z Z) (b : Z) (vs : list Z) (st : Q * Z) :
  (∀ u d, sp !! u = Some d → 0 ≤ d ≤ b) →
  (0 <= st.1)%Q ∧ (st.1 <= inject_Z b)%Q ∧ 0 ≤ st.2 →
  let st' := foldl (accumulate sp) st vs in
  (0 <= st'.1)%Q ∧ (st'.1 <= inject_Z b)%Q ∧ 0 ≤ st'.2.
Proof.
  intros Hsp. revert st. induction vs as [|v vs IH]; intros st Hst; [done|].
  simpl. apply IH. unfold accumulate.
  destruct (sp !! v) as [d|] eqn:Hd; [|done]. simpl.
  destruct Hst as (H0 & Hb & Hc).
  destruct (mean_step_bounded st.1 st.2 d b Hc (Hsp v d Hd) (conj H0 Hb)).
  repeat split; [done|done|lia].
Qed.

(** X12. On a graph with at least one vertex, built from edges between
    vertices, and with a random source that honours its ranges,
    [shortest_path_len_random] returns after exactly 20 calls to
    [randint]; in exact arithmetic its value lies between 0 and
    [num_vertices - 1]. *)
Theorem shortest_path_len_random_returns (n : Z) (es : list edge) (g : Graph)
    (fuel : nat) (rs : random_source) (k : nat) :
  Forall (in_range n) es → Graph_init n es = Ok g → 1 ≤ n →
  (Z.to_nat n ≤ fuel)%nat → well_behaved rs →
  ∃ r : Q, shortest_path_len_random fuel g rs k = Ok (r, (k + 20)%nat)
    ∧ (0 <= r)%Q ∧ (r <= inject_Z (n - 1))%Q.
Proof.
  intros Hes Hg Hn Hfuel [_ Hint].
  apply Graph_init_fields in Hg as Hf. destruct Hf as (Hnum & _).
  unfold shortest_path_len_random.
  assert (∀ (st : Q * Z * nat) i,
            (0 <= st.1.1)%Q ∧ (st.1.1 <= inject_Z (n - 1))%Q ∧ 0 ≤ st.1.2 →
            ∃ st', path_len_random_body fuel g rs st i = Ok st'
              ∧ st'.2 = S st.2
              ∧ (0 <= st'.1.1)%Q ∧ (st'.1.1 <= inject_Z (n - 1))%Q ∧ 0 ≤ st'.1.2)
    as Hbody.
  { intros st i Hst. unfold path_len_random_body, py_randint. rewrite Hnum.
    rewrite bool_decide_eq_true_2 by lia. simpl.
    specialize (Hint st.2 0 (n - 1) ltac:(lia)).
    destruct (shortest_path_distances_from n es g (randint_at rs st.2 0 (n - 1))
                fuel Hes Hg) as [-> Hb]; [unfold vertex; lia|done|].
    simpl. eexists. split; [done|]. simpl. split; [done|].
    by apply foldl_accumulate_bounded. }
  destruct (for_each_returns
              (λ st : Q * Z * nat,
                 (0 <= st.1.1)%Q ∧ (st.1.1 <= inject_Z (n - 1))%Q ∧ 0 ≤ st.1.2)
              (path_len_random_body fuel g rs) (py_range 0 20)
              ((num_of_int 0, 0), k))
    as ([[r c] k'] & Hrun & Hr0 & Hrb & _).
  - simpl. split; [done|]. split; [|done]. apply inject_Z_nonneg. lia.
  - intros st i _ Hst. destruct (Hbody st i Hst) as (st' & ? & _ & ?). eauto.
  - pose proof Hrun as Hcalls. change 20 with (Z.of_nat 20) in Hcalls.
    apply (for_each_range_inv
             (λ (i : nat) (st : Q * Z * nat),
                st.2 = (k + i)%nat
                ∧ (0 <= st.1.1)%Q ∧ (st.1.1 <= inject_Z (n - 1))%Q ∧ 0 ≤ st.1.2))
      in Hcalls as [Hk _].
    + rewrite Hrun. simpl in Hk. subst k'. exists r. done.
    + simpl. split; [lia|]. split; [done|]. split; [|done].
      apply inject_Z_nonneg. lia.
    + intros i st st' _ [Hk Hst] Hstep.
      destruct (Hbody st (Z.of_nat i) Hst) as (st'' & Heq & Hk' & Hst').
      rewrite Heq in Hstep. injection Hstep as <-. split; [lia|done].
Qed.

Lemma shortest_path_len_random_returns_witness :
  ∃ g, Graph_init 3 [(0, 1); (1, 2)] = Ok g ∧
  ∃ r : Q, shortest_path_len_random 3 g first_draw_only 0 = Ok (r, (0 + 20)%nat)
    ∧ (0 <= r)%Q ∧ (r <= inject_Z (3 - 1))%Q.
Proof.
  eexists. split; [reflexivity|].
  apply (shortest_path_len_random_returns 3 [(0, 1); (1, 2)]).
  - repeat constructor; simpl; lia.
  - reflexivity.
  - lia.
  - simpl. lia.
  - apply first_draw_only_well_behaved.
Defined.

(** ** [clustering_coefficient] without triangles *)

Lemma neighbors_of_adjacent (nbrs : list (list Z)) (i x : Z) :
  x ∈ neighbors_of nbrs i → adjacent nbrs i x.
Proof.
  unfold neighbors_of, adjacent.
  destruct (py_getitem nbrs i) as [l| |]; [eauto|..];
    intros Hx; by apply elem_of_nil in Hx.
Qed.

Lemma neighbor_at_elem_of (nbrs : list (list Z)) (i pos : Z) :
  0 ≤ pos < Z.of_nat (length (neighbors_of nbrs i)) →
  neighbor_at nbrs i pos ∈ neighbors_of nbrs i.
Proof.
  intros Hpos. unfold neighbor_at.
  destruct (py_getitem_vertex (neighbors_of nbrs i) pos Hpos) as (x & _ & Hget).
  rewrite Hget. by eapply py_getitem_elem_of.
Qed.

Lemma position_pairs_elem_of (g : Graph) (i j k : Z) :
  (i, j, k) ∈ position_pairs g →
  0 ≤ i < num_vertices g
  ∧ 0 ≤ k < j ∧ j < Z.of_nat (length (neighbors_of (neighbors g) i)).
Proof.
  unfold position_pairs.
  intros (i' & Ht & Hi%elem_of_py_range)%list_elem_of_bind.
  apply list_elem_of_bind in Ht as (j' & Ht & Hj%elem_of_py_range).
  apply list_elem_of_bind in Ht as (k' & Ht%list_elem_of_singleton & Hk%elem_of_py_range).
  injection Ht as -> -> ->. lia.
Qed.

Lemma triangle_free_opens (g : Graph) (t : Z * Z * Z) :
  triangle_free (neighbors g) → t ∈ position_pairs g →
  closes_triad (neighbors g) t = false.
Proof.
  intros Hfree Ht. destruct t as [[i j] k].
  apply position_pairs_elem_of in Ht as (Hi & Hk & Hj).
  unfold closes_triad, py_in. apply bool_decide_eq_false_2.
  intros Hin%neighbors_of_adjacent.
  apply (Hfree i (neighbor_at (neighbors g) i k) (neighbor_at (neighbors g) i j));
    [| |done]; apply neighbors_of_adjacent, neighbor_at_elem_of; lia.
Qed.

Lemma clustering_recurrence_triangle_free (g : Graph) :
  triangle_free (neighbors g) → (clustering_recurrence g == 0)%Q.
Proof.
  intros Hfree. unfold clustering_recurrence.
  apply (foldl_invariant (λ avg : Q, (avg == 0)%Q)); [reflexivity|].
  intros avg t Ht Havg. unfold recurrence_step.
  rewrite (triangle_free_opens g t Hfree Ht).
  unfold open_triad. simpl. unfold Qdiv. rewrite Havg. ring.
Qed.

(** X13. On a graph in which no two neighbours of a vertex are neighbours
    of each other, [clustering_coefficient], computed exactly, returns
    0. *)
Theorem clustering_coefficient_triangle_free (n : Z) (es : list edge) (g : Graph) :
  Graph_init n es = Ok g →
  triangle_free (neighbors g) →
  ∃ r : Q, clustering_coefficient g = Ok r ∧ (r == 0)%Q.
Proof.
  intros Hg Hfree. exists (clustering_recurrence g). split.
  - destruct (Graph_init_subscripts n es g Hg) as [Hlen Hsub].
    apply Graph_init_fields in Hg as (Hn & _).
    rewrite clustering_recurrence_nested. unfold clustering_coefficient.
    apply cluster_loop_ok; [done|]. by rewrite Hn.
  - by apply clustering_recurrence_triangle_free.
Qed.

Lemma path_triangle_free : triangle_free [[1]; [0; 2]; [1]].
Proof.
  intros v x y (l1 & H1 & Hx) (l2 & H2 & Hy) (l3 & H3 & Hx').
  rewrite H1 in H2. injection H2 as <-.
  apply py_getitem_elem_of in H1.
  assert (l1 = [1] ∨ l1 = [0; 2]) as [-> | ->] by set_solver.
  - apply list_elem_of_singleton in Hx as ->, Hy as ->.
    vm_compute in H3. injection H3 as <-. set_solver.
  - assert (y = 0 ∨ y = 2) as [-> | ->] by set_solver;
      vm_compute in H3; injection H3 as <-; set_solver.
Qed.

Lemma clustering_coefficient_triangle_free_witness :
  ∃ g, Graph_init 3 [(0, 1); (1, 2)] = Ok g
    ∧ ∃ r : Q, clustering_coefficient g = Ok r ∧ (r == 0)%Q.
Proof.
  eexists. split; [reflexivity|].
  apply (clustering_coefficient_triangle_free 3 [(0, 1); (1, 2)]).
  - reflexivity.
  - simpl. apply path_triangle_free.
Defined.

(** ** [shortest_path]: a source that is no subscript *)

(** X14. [shortest_path(v)] raises [IndexError], at its first reading of
    [self.neighbors[v]], when [v] is outside [-num_vertices ..
    num_vertices - 1]. *)
Theorem shortest_path_rejects_source (n : Z) (es : list edge) (g : Graph)
    (v : Z) (fuel : nat) :
  Graph_init n es = Ok g → ¬ valid_subscript (Z.to_nat n) v → (0 < fuel)%nat →
  shortest_path fuel g v = Raise IndexError.
Proof.
  intros Hg Hv Hfuel.
  destruct (Graph_init_subscripts n es g Hg) as [Hlen _].
  destruct fuel as [|fuel]; [lia|].
  unfold shortest_path. simpl. unfold py_getitem.
  rewrite py_index_invalid by (by rewrite Hlen). done.
Qed.

Lemma shortest_path_rejects_source_witness :
  ∃ g, Graph_init 3 [(0, 1); (1, 2)] = Ok g
    ∧ shortest_path 1 g 3 = Raise IndexError.
Proof.
  eexists. split; [reflexivity|].
  apply (shortest_path_rejects_source 3 [(0, 1); (1, 2)]).
  - reflexivity.
  - unfold valid_subscript. simpl. lia.
  - lia.
Defined.

(** ** [randomize_graph]: the outcomes of a call *)

Lemma py_range_cons (a b : Z) : a < b → py_range a b = a :: py_range (a + 1) b.
Proof.
  intros Hab. unfold py_range. rewrite seqZ_cons by lia.
  f_equal. f_equal; lia.
Qed.

Lemma all_possible_edges_nil (n : Z) : n ≤ 1 → build_all_possible_edges n = [].
Proof.
  intros Hn. destruct (build_all_possible_edges n) as [|[b a] l] eqn:E; [done|].
  assert ((b, a) ∈ build_all_possible_edges n) as Hin by (rewrite E; left).
  apply elem_of_all_possible_edges in Hin. lia.
Qed.

Lemma redraw_no_candidates (fuel : nat) (cur : list edge) (rs : random_source)
    (k : nat) :
  redraw fuel [] cur rs k = Raise ValueError.
Proof. destruct fuel; reflexivity. Qed.

Lemma rewire_no_candidates (fuel : nat) (p : Q) (rs : random_source)
    (st : list edge * nat) (i : Z) :
  (random_at rs st.2 < p)%Q → rewire fuel [] p rs st i = Raise ValueError.
Proof.
  intros Hp. unfold rewire. cbn [fst snd py_random].
  destruct (Qlt_le_dec (random_at rs st.2) p) as [_|Hle]; [|lra].
  by rewrite redraw_no_candidates.
Qed.

(** X15. On a graph with at most one vertex and a non-empty edge list,
    [randomize_graph(p)] raises [ValueError] as soon as [random()] falls
    below [p]: [all_possible_edges] is empty and [randint(0, -1)] has no
    value to return. *)
Theorem randomize_graph_no_candidates (n : Z) (es : list edge) (g : Graph)
    (fuel : nat) (p : Q) (rs : random_source) (k : nat) :
  Graph_init n es = Ok g → n ≤ 1 → es ≠ [] → (random_at rs k < p)%Q →
  randomize_graph fuel g p rs k = Raise ValueError.
Proof.
  intros Hg Hn Hne Hp.
  apply Graph_init_fields in Hg as (_ & Hes & _ & Hape).
  unfold randomize_graph. rewrite Hes, Hape, all_possible_edges_nil by done.
  destruct es as [|e es']; [done|].
  rewrite py_range_cons by (simpl; lia). cbn [for_each].
  by rewrite rewire_no_candidates.
Qed.

Lemma randomize_graph_no_candidates_witness :
  ∃ g, Graph_init 1 [(0, 0)] = Ok g
    ∧ randomize_graph 5 g 1 first_draw_only 0 = Raise ValueError.
Proof.
  eexists. split; [reflexivity|].
  apply (randomize_graph_no_candidates 1 [(0, 0)]).
  - reflexivity.
  - lia.
  - done.
  - reflexivity.
Defined.

Lemma redraw_all_taken (fuel : nat) (ape cur : list edge) (rs : random_source)
    (k : nat) :
  well_behaved rs → ape ≠ [] → (∀ e, e ∈ ape → e ∈ cur) →
  redraw fuel ape cur rs k = Timeout.
Proof.
  intros Hrs Hape Hall. revert k.
  induction fuel as [|fuel IH]; intros k; simpl;
    destruct (draw_edge_well_behaved ape rs k Hrs Hape) as (e0 & -> & He0);
    simpl; unfold py_in;
    (rewrite bool_decide_eq_true_2;
       [auto|apply Hall; by eapply list_elem_of_lookup_2]).
Qed.

(** X16. On a graph of at least two vertices whose edge list holds every
    possible edge, [randomize_graph(p)] does not return once [random()]
    falls below [p]: every candidate is in [new_edges], and the rejection
    loop uses up any number of iterations given to it. *)
Theorem randomize_graph_saturated (n : Z) (es : list edge) (g : Graph)
    (p : Q) (rs : random_source) (k : nat) :
  Graph_init n es = Ok g → 2 ≤ n →
  (∀ e, e ∈ all_possible_edges g → e ∈ es) →
  well_behaved rs → (random_at rs k < p)%Q →
  ∀ fuel, randomize_graph fuel g p rs k = Timeout.
Proof.
  intros Hg Hn Hall Hrs Hp fuel.
  apply Graph_init_fields in Hg as (_ & Hes & _ & Hape).
  rewrite Hape in Hall.
  assert ((0, 1) ∈ build_all_possible_edges n) as H01
    by (apply elem_of_all_possible_edges; lia).
  assert (build_all_possible_edges n ≠ []) as Hne
    by (intros Hnil; rewrite Hnil in H01; by apply elem_of_nil in H01).
  unfold randomize_graph. rewrite Hes, Hape.
  destruct es as [|e es']; [by apply Hall, elem_of_nil in H01|].
  rewrite py_range_cons by (simpl; lia). cbn [for_each].
  assert (rewire fuel (build_all_possible_edges n) p rs (e :: es', k) 0 = Timeout)
    as ->; [|done].
  unfold rewire. cbn [fst snd py_random].
  destruct (Qlt_le_dec (random_at rs k) p) as [_|Hle]; [|lra].
  by rewrite redraw_all_taken.
Qed.

Lemma randomize_graph_saturated_witness :
  ∃ g, Graph_init 3 [(0, 1); (0, 2); (1, 2)] = Ok g
    ∧ ∀ fuel, randomize_graph fuel g 1 first_draw_only 0 = Timeout.
Proof.
  eexists. split; [reflexivity|].
  apply (randomize_graph_saturated 3 [(0, 1); (0, 2); (1, 2)]).
  - reflexivity.
  - lia.
  - intros e He. vm_compute in He. exact He.
  - apply first_draw_only_well_behaved.
  - reflexivity.
Defined.

Lemma draw_edge_calls (ape : list edge) (rs : random_source) (k : nat)
    (r : edge * nat) :
  draw_edge ape rs k = Ok r → r.2 = S k.
Proof.
  unfold draw_edge, py_randint. case_bool_decide; simpl; [|done].
  destruct (py_getitem ape _) as [e| |]; simpl; [|done..]. by intros [= <-].
Qed.

Lemma redraw_calls (fuel : nat) (ape cur : list edge) (rs : random_source)
    (k : nat) (r : edge * nat) :
  redraw fuel ape cur rs k = Ok r → (S k ≤ r.2 ≤ k + fuel + 1)%nat.
Proof.
  revert k. induction fuel as [|fuel IH]; intros k; simpl;
    destruct (draw_edge ape rs k) as [d| |] eqn:Hd; simpl; try done;
    apply draw_edge_calls in Hd; destruct (py_in d.1 cur); try done.
  - intros [= <-]. lia.
  - intros Hr%IH. lia.
  - intros [= <-]. lia.
Qed.

Lemma rewire_calls (fuel : nat) (ape : list edge) (p : Q) (rs : random_source)
    (st st' : list edge * nat) (i : Z) :
  rewire fuel ape p rs st i = Ok st' → (S st.2 ≤ st'.2 ≤ st.2 + fuel + 2)%nat.
Proof.
  unfold rewire. cbn [fst snd py_random].
  destruct (Qlt_le_dec (random_at rs st.2) p).
  - destruct (redraw fuel ape st.1 rs (S st.2)) as [r| |] eqn:Hr; simpl; [|done..].
    apply redraw_calls in Hr.
    destruct (py_setitem st.1 i r.1) as [l| |]; simpl; [|done..].
    intros [= <-]. simpl. lia.
  - intros [= <-]. simpl. lia.
Qed.

(** X17. On a graph with ascending edges between vertices and a random
    source that honours its ranges, [randomize_graph] raises nothing.  When
    it returns, the new graph has the same vertices, as many edges, all of
    them ascending and between vertices, and the same catalogue of possible
    edges, so it can be randomized again; the call has consumed at least
    one random number per edge, and at most [fuel + 2]. *)
Theorem randomize_graph_outcome (n : Z) (es : list edge) (g : Graph)
    (fuel : nat) (p : Q) (rs : random_source) (k : nat) :
  Forall (in_range n) es → Forall ascending es →
  Graph_init n es = Ok g → well_behaved rs →
  randomize_graph fuel g p rs k = Timeout
  ∨ ∃ g' k', randomize_graph fuel g p rs k = Ok (g', k')
      ∧ Graph_init n (edges g') = Ok g'
      ∧ length (edges g') = length es
      ∧ Forall (in_range n) (edges g') ∧ Forall ascending (edges g')
      ∧ (k + length es ≤ k' ≤ k + length es * (fuel + 2))%nat.
Proof.
  intros Hrange Hasc Hg Hrs.
  apply Graph_init_fields in Hg as (Hn & Hes & _ & Hape).
  unfold randomize_graph. rewrite Hn, Hes, Hape. clear Hn Hes Hape.
  destruct (for_each_raises_nothing
              (λ s : list edge * nat,
                 length s.1 = length es ∧ Forall (in_range n) s.1
                 ∧ Forall ascending s.1)
              (rewire fuel (build_all_possible_edges n) p rs)
              (py_range 0 (Z.of_nat (length es))) (es, k))
    as [([cur k1] & Hrun & Hlen & Hcur & Hcasc)| ->]; [done| |simpl|by left].
  - intros [cur k0] i Hi%elem_of_py_range (Hlen & Hcur & Hcasc). simpl in *.
    unfold rewire. simpl.
    destruct (Qlt_le_dec (random_at rs k0) p); [|left; eauto].
    assert (build_all_possible_edges n ≠ []) as Hne.
    { destruct es as [|[a b] es']; [simpl in Hi; lia|].
      inversion Hrange as [|? ? [Ha Hb]]; inversion Hasc as [|? ? Hab]; subst.
      unfold vertex, ascending in *. simpl in *.
      intros Hnil. assert ((a, b) ∈ build_all_possible_edges n) as Hin
        by (apply elem_of_all_possible_edges; lia).
      rewrite Hnil in Hin. by apply elem_of_nil in Hin. }
    destruct (redraw_raises_nothing fuel (build_all_possible_edges n) cur rs
                (S k0) Hrs Hne) as [[r Hr]|Hr]; rewrite Hr; simpl; [|by right].
    apply redraw_Ok in Hr as [Hin _].
    unfold py_setitem. rewrite py_index_vertex by lia. simpl. left.
    eexists. split; [done|]. simpl. split; [by rewrite length_insert|].
    destruct r as [[b a] k2]. simpl in *.
    apply elem_of_all_possible_edges in Hin.
    split; apply Forall_insert; try done;
      unfold in_range, vertex, ascending; simpl; lia.
  - right. rewrite Hrun. simpl in *.
    destruct (build_neighbors_in_range n cur Hcur) as (nbrs & Hbuild & _).
    unfold Graph_init. rewrite Hbuild. simpl.
    eexists _, _. split; [done|]. simpl. rewrite Hbuild. simpl.
    do 4 (split; [done|]).
    apply (for_each_range_inv
             (λ i (s : list edge * nat), (k + i ≤ s.2 ≤ k + i * (fuel + 2))%nat))
      in Hrun; [done|simpl; lia|].
    intros i s s' _ Hs Hstep%rewire_calls. lia.
Qed.

Lemma randomize_graph_outcome_witness :
  ∃ g, Graph_init 3 [(0, 2)] = Ok g
    ∧ (randomize_graph 1 g 1 first_draw_only 0 = Timeout
       ∨ ∃ g' k', randomize_graph 1 g 1 first_draw_only 0 = Ok (g', k')
           ∧ Graph_init 3 (edges g') = Ok g'
           ∧ length (edges g') = length [(0, 2)]
           ∧ Forall (in_range 3) (edges g') ∧ Forall ascending (edges g')
           ∧ (0 + length [(0, 2)] ≤ k' ≤ 0 + length [(0, 2)] * (1 + 2))%nat).
Proof.
  eexists. split; [reflexivity|].
  apply (randomize_graph_outcome 3 [(0, 2)]).
  - repeat constructor; simpl; lia.
  - by repeat constructor.
  - reflexivity.
  - apply first_draw_only_well_behaved.
Defined.

(** Among more distinct candidates than the sequence has items, one is
    absent from the sequence. *)
Lemma absent_candidate {A : Type} `{EqDecision A} (ape cur : list A) :
  NoDup ape → (length cur < length ape)%nat → ∃ e, e ∈ ape ∧ e ∉ cur.
Proof.
  intros Hnd Hlen.
  destruct (decide (Forall (λ e, e ∈ cur) ape)) as [Hall|Hex].
  - exfalso. apply (NoDup_submseteq ape cur) in Hnd.
    + apply submseteq_length in Hnd. lia.
    + by apply list.Forall_forall.
  - apply not_Forall_Exists in Hex; [|apply _].
    apply list.Exists_exists in Hex as (e & He & Hnot). by exists e.
Qed.

(** X18. [randomize_graph] returns, whatever [p], when the graph has
    fewer edges than there are possible edges and the random source is fair
    to the rejection loop (any [fuel + 1] consecutive draws propose every
    possible edge). *)
Theorem randomize_graph_returns_if_covered (n : Z) (es : list edge) (g : Graph)
    (fuel : nat) (p : Q) (rs : random_source) (k : nat) :
  Forall (in_range n) es → Forall ascending es →
  Graph_init n es = Ok g → well_behaved rs →
  Z.of_nat (length es) < n * (n - 1) / 2 →
  covering fuel rs (length (all_possible_edges g)) →
  ∃ r, randomize_graph fuel g p rs k = Ok r.
Proof.
  intros Hrange Hasc Hg Hrs Hfew Hcover.
  pose proof Hg as (Hn & Hes & _ & Hape)%Graph_init_fields.
  destruct es as [|[a b] es'].
  { unfold randomize_graph. rewrite Hn, Hes. simpl. eauto. }
  assert (0 ≤ n) as Hn0
    by (inversion Hrange as [|? ? [Ha _]]; unfold vertex in Ha; simpl in Ha; lia).
  apply (randomize_graph_returns n ((a, b) :: es')); try done.
  intros k0 cur Hlen.
  destruct (absent_candidate (all_possible_edges g) cur) as (e & He & Hfresh).
  { rewrite Hape. apply NoDup_all_possible_edges. }
  { rewrite Hape, Hlen. rewrite <- (length_all_possible_edges n Hn0) in Hfew.
    apply Nat2Z.inj_lt. exact Hfew. }
  apply list_elem_of_lookup_1 in He as [i Hi].
  destruct (Hcover k0 i) as (j & Hj & Hdraw); [by eapply lookup_lt_Some|].
  exists j, e. split; [done|]. split; [|done].
  by rewrite Hdraw, Nat2Z.id.
Qed.

Lemma round_robin_covering (m : nat) :
  (0 < m)%nat → covering (m - 1) round_robin m.
Proof.
  intros Hm k i Hi.
  exists (Z.to_nat ((Z.of_nat i - Z.of_nat k) `mod` Z.of_nat m)).
  pose proof (Z.mod_pos_bound (Z.of_nat i - Z.of_nat k) (Z.of_nat m) ltac:(lia)).
  split; [lia|]. simpl.
  replace (Z.of_nat m - 1 - 0 + 1) with (Z.of_nat m) by lia.
  rewrite Nat2Z.inj_add, Z2Nat.id by lia.
  rewrite Zplus_mod_idemp_r.
  replace (Z.of_nat k + (Z.of_nat i - Z.of_nat k)) with (Z.of_nat i) by lia.
  rewrite Z.mod_small by lia. lia.
Qed.

Lemma randomize_graph_returns_if_covered_witness :
  ∃ g, Graph_init 3 [(0, 2)] = Ok g
    ∧ ∃ r, randomize_graph 2 g 1 round_robin 0 = Ok r.
Proof.
  eexists. split; [reflexivity|].
  apply (randomize_graph_returns_if_covered 3 [(0, 2)]).
  - repeat constructor; simpl; lia.
  - by repeat constructor.
  - reflexivity.
  - apply round_robin_well_behaved.
  - reflexivity.
  - apply (round_robin_covering 3). lia.
Defined.

(** ** The constructor and the caller's list *)

(** X19. [Graph(n, edges)] builds the graph of [__init__] and keeps the
    caller's list itself as [self.edges], not a copy: after a later write
    to that list the graph object shows the new list as its [edges], while
    its [neighbors] and [all_possible_edges] are still those built from
    the old one. *)
Theorem Graph_new_keeps_callers_list (n : Z) (el gl : loc)
    (h h' : gmap loc object) (es es' : list edge) :
  h !! el = Some (EdgeList es) →
  Graph_new n el h = Ok (gl, h') →
  ∃ g, Graph_init n es = Ok g
    ∧ graph_at h' gl = Ok g
    ∧ graph_at (<[el := EdgeList es']> h') gl
      = Ok {| num_vertices := n; edges := es';
              neighbors := neighbors g;
              all_possible_edges := all_possible_edges g |}.
Proof.
  intros Hel Hnew.
  destruct (Graph_new_Ok n el gl h h' es Hel Hnew)
    as (nbrs & nl & al & Hbuild & Hnl & Hal & Hgl & Hna & Hng & Hag & ->).
  assert (el ≠ nl ∧ el ≠ al ∧ el ≠ gl) as (Hen & Hea & Heg)
    by (repeat split; intros <-; congruence).
  exists {| num_vertices := n; edges := es; neighbors := nbrs;
            all_possible_edges := build_all_possible_edges n |}.
  split; [|split].
  - unfold Graph_init. by rewrite Hbuild.
  - apply graph_at_Ok. exists el, nl, al. simpl.
    rewrite lookup_insert_eq.
    rewrite !(lookup_insert_ne _ gl), !(lookup_insert_ne _ al el) by done.
    rewrite (lookup_insert_ne _ nl el), (lookup_insert_ne _ al nl) by done.
    by rewrite !lookup_insert_eq.
  - apply graph_at_Ok. exists el, nl, al. simpl.
    rewrite lookup_insert_eq, !(lookup_insert_ne _ el) by done.
    rewrite lookup_insert_eq.
    rewrite !(lookup_insert_ne _ gl), (lookup_insert_ne _ al nl) by done.
    by rewrite !lookup_insert_eq.
Qed.

Lemma Graph_new_keeps_callers_list_witness :
  ∃ gl h',
    Graph_new 3 1%positive {[1%positive := EdgeList [(0, 2)]]} = Ok (gl, h')
    ∧ ∃ g, Graph_init 3 [(0, 2)] = Ok g
        ∧ graph_at h' gl = Ok g
        ∧ graph_at (<[1%positive := EdgeList [(0, 1)]]> h') gl
          = Ok {| num_vertices := 3; edges := [(0, 1)];
                  neighbors := neighbors g;
                  all_possible_edges := all_possible_edges g |}.
Proof.
  eexists _, _. split; [vm_compute; reflexivity|].
  apply (Graph_new_keeps_callers_list 3 1%positive _
           {[1%positive := EdgeList [(0, 2)]]} _ [(0, 2)] [(0, 1)]).
  - reflexivity.
  - vm_compute. reflexivity.
Defined.

(** ** [make_graph]: degrees and duplicate edges *)

Lemma length_alter_snoc_at (nbrs : list (list Z)) (i p : nat) (x : Z) :
  (i < length nbrs)%nat →
  length (alter (λ l, l ++ [x]) i nbrs !!! p)
  = (length (nbrs !!! p) + if decide (i = p) then 1 else 0)%nat.
Proof.
  intros Hi. destruct (decide (i = p)) as [<-|Hne].
  - destruct (lookup_lt_is_Some_2 nbrs i Hi) as [l Hl].
    rewrite (list_lookup_total_correct _ _ _ Hl).
    erewrite list_lookup_total_correct;
      [|by rewrite list_lookup_alter_eq, Hl].
    rewrite length_app. simpl. lia.
  - rewrite list_lookup_total_alter_ne by done. lia.
Qed.

(** The list of a vertex grows by one for each edge that names the vertex
    as its first endpoint, and by one for each edge that names it as its
    second. *)
Lemma for_each_add_edge_degree_at (es : list edge) (nbrs nbrs' : list (list Z))
    (p : nat) :
  for_each add_edge es nbrs = Ok nbrs' →
  length (nbrs' !!! p)
  = (length (nbrs !!! p)
     + length (filter (λ e : edge,
                         Z.to_nat (e.1 `mod` Z.of_nat (length nbrs)) = p) es)
     + length (filter (λ e : edge,
                         Z.to_nat (e.2 `mod` Z.of_nat (length nbrs)) = p) es))%nat.
Proof.
  revert nbrs. induction es as [|[a b] es IH]; intros nbrs.
  - intros [= <-]. rewrite !list.filter_nil. simpl. lia.
  - cbn [for_each].
    destruct (add_edge nbrs (a, b)) as [nbrs1| |] eqn:Hadd; simpl; [|done..].
    intros Hfor. rewrite (IH nbrs1 Hfor).
    apply add_edge_Ok in Hadd as Hv. destruct Hv as (Hlen1 & Ha & Hb & _).
    simpl in Ha, Hb. rewrite add_edge_accepted in Hadd by done.
    injection Hadd as <-.
    destruct (py_index_mod _ _ Ha) as [_ Ha'], (py_index_mod _ _ Hb) as [_ Hb'].
    rewrite !length_alter, !list.filter_cons.
    rewrite !length_alter_snoc_at by (rewrite ?length_alter; lia).
    cbn [fst snd]. repeat case_decide; simpl; lia.
Qed.

Lemma filter_none {A : Type} (P : A → Prop) `{∀ x, Decision (P x)} (l : list A) :
  (∀ x, x ∈ l → ¬ P x) → filter P l = [].
Proof.
  induction l as [|x l IH]; intros Hl; [done|].
  rewrite list.filter_cons. rewrite decide_False by (apply Hl; left).
  apply IH. intros y Hy. apply Hl. by right.
Qed.

Lemma py_range_split (a i b : Z) :
  a ≤ i < b → py_range a b = py_range a i ++ i :: py_range (i + 1) b.
Proof.
  intros Hi. unfold py_range.
  replace (b - a) with ((i - a) + (b - i)) by lia.
  rewrite seqZ_app by lia. f_equal.
  replace (a + (i - a)) with i by lia.
  rewrite seqZ_cons by lia. f_equal. f_equal; lia.
Qed.

Lemma count_one_in_range (P : Z → Prop) `{∀ x, Decision (P x)} (a b i : Z) :
  a ≤ i < b → P i → (∀ x, a ≤ x < b → P x → x = i) →
  length (filter P (py_range a b)) = 1%nat.
Proof.
  intros Hi HP Huniq. rewrite (py_range_split a i b Hi).
  rewrite list.filter_app, list.filter_cons, decide_True by done.
  rewrite !filter_none; [done|..].
  - intros x Hx%elem_of_py_range HPx. apply Huniq in HPx; lia.
  - intros x Hx%elem_of_py_range HPx. apply Huniq in HPx; lia.
Qed.

Lemma count_bind_cons {A B : Type} (Q : B → Prop) `{∀ y, Decision (Q y)}
    (x : A → B) (b : A → list B) (l : list A) :
  length (filter Q (l ≫= λ i, x i :: b i))
  = (length (filter (λ i, Q (x i)) l) + length (filter Q (l ≫= b)))%nat.
Proof.
  induction l as [|i l IH]; [done|].
  rewrite !bind_cons, !list.filter_app, !list.filter_cons, !length_app, IH.
  case_decide; simpl; lia.
Qed.

Lemma make_graph_emits_fst (n i j : Z) : (make_graph_emits n i j).1 = i.
Proof. unfold make_graph_emits. by destruct (j <? 0). Qed.

Lemma make_graph_emits_snd (n i d : Z) :
  1 ≤ d ≤ n → 0 ≤ i < n →
  (make_graph_emits n i (i - d)).2 = (if i <? d then i - d + n else i - d)
  ∧ 0 ≤ (make_graph_emits n i (i - d)).2 < n.
Proof.
  intros Hd Hi. unfold make_graph_emits.
  destruct (Z.ltb_spec (i - d) 0), (Z.ltb_spec i d); simpl; lia.
Qed.

(** In the edges of [make_graph], a vertex is the first endpoint of
    [separation] edges and the second endpoint of [separation] edges. *)
Lemma make_graph_endpoint_counts (n : Z) (k : nat) (v : Z) :
  Z.of_nat k ≤ n → vertex n v →
  length (filter (λ e : edge, Z.to_nat (e.1 `mod` n) = Z.to_nat v)
            (make_graph_edges n (Z.of_nat k))) = k
  ∧ length (filter (λ e : edge, Z.to_nat (e.2 `mod` n) = Z.to_nat v)
              (make_graph_edges n (Z.of_nat k))) = k.
Proof.
  intros Hk Hv. unfold vertex in Hv. induction k as [|k IH].
  - assert (make_graph_edges n (Z.of_nat 0) = []) as ->; [|done].
    destruct (make_graph_edges n (Z.of_nat 0)) as [|e l] eqn:Heq; [done|].
    assert (e ∈ make_graph_edges n (Z.of_nat 0)) as Hin by (rewrite Heq; left).
    apply elem_of_make_graph_edges in Hin as (i & j & _ & Hj & _). lia.
  - destruct IH as [IH1 IH2]; [lia|].
    assert (make_graph_edges n (Z.of_nat (S k))
            = py_range 0 n ≫= λ i,
                make_graph_emits n i (i - Z.of_nat (S k))
                :: (make_graph_emits n i <$> py_range (i - Z.of_nat k) i)) as ->.
    { rewrite make_graph_edges_bind. apply list_bind_ext; [|done].
      intros i. rewrite py_range_cons by lia. rewrite fmap_cons.
      do 3 f_equal. lia. }
    rewrite !count_bind_cons, <- !make_graph_edges_bind, IH1, IH2.
    split.
    + rewrite (count_one_in_range _ 0 n v); [lia|lia| |].
      * rewrite make_graph_emits_fst, Z.mod_small; lia.
      * intros i Hi. rewrite make_graph_emits_fst, Z.mod_small; lia.
    + set (d := Z.of_nat (S k)) in *.
      assert (1 ≤ d ≤ n) as Hd by (unfold d; lia). clearbody d.
      rewrite (count_one_in_range _ 0 n (if v + d <? n then v + d else v + d - n)).
      * lia.
      * destruct (Z.ltb_spec (v + d) n); lia.
      * destruct (Z.ltb_spec (v + d) n) as [Hlt|Hge].
        -- destruct (make_graph_emits_snd n (v + d) d) as [-> _]; [lia|lia|].
           destruct (Z.ltb_spec (v + d) d); [lia|].
           rewrite Z.mod_small by lia. f_equal. lia.
        -- destruct (make_graph_emits_snd n (v + d - n) d) as [-> _]; [lia|lia|].
           destruct (Z.ltb_spec (v + d - n) d); [|lia].
           rewrite Z.mod_small by lia. f_equal. lia.
      * intros i Hi.
        destruct (make_graph_emits_snd n i d) as [-> _]; [lia|lia|].
        destruct (Z.ltb_spec i d), (Z.ltb_spec (v + d) n);
          rewrite Z.mod_small by lia; lia.
Qed.

(** X20. In the graph [make_graph(num_vertices, separation)], with
    [0 <= separation <= num_vertices], the list [neighbors[v]] of every
    vertex has exactly [2 * separation] entries. *)
Theorem make_graph_regular (n separation : Z) (g : Graph) :
  0 ≤ separation ≤ n →
  make_graph n separation = Ok g →
  ∀ v, vertex n v →
    ∃ l, py_getitem (neighbors g) v = Ok l
      ∧ Z.of_nat (length l) = 2 * separation.
Proof.
  intros Hsep Hg v Hv. unfold make_graph in Hg.
  destruct (Graph_init_subscripts n _ g Hg) as [Hlen _].
  apply Graph_init_fields in Hg as (_ & _ & Hbuild & _).
  unfold vertex in Hv.
  destruct (py_getitem_vertex (neighbors g) v) as (l & Hl & Hget); [lia|].
  exists l. split; [done|].
  apply list_lookup_total_correct in Hl. rewrite <- Hl.
  unfold build_neighbors in Hbuild.
  rewrite (for_each_add_edge_degree_at _ _ _ (Z.to_nat v) Hbuild).
  rewrite length_replicate, Z2Nat.id by lia.
  destruct (make_graph_endpoint_counts n (Z.to_nat separation) v) as [H1 H2];
    [lia|done|].
  rewrite Z2Nat.id in H1, H2 by lia. rewrite H1, H2.
  rewrite list_lookup_total_alt.
  destruct (replicate (Z.to_nat n) [] !! Z.to_nat v) as [l0|] eqn:Hl0; simpl; [|lia].
  apply lookup_replicate in Hl0 as [-> _]. simpl. lia.
Qed.

Lemma make_graph_regular_witness :
  ∃ g, make_graph 6 2 = Ok g
    ∧ ∀ v, vertex 6 v →
        ∃ l, py_getitem (neighbors g) v = Ok l ∧ Z.of_nat (length l) = 2 * 2.
Proof.
  eexists. split; [reflexivity|].
  apply (make_graph_regular 6 2); [lia|reflexivity].
Defined.

Lemma NoDup_make_graph_edges (n separation : Z) :
  separation ≤ n → NoDup (make_graph_edges n separation).
Proof.
  intros Hsep. rewrite make_graph_edges_bind. apply NoDup_bind.
  - intros i1 i2 e _ _ H1 H2.
    apply list_elem_of_fmap in H1 as (j1 & -> & _).
    apply list_elem_of_fmap in H2 as (j2 & Heq & _).
    apply (f_equal fst) in Heq. by rewrite !make_graph_emits_fst in Heq.
  - intros i _. apply NoDup_fmap_2_strong; [|apply NoDup_seqZ].
    intros j1 j2 Hj1%elem_of_py_range Hj2%elem_of_py_range.
    unfold make_graph_emits.
    destruct (Z.ltb_spec j1 0), (Z.ltb_spec j2 0); intros [= Heq]; lia.
  - apply NoDup_seqZ.
Qed.

Lemma NoDup_fmap_inj_on {A B : Type} (f : A → B) (l : list A) (x y : A) :
  NoDup (f <$> l) → x ∈ l → y ∈ l → f x = f y → x = y.
Proof.
  induction l as [|a l IH]; intros Hnd Hx Hy Hxy; [by apply elem_of_nil in Hx|].
  rewrite fmap_cons in Hnd. apply list.NoDup_cons in Hnd as [Ha Hnd].
  apply elem_of_cons in Hx as [->|Hx], Hy as [->|Hy]; [done| | |by apply IH].
  - exfalso. apply Ha. rewrite Hxy. by apply list_elem_of_fmap_2.
  - exfalso. apply Ha. rewrite <- Hxy. by apply list_elem_of_fmap_2.
Qed.

(** X21. [make_graph] assumes [separation << num_vertices]: with at least
    two vertices and [0 <= separation <= num_vertices], the edge list it
    builds is free of duplicate edges (as unordered pairs) exactly when
    [2 * separation < num_vertices]; from [num_vertices / 2] on, some edge
    is listed from both of its ends. *)
Theorem make_graph_edges_distinct (n separation : Z) (g : Graph) :
  2 ≤ n → 0 ≤ separation ≤ n →
  make_graph n separation = Ok g →
  no_duplicate_edges (edges g) ↔ 2 * separation < n.
Proof.
  intros Hn Hsep Hg. unfold make_graph in Hg.
  apply Graph_init_fields in Hg as (_ & -> & _). unfold no_duplicate_edges.
  split.
  - intros Hnd. destruct (decide (2 * separation < n)) as [|Hbig]; [done|].
    exfalso.
    set (d := if separation <? n then separation else 1).
    assert (1 ≤ d ≤ separation ∧ d < n ∧ n - d ≤ separation) as (Hd & Hdn & Hd')
      by (unfold d; destruct (Z.ltb_spec separation n); lia).
    assert ((0, n - d) = (n - d, 0)) as Heq; [|injection Heq; lia].
    apply (NoDup_fmap_inj_on unordered _ _ _ Hnd).
    + apply elem_of_make_graph_edges. exists 0, (- d).
      split; [lia|]. split; [lia|]. unfold make_graph_emits.
      destruct (Z.ltb_spec (- d) 0); [f_equal; lia|lia].
    + apply elem_of_make_graph_edges. exists (n - d), 0.
      split; [lia|]. split; [lia|]. unfold make_graph_emits.
      destruct (Z.ltb_spec 0 0); [lia|done].
    + unfold unordered. simpl. f_equal; lia.
  - intros Hsmall. apply NoDup_fmap_2_strong; [|apply NoDup_make_graph_edges; lia].
    intros e1 e2 (i1 & j1 & Hi1 & Hj1 & ->)%elem_of_make_graph_edges
                 (i2 & j2 & Hi2 & Hj2 & ->)%elem_of_make_graph_edges.
    unfold unordered, make_graph_emits.
    destruct (Z.ltb_spec j1 0), (Z.ltb_spec j2 0); simpl;
      intros [= Hmin Hmax]; f_equal; lia.
Qed.

Lemma make_graph_edges_distinct_witness :
  ∃ g, make_graph 6 2 = Ok g
    ∧ (no_duplicate_edges (edges g) ↔ 2 * 2 < 6).
Proof.
  eexists. split; [reflexivity|].
  apply (make_graph_edges_distinct 6 2); [lia|lia|reflexivity].
Defined.

(** ** [make_graph] and [shortest_path]: the ring is connected *)

Lemma make_graph_adjacent_within (n separation : Z) (g : Graph) :
  0 ≤ separation ≤ n → make_graph n separation = Ok g →
  ∀ a b, vertex n a → vertex n b → 1 ≤ Z.abs (a - b) ≤ separation →
    adjacent (neighbors g) a b.
Proof.
  intros Hsep Hg a b Ha Hb Hab. unfold make_graph in Hg.
  pose proof (make_graph_edges_in_range n separation ltac:(lia)) as Hrange.
  destruct (Graph_init_in_range n _ g Hrange Hg) as (_ & _ & Hadj).
  apply Hadj; [done|]. unfold vertex in *.
  destruct (decide (a < b)).
  - right. apply elem_of_make_graph_edges. exists b, a.
    split; [lia|]. split; [lia|]. unfold make_graph_emits.
    destruct (Z.ltb_spec a 0); [lia|done].
  - left. apply elem_of_make_graph_edges. exists a, b.
    split; [lia|]. split; [lia|]. unfold make_graph_emits.
    destruct (Z.ltb_spec b 0); [lia|done].
Qed.

(** With steps of at most [separation] places, [k] steps cover
    [k * separation] places. *)
Lemma walk_within (nbrs : list (list Z)) (n separation v : Z) :
  1 ≤ separation → vertex n v →
  (∀ a b, vertex n a → vertex n b → 1 ≤ Z.abs (a - b) ≤ separation →
     adjacent nbrs a b) →
  ∀ (k : nat) u, vertex n u → Z.abs (u - v) ≤ Z.of_nat k * separation →
    ∃ k', (k' ≤ k)%nat ∧ walk nbrs v u k'.
Proof.
  intros Hsep Hv Hadj. unfold vertex in *.
  induction k as [|k IH]; intros u Hu Hdist.
  - assert (u = v) as -> by lia. exists 0%nat. split; [done|constructor].
  - rewrite Nat2Z.inj_succ, Z.mul_succ_l in Hdist.
    destruct (decide (Z.abs (u - v) ≤ Z.of_nat k * separation)) as [Hnear|Hfar].
    { destruct (IH u Hu Hnear) as (k' & Hk' & Hwalk). exists k'. split; [lia|done]. }
    set (w := if decide (v ≤ u) then Z.max v (u - separation)
              else Z.min v (u + separation)).
    assert (0 ≤ w < n ∧ Z.abs (w - v) ≤ Z.of_nat k * separation
            ∧ 1 ≤ Z.abs (w - u) ≤ separation) as (Hw & Hwv & Hwu)
      by (unfold w; destruct (decide (v ≤ u)); lia).
    clearbody w.
    destruct (IH w Hw Hwv) as (k' & Hk' & Hwalk).
    exists (S k'). split; [lia|]. econstructor; [done|]. by apply Hadj.
Qed.

(** X22. In the graph [make_graph(num_vertices, separation)], with
    [1 <= separation <= num_vertices], [shortest_path(v)] records every
    vertex: the ring is connected, and the distance recorded for [u] is at
    most [|u - v| / separation], rounded up. *)
Theorem make_graph_connected (n separation : Z) (g : Graph) (v : Z) (fuel : nat) :
  1 ≤ separation ≤ n →
  make_graph n separation = Ok g → vertex n v →
  (Z.to_nat n ≤ fuel)%nat →
  ∃ m, shortest_path fuel g v = Ok m
    ∧ ∀ u, vertex n u →
        ∃ d, m !! u = Some d
          ∧ 0 ≤ d ≤ (Z.abs (u - v) + separation - 1) / separation.
Proof.
  intros Hsep Hg Hv Hfuel.
  pose proof (make_graph_edges_in_range n separation ltac:(lia)) as Hrange.
  destruct (shortest_path_is_distance n _ g v fuel Hrange Hg Hv Hfuel)
    as (m & Hm & _ & Hsound & Hcomplete).
  exists m. split; [done|]. intros u Hu.
  set (q := (Z.abs (u - v) + separation - 1) / separation).
  assert (0 ≤ q ∧ Z.abs (u - v) ≤ q * separation) as [Hq Hcover].
  { pose proof (Z.div_mod (Z.abs (u - v) + separation - 1) separation ltac:(lia)).
    pose proof (Z.mod_pos_bound (Z.abs (u - v) + separation - 1) separation
                  ltac:(lia)).
    fold q in H. split; [apply Z.div_pos; lia|nia]. }
  destruct (walk_within (neighbors g) n separation v ltac:(lia) Hv
              (make_graph_adjacent_within n separation g ltac:(lia) Hg)
              (Z.to_nat q) u Hu) as (k' & Hk' & Hwalk); [by rewrite Z2Nat.id|].
  destruct (Hcomplete u k' Hwalk) as (d & Hd & Hle).
  exists d. split; [done|].
  destruct (Hsound u d Hd) as (k0 & -> & _). lia.
Qed.

Lemma make_graph_connected_witness :
  ∃ g, make_graph 6 2 = Ok g
    ∧ ∃ m, shortest_path 6 g 0 = Ok m
        ∧ ∀ u, vertex 6 u →
            ∃ d, m !! u = Some d ∧ 0 ≤ d ≤ (Z.abs (u - 0) + 2 - 1) / 2.
Proof.
  eexists. split; [reflexivity|].
  apply (make_graph_connected 6 2).
  - lia.
  - reflexivity.
  - unfold vertex. lia.
  - simpl. lia.
Defined.

(** ** [make_graph] and [clustering_coefficient]: the plain ring *)

(** A negative subscript reads the list of the vertex it stands for. *)
Lemma adjacent_normalise (nbrs : list (list Z)) (v x : Z) :
  adjacent nbrs v x →
  0 ≤ v `mod` Z.of_nat (length nbrs) < Z.of_nat (length nbrs)
  ∧ adjacent nbrs (v `mod` Z.of_nat (length nbrs)) x.
Proof.
  intros (l & Hget & Hx). unfold py_getitem in Hget.
  destruct (py_index (length nbrs) v) as [i| |] eqn:Hi; [|done..].
  apply py_index_Ok in Hi as Hvalid. destruct Hvalid as [Hvalid _].
  destruct (py_index_mod _ _ Hvalid) as [Hmod Hlt].
  rewrite Hi in Hmod. injection Hmod as ->.
  assert (0 < Z.of_nat (length nbrs)) as Hpos by lia.
  pose proof (Z.mod_pos_bound v _ Hpos) as Hb. split; [done|].
  exists l. split; [|done]. unfold py_getitem.
  by rewrite py_index_vertex.
Qed.

Lemma pred_mod_vertex (n a b : Z) :
  0 ≤ a < n →
  b = (a - 1) `mod` n ↔ (a = 0 ∧ b = n - 1) ∨ (0 < a ∧ b = a - 1).
Proof.
  intros Ha. destruct (decide (a = 0)) as [->|Hne].
  - replace (0 - 1) with (-1) by lia.
    rewrite <- (Z_mod_plus_full (-1) 1 n), Z.mod_small by lia. lia.
  - rewrite Z.mod_small by lia. lia.
Qed.

Lemma plain_ring_triangle_free (n : Z) (g : Graph) :
  4 ≤ n → make_graph n 1 = Ok g → triangle_free (neighbors g).
Proof.
  intros Hn Hg v x y Hvx Hvy Hyx. unfold make_graph in Hg.
  pose proof (make_graph_edges_in_range n 1 ltac:(lia)) as Hrange.
  destruct (Graph_init_in_range n _ g Hrange Hg) as (Hlen & Hvs & Hadj).
  apply adjacent_normalise in Hvx as [Hv Hvx], Hvy as [_ Hvy].
  rewrite Hlen, Z2Nat.id in Hv, Hvx, Hvy by lia.
  set (w := v `mod` n) in *. clearbody w.
  pose proof (adjacent_is_vertex _ Hvs _ _ Hvx) as Hx.
  pose proof (adjacent_is_vertex _ Hvs _ _ Hvy) as Hy.
  rewrite Hlen, Z2Nat.id in Hx, Hy by lia.
  apply Hadj in Hvx, Hvy, Hyx; [|done..].
  rewrite !ring_edge in Hvx, Hvy, Hyx by (done || lia).
  assert (∀ a b, 0 ≤ a < n →
            (∃ d, 1 ≤ d ≤ 1 ∧ b = (a - d) `mod` n) →
            (a = 0 ∧ b = n - 1) ∨ (0 < a ∧ b = a - 1)) as Hstep.
  { intros a b Ha (d & Hd & Hb). assert (d = 1) as -> by lia.
    by apply pred_mod_vertex. }
  destruct Hvx as [H1%Hstep|H1%Hstep], Hvy as [H2%Hstep|H2%Hstep],
    Hyx as [H3%Hstep|H3%Hstep]; try done; lia.
Qed.

(** X23. On the plain ring [make_graph(num_vertices, 1)] with at least
    four vertices, [clustering_coefficient], computed exactly, returns 0:
    the two neighbours of a vertex are never neighbours of each other. *)
Theorem make_graph_ring_unclustered (n : Z) (g : Graph) :
  4 ≤ n → make_graph n 1 = Ok g →
  ∃ r : Q, clustering_coefficient g = Ok r ∧ (r == 0)%Q.
Proof.
  intros Hn Hg. exists (clustering_recurrence g). split.
  - destruct (Graph_init_subscripts n _ g Hg) as [Hlen Hsub].
    apply Graph_init_fields in Hg as (Hnum & _).
    rewrite clustering_recurrence_nested. unfold clustering_coefficient.
    apply cluster_loop_ok; [done|]. by rewrite Hnum.
  - apply clustering_recurrence_triangle_free.
    by apply (plain_ring_triangle_free n).
Qed.

Lemma make_graph_ring_unclustered_witness :
  ∃ g, make_graph 6 1 = Ok g
    ∧ ∃ r : Q, clustering_coefficient g = Ok r ∧ (r == 0)%Q.
Proof.
  eexists. split; [reflexivity|].
  apply (make_graph_ring_unclustered 6); [lia|reflexivity].
Defined.

(** ** [randomize_graph(0)] and [randomize_graph(1)], whatever is drawn *)

Lemma lowest_draws_well_behaved : well_behaved lowest_draws.
Proof.
  split.
  - intros k. simpl. split; lra.
  - intros k a b Hab. simpl. lia.
Qed.

(** With [randint] always at its lower bound the candidate is always the
    first possible edge: once that edge is in [new_edges], the rejection
    loop rejects for as long as it is run. *)
Lemma redraw_lowest_draws_stuck (fuel : nat) (ape cur : list edge) (e0 : edge)
    (k : nat) :
  ape !! 0%nat = Some e0 → e0 ∈ cur →
  redraw fuel ape cur lowest_draws k = Timeout.
Proof.
  intros Hape Hin.
  assert (ape ≠ []) as Hne by (by destruct ape).
  revert k. induction fuel as [|fuel IH]; intros k; simpl;
    destruct (draw_edge_well_behaved ape lowest_draws k
                lowest_draws_well_behaved Hne) as (e & -> & He);
    change (ape !! 0%nat = Some e) in He; rewrite Hape in He;
    injection He as <-;
    simpl; unfold py_in; rewrite bool_decide_eq_true_2 by done; auto.
Qed.

(** C8 as stated fails for [randomize_graph(1)]: on the graph of the edges
    [(0,2); (1,2)] with [randint] always at its lower bound, the first edge
    is replaced by [(0,1)], and at the second edge every candidate is
    [(0,1)] again, which is rejected: the call returns for no number of
    iterations, although only two of the three possible edges are taken. *)
Lemma randomize_graph_1_need_not_return :
  ∃ g, Graph_init 3 [(0, 2); (1, 2)] = Ok g
    ∧ well_behaved lowest_draws
    ∧ (∀ fuel, randomize_graph fuel g 1 lowest_draws 0 = Timeout)
    ∧ ¬ replaces_every_edge_regardless g.
Proof.
  eexists. split; [reflexivity|]. split; [apply lowest_draws_well_behaved|].
  assert (∀ fuel,
            randomize_graph fuel
              {| num_vertices := 3; edges := [(0, 2); (1, 2)];
                 neighbors := [[2]; [2]; [0; 1]];
                 all_possible_edges := [(0, 1); (0, 2); (1, 2)] |}
              1 lowest_draws 0 = Timeout) as Hstuck.
  { intros fuel. unfold randomize_graph.
    change (py_range 0 _) with [0; 1]. cbn [for_each edges all_possible_edges].
    set (first := rewire _ _ _ _ (_, 0%nat) 0).
    assert (first = Ok ([(0, 1); (1, 2)], 2%nat)) as ->
      by (unfold first; destruct fuel; reflexivity).
    simpl.
    set (second := rewire _ _ _ _ _ 1).
    assert (second = Timeout) as ->; [|done].
    unfold second, rewire. cbn [fst snd py_random lowest_draws random_at].
    destruct (Qlt_le_dec 0 1) as [_|Hle]; [|lra].
    rewrite (redraw_lowest_draws_stuck fuel _ _ (0, 1)); [done|done|left]. }
  split; [exact Hstuck|].
  intros Hclaim.
  destruct (Hclaim lowest_draws 0%nat lowest_draws_well_behaved)
    as (fuel & g' & k' & Hrun & _).
  by rewrite Hstuck in Hrun.
Qed.

(** A loop [for i in range(n)] whose body returns under an invariant that
    depends on [i]. *)
Lemma for_each_range_returns {S : Type} (P : nat → S → Prop)
    (body : S → Z → result S) (n : nat) (s0 : S) :
  P 0%nat s0 →
  (∀ i s, (i < n)%nat → P i s →
     ∃ s', body s (Z.of_nat i) = Ok s' ∧ P (Datatypes.S i) s') →
  ∃ s, for_each body (py_range 0 (Z.of_nat n)) s0 = Ok s ∧ P n s.
Proof.
  intros H0. induction n as [|n IH]; intros Hstep.
  - exists s0. done.
  - destruct IH as (s1 & Hs1 & HP1); [intros i s Hi; apply Hstep; lia|].
    destruct (Hstep n s1) as (s2 & Hs2 & HP2); [lia|done|].
    exists s2. split; [|done].
    replace (Z.of_nat (Datatypes.S n)) with (Z.of_nat n + 1) by lia.
    rewrite py_range_snoc, for_each_app, Hs1 by lia. simpl. by rewrite Hs2.
Qed.

(** C8 (as amended).  For every random source that stays in its ranges:
    [randomize_graph(0)] returns a graph equal to the input, edge sequence
    included, after one call to [random()] per edge; whenever
    [randomize_graph(1)] returns, every position of the new edge sequence
    holds an edge of [all_possible_edges] that was absent from the evolving
    sequence when it was drawn; and [randomize_graph(1)] does return, with
    every edge so replaced, when the graph has fewer edges than there are
    possible edges and the source proposes every possible edge within any
    [fuel + 1] consecutive draws. *)
Theorem randomize_graph_extremes (n : Z) (es : list edge) (g : Graph)
    (fuel : nat) (rs : random_source) (k : nat) :
  Graph_init n es = Ok g →
  well_behaved rs →
  randomize_graph fuel g 0 rs k = Ok (g, (k + length es)%nat)
  ∧ (∀ g' k', randomize_graph fuel g 1 rs k = Ok (g', k') →
       every_edge_replaced g g')
  ∧ ((length es < length (all_possible_edges g))%nat →
     covering fuel rs (length (all_possible_edges g)) →
     ∃ g' k', randomize_graph fuel g 1 rs k = Ok (g', k')
       ∧ every_edge_replaced g g').
Proof.
  intros Hg Hrs.
  assert (∀ g' k', randomize_graph fuel g 1 rs k = Ok (g', k') →
            every_edge_replaced g g') as Hpartial.
  { intros g' k' Hrun.
    destruct (randomize_graph_Ok n es g g' fuel 1 rs k k' Hg Hrun) as [Hloop _].
    apply (rewire_loop_rewired false) in Hloop as (Hlen & _ & Hpos).
    - simpl in *. apply Graph_init_fields in Hg as (_ & Hes & _ & Hape).
      unfold every_edge_replaced. rewrite Hes, Hape. split; [done|].
      intros j e He.
      assert (j < length (edges g'))%nat as Hj by (by eapply lookup_lt_Some).
      destruct (Hpos j e) as [[? _]|?]; [lia|done|done|done].
    - intros _ k0. by destruct Hrs as [Hrand _], (Hrand k0). }
  split; [|split; [exact Hpartial|]].
  - apply Graph_init_fields in Hg as Hf. destruct Hf as (Hn & Hes & _ & Hape).
    unfold randomize_graph. rewrite Hn, Hes.
    rewrite (for_each_ok _ (λ s _, (s.1, S s.2)))
      by (intros s i _; by apply rewire_never).
    rewrite foldl_count_calls, length_py_range. simpl. rewrite Hg. simpl.
    do 2 f_equal. lia.
  - intros Hfew Hcover.
    assert (∃ r, randomize_graph fuel g 1 rs k = Ok r) as [[g' k'] Hrun];
      [|exists g', k'; split; [done|by eapply Hpartial]].
    pose proof Hg as (Hn & Hes & _ & Hape)%Graph_init_fields.
    unfold randomize_graph. rewrite Hn, Hes.
    destruct (for_each_range_returns
                (λ i (s : list edge * nat),
                   rewired_upto false (all_possible_edges g) es i s.1)
                (rewire fuel (all_possible_edges g) 1 rs)
                (length es) (es, k))
      as ([cur k1] & -> & Hlen & _ & Hpos).
    + apply rewired_upto_init.
    + intros i [cur k0] Hi Hinv. simpl in *.
      assert (length cur = length es) as Hlen by apply Hinv.
      unfold rewire. cbn [fst snd py_random].
      destruct (Qlt_le_dec (random_at rs k0) 1) as [_|Hle];
        [|destruct Hrs as [Hrand _], (Hrand k0); lra].
      destruct (absent_candidate (all_possible_edges g) cur)
        as (e & He & Hfresh).
      { rewrite Hape. apply NoDup_all_possible_edges. }
      { lia. }
      apply list_elem_of_lookup_1 in He as [ix Hix].
      destruct (Hcover (S k0) ix) as (j & Hj & Hdraw); [by eapply lookup_lt_Some|].
      assert (all_possible_edges g ≠ []) as Hne
        by (intros Hnil; by rewrite Hnil in Hix).
      destruct (redraw_returns fuel j (all_possible_edges g) cur rs (S k0) e
                  Hrs Hne Hj) as [r Hr]; [by rewrite Hdraw, Nat2Z.id|done|].
      rewrite Hr. simpl. apply redraw_Ok in Hr as [Hin Hnotin].
      unfold py_setitem. rewrite py_index_vertex by lia. simpl.
      rewrite Nat2Z.id. eexists. split; [done|]. simpl.
      by apply rewired_upto_replace.
    + simpl in *.
      assert (Forall (in_range n) cur) as Hrange.
      { apply list.Forall_forall. intros e He.
        apply list_elem_of_lookup_1 in He as [j Hj].
        destruct (Hpos j e) as [[? _]|(Hin & _)];
          [rewrite <- Hlen; by eapply lookup_lt_Some|done|done|].
        rewrite Hape in Hin. destruct e as [b a].
        apply elem_of_all_possible_edges in Hin.
        unfold in_range, vertex. simpl. lia. }
      destruct (build_neighbors_in_range n cur Hrange) as (nbrs & Hbuild & _).
      unfold Graph_init. rewrite Hbuild. simpl. eauto.
Qed.

Lemma randomize_graph_extremes_witness :
  ∃ g, Graph_init 3 [(0, 2)] = Ok g
    ∧ randomize_graph 2 g 0 round_robin 0 = Ok (g, (0 + length [(0, 2)])%nat)
    ∧ (∀ g' k', randomize_graph 2 g 1 round_robin 0 = Ok (g', k') →
         every_edge_replaced g g')
    ∧ ∃ g' k', randomize_graph 2 g 1 round_robin 0 = Ok (g', k')
        ∧ every_edge_replaced g g'.
Proof.
  eexists. split; [reflexivity|].
  destruct (randomize_graph_extremes 3 [(0, 2)] _ 2 round_robin 0 eq_refl
              round_robin_well_behaved) as (Hzero & Hpartial & Htotal).
  split; [exact Hzero|]. split; [exact Hpartial|].
  apply Htotal; [simpl; lia|apply (round_robin_covering 3); lia].
Defined.

(** On that input [round_robin] proposes the three possible edges in
    turn, and the call returns with the edge replaced. *)
Example randomize_graph_1_round_robin :
  (length [(0, 2)] < length (build_all_possible_edges 3))%nat
  ∧ covering 2 round_robin (length (build_all_possible_edges 3))
  ∧ (g ← Graph_init 3 [(0, 2)];
     r ← randomize_graph 2 g 1 round_robin 0;
     mret (edges r.1, r.2)) = Ok ([(1, 2)], 3%nat).
Proof.
  split; [vm_compute; lia|]. split; [apply (round_robin_covering 3); lia|].
  vm_compute. reflexivity.
Qed.


(** ** Binary64: the recurrence of [clustering_coefficient] stays in [0, 1]

    Digits of a mantissa. *)
Lemma digits2_pos_bounds (p : positive) :
  2 ^ (Z.pos (digits2_pos p) - 1) ≤ Z.pos p < 2 ^ Z.pos (digits2_pos p).
Proof.
  induction p as [p IH|p IH|]; simpl digits2_pos.
  - rewrite Pos2Z.inj_succ.
    replace (Z.succ (Z.pos (digits2_pos p)) - 1) with (Z.succ (Z.pos (digits2_pos p) - 1)) by lia.
    rewrite !Z.pow_succ_r by lia. lia.
  - rewrite Pos2Z.inj_succ.
    replace (Z.succ (Z.pos (digits2_pos p)) - 1) with (Z.succ (Z.pos (digits2_pos p) - 1)) by lia.
    rewrite !Z.pow_succ_r by lia. lia.
  - simpl. lia.
Qed.

Lemma Zdigits2_bounds (m : Z) :
  0 < m → 2 ^ (Zdigits2 m - 1) ≤ m < 2 ^ Zdigits2 m ∧ 1 ≤ Zdigits2 m.
Proof.
  destruct m as [|p|p]; try lia. intros _. simpl.
  split; [apply digits2_pos_bounds|lia].
Qed.

Lemma Zdigits2_lower (m j : Z) : 0 ≤ j → 2 ^ j ≤ m → j + 1 ≤ Zdigits2 m.
Proof.
  intros Hj Hm. assert (0 < m) as Hpos by (pose proof (Z.pow_pos_nonneg 2 j); lia).
  destruct (Zdigits2_bounds m Hpos) as [[_ Hup] Hd].
  assert (2 ^ j < 2 ^ Zdigits2 m) as Hlt by lia.
  apply Z.pow_lt_mono_r_iff in Hlt; lia.
Qed.

Lemma Zdigits2_upper (m j : Z) : 0 ≤ j → 0 ≤ m < 2 ^ j → Zdigits2 m ≤ j.
Proof.
  intros Hj Hm. destruct (decide (m = 0)) as [->|Hne]; [simpl; lia|].
  destruct (Zdigits2_bounds m ltac:(lia)) as [[Hlow _] Hd].
  assert (2 ^ (Zdigits2 m - 1) < 2 ^ j) as Hlt by lia.
  apply Z.pow_lt_mono_r_iff in Hlt; lia.
Qed.

(** Shifting a mantissa right. *)

Lemma shifted_1 (x : shr_record) : shifted 1 x (shr_1 x).
Proof.
  destruct x as [m r s]. intros Hm. simpl in Hm.
  destruct m as [|[p|p|]|p]; simpl; try lia.
  - split; [done|]. intros -> ->. done.
  - split.
    + change (Z.pos p = Z.pos p~1 / 2). rewrite Pos2Z.inj_xI.
      apply Z.div_unique with 1; lia.
    + intros _ _ Hmod. exfalso. change (2 ^ 1) with 2 in Hmod.
      rewrite Pos2Z.inj_xI in Hmod.
      replace (2 * Z.pos p + 1) with (1 + Z.pos p * 2) in Hmod by lia.
      rewrite Z_mod_plus_full in Hmod. done.
  - split.
    + change (Z.pos p = Z.pos p~0 / 2). rewrite Pos2Z.inj_xO.
      apply Z.div_unique with 0; lia.
    + intros -> ->. done.
  - split; [done|]. intros _ _ Hmod. done.
Qed.

Lemma shifted_compose (a b : Z) (x y z : shr_record) :
  0 ≤ a → 0 ≤ b → shifted a x y → shifted b y z → shifted (a + b) x z.
Proof.
  intros Ha Hb Hxy Hyz Hm.
  destruct (Hxy Hm) as [Hy Hey].
  assert (0 ≤ shr_m y) as Hmy
    by (rewrite Hy; apply Z.div_pos; [done|apply Z.pow_pos_nonneg; lia]).
  destruct (Hyz Hmy) as [Hz Hez].
  assert (0 < 2 ^ a) by (apply Z.pow_pos_nonneg; lia).
  assert (0 < 2 ^ b) by (apply Z.pow_pos_nonneg; lia).
  split.
  - rewrite Hz, Hy, Z.pow_add_r, Z.div_div by lia. done.
  - intros Hr Hs Hmod. rewrite Z.pow_add_r in Hmod by lia.
    apply Z.mod_divide in Hmod; [|lia]. destruct Hmod as [c Hc].
    apply Hez.
    + apply Hey; [done..|]. apply Z.mod_divide; [lia|]. exists (c * 2 ^ b). lia.
    + apply Hey; [done..|]. apply Z.mod_divide; [lia|]. exists (c * 2 ^ b). lia.
    + rewrite Hy. apply Z.mod_divide; [lia|]. exists c.
      rewrite Hc. replace (c * (2 ^ a * 2 ^ b)) with (c * 2 ^ b * 2 ^ a) by lia.
      by rewrite Z.div_mul by lia.
Qed.

Lemma shifted_iter (p : positive) (x : shr_record) :
  shifted (Z.pos p) x (SpecFloat.iter_pos shr_1 p x).
Proof.
  revert x. induction p as [p IH|p IH|]; intros x; simpl.
  - replace (Z.pos p~1) with (1 + (Z.pos p + Z.pos p)) by lia.
    eapply shifted_compose; [lia|lia|apply shifted_1|].
    eapply shifted_compose; [lia|lia|apply IH|apply IH].
  - replace (Z.pos p~0) with (Z.pos p + Z.pos p) by lia.
    eapply shifted_compose; [lia|lia|apply IH|apply IH].
  - apply shifted_1.
Qed.

Lemma loc_of_shr_record_of_loc (m : Z) (l : location) :
  loc_of_shr_record (shr_record_of_loc m l) = l.
Proof. by destruct l as [|[| |]]. Qed.

Lemma shr_m_of_loc (m : Z) (l : location) : shr_m (shr_record_of_loc m l) = m.
Proof. by destruct l as [|[| |]]. Qed.

Lemma loc_exact_bits (x : shr_record) :
  loc_of_shr_record x = loc_Exact ↔ shr_r x = false ∧ shr_s x = false.
Proof. destruct x as [m [|] [|]]; simpl; naive_solver. Qed.


Lemma fexp_fexp64 (e : Z) : fexp prec emax e = fexp64 e.
Proof. reflexivity. Qed.

(** The outcome of [shr_fexp] on a non-negative mantissa. *)
Lemma shr_fexp_spec (mx ex : Z) (lx : location) :
  0 ≤ mx →
  ∃ mrs e1,
    shr_fexp prec emax mx ex lx = (mrs, e1)
    ∧ 0 ≤ shr_m mrs
    ∧ (fexp64 (Zdigits2 mx + ex) ≤ ex → mrs = shr_record_of_loc mx lx ∧ e1 = ex)
    ∧ (ex < fexp64 (Zdigits2 mx + ex) →
       e1 = fexp64 (Zdigits2 mx + ex)
       ∧ shr_m mrs = mx / 2 ^ (e1 - ex)
       ∧ (lx = loc_Exact → mx `mod` 2 ^ (e1 - ex) = 0 →
          loc_of_shr_record mrs = loc_Exact)).
Proof.
  intros Hmx. unfold shr_fexp, shr. rewrite fexp_fexp64.
  destruct (fexp64 (Zdigits2 mx + ex) - ex) as [|p|p] eqn:Hk.
  - eexists _, _. split; [done|]. rewrite shr_m_of_loc.
    split; [done|]. split; [done|]. lia.
  - pose proof (shifted_iter p (shr_record_of_loc mx lx)) as Hs.
    unfold shifted in Hs. rewrite shr_m_of_loc in Hs.
    destruct (Hs Hmx) as [Hm Hexact].
    eexists _, _. split; [done|].
    assert (0 < 2 ^ Z.pos p) by (apply Z.pow_pos_nonneg; lia).
    split; [rewrite Hm; apply Z.div_pos; lia|].
    split; [lia|]. intros _.
    replace (ex + Z.pos p) with (fexp64 (Zdigits2 mx + ex)) by lia.
    replace (fexp64 (Zdigits2 mx + ex) - ex) with (Z.pos p) by lia.
    split; [done|]. split; [done|].
    intros -> Hmod. apply loc_exact_bits. by apply Hexact.
  - eexists _, _. split; [done|]. rewrite shr_m_of_loc.
    split; [done|]. split; [done|]. lia.
Qed.

Lemma round_nearest_even_bounds (m : Z) (l : location) :
  m ≤ round_nearest_even m l ≤ m + 1
  ∧ (l = loc_Exact → round_nearest_even m l = m).
Proof.
  destruct l as [|[| |]]; simpl; try (split; [lia|done]).
  destruct (Z.even m); split; (lia || done).
Qed.

(** ** Values *)



Arguments scaled : simpl never.

Lemma pow2_pos (e : Z) : (0 < pow2 e)%Q.
Proof. apply Qpower_0_lt. reflexivity. Qed.

Lemma pow2_add (a b : Z) : (pow2 (a + b) == pow2 a * pow2 b)%Q.
Proof. apply Qpower_plus. discriminate. Qed.

Lemma pow2_Z (k : Z) : 0 ≤ k → (pow2 k == inject_Z (2 ^ k))%Q.
Proof. intros Hk. unfold pow2. by rewrite Zpower_Qpower. Qed.

Lemma pow2_lt (a b : Z) : a < b → (pow2 a < pow2 b)%Q.
Proof. intros Hab. apply Qpower_lt_compat_l; [done|reflexivity]. Qed.

Lemma scaled_shift (m e k : Z) :
  0 ≤ k → (scaled m (e + k) == scaled (m * 2 ^ k) e)%Q.
Proof.
  intros Hk. unfold scaled.
  rewrite pow2_add, inject_Z_mult, (pow2_Z k Hk). ring.
Qed.

Lemma scaled_le (a b e : Z) : (scaled a e <= scaled b e)%Q ↔ a ≤ b.
Proof.
  unfold scaled. rewrite Qmult_le_r by apply pow2_pos. by rewrite <- Zle_Qle.
Qed.

Lemma scaled_lt (a b e : Z) : (scaled a e < scaled b e)%Q ↔ a < b.
Proof.
  unfold scaled. rewrite Qmult_lt_r by apply pow2_pos. by rewrite <- Zlt_Qlt.
Qed.

Lemma scaled_nonneg (m e : Z) : 0 ≤ m → (0 <= scaled m e)%Q.
Proof.
  intros Hm. unfold scaled. apply Qmult_le_0_compat.
  - change 0%Q with (inject_Z 0). by rewrite <- Zle_Qle.
  - apply Qlt_le_weak, pow2_pos.
Qed.

Lemma scaled_mult (m1 e1 m2 e2 : Z) :
  (scaled (m1 * m2) (e1 + e2) == scaled m1 e1 * scaled m2 e2)%Q.
Proof. unfold scaled. rewrite pow2_add, inject_Z_mult. ring. Qed.

Lemma scaled_plus (m1 m2 e : Z) :
  (scaled (m1 + m2) e == scaled m1 e + scaled m2 e)%Q.
Proof. unfold scaled. rewrite inject_Z_plus. ring. Qed.



(** Above a canonic [m * 2^e], the next number of the format is
    [(m + 1) * 2^e]. *)
Lemma successor_in_format (m1 e1 mB eB : Z) :
  0 ≤ m1 → canonic m1 e1 → -1074 ≤ e1 → in_format mB eB →
  (scaled m1 e1 < scaled mB eB)%Q →
  (scaled (m1 + 1) e1 <= scaled mB eB)%Q.
Proof.
  intros Hm1 Hcan He1 [HmB HeB] Hlt.
  destruct (decide (e1 ≤ eB)) as [Hle|Hgt].
  - replace eB with (e1 + (eB - e1)) in * by lia.
    rewrite scaled_shift in * by lia.
    apply scaled_le. apply scaled_lt in Hlt. lia.
  - exfalso. destruct Hcan as [->|Hfull]; [lia|].
    replace e1 with (eB + (e1 - eB)) in Hlt by lia.
    rewrite scaled_shift in Hlt by lia. apply scaled_lt in Hlt.
    assert (2 ^ 1 ≤ 2 ^ (e1 - eB)) as Hpow by (apply Z.pow_le_mono_r; lia).
    change (2 ^ 1) with 2 in Hpow.
    assert (2 ^ 52 * 2 ≤ m1 * 2 ^ (e1 - eB)) by (apply Z.mul_le_mono_nonneg; lia).
    change (2 ^ 52 * 2) with (2 ^ 53) in *. lia.
Qed.

Lemma canonic_of_fexp (m e : Z) :
  0 ≤ m → fexp64 (Zdigits2 m + e) = e → canonic m e ∧ -1074 ≤ e.
Proof.
  intros Hm Hf. unfold fexp64 in Hf. unfold canonic.
  destruct (decide (e = -1074)) as [->|Hne]; [split; [by left|lia]|].
  split; [|lia]. right.
  assert (Zdigits2 m = 53) as Hd by lia.
  destruct (decide (m = 0)) as [->|Hm0]; [simpl in Hd; lia|].
  destruct (Zdigits2_bounds m ltac:(lia)) as [[Hlow _] _].
  rewrite Hd in Hlow. exact Hlow.
Qed.

Lemma canonic_after_shift (mx ex : Z) :
  0 ≤ mx → ex < fexp64 (Zdigits2 mx + ex) →
  canonic (mx / 2 ^ (fexp64 (Zdigits2 mx + ex) - ex)) (fexp64 (Zdigits2 mx + ex))
  ∧ -1074 ≤ fexp64 (Zdigits2 mx + ex).
Proof.
  intros Hmx Hk. split; [|unfold fexp64; lia]. unfold canonic.
  destruct (decide (fexp64 (Zdigits2 mx + ex) = -1074)) as [|Hne]; [by left|].
  right. unfold fexp64 in *.
  set (d := Zdigits2 mx) in *.
  assert (Z.max (d + ex - 53) (-1074) = d + ex - 53) as Heq by lia.
  rewrite Heq in *. replace (d + ex - 53 - ex) with (d - 53) by lia.
  assert (0 < mx) as Hpos.
  { destruct (decide (mx = 0)) as [->|]; [unfold d in *; simpl in *; lia|lia]. }
  destruct (Zdigits2_bounds mx Hpos) as [[Hlow _] _]. fold d in Hlow.
  apply Z.div_le_lower_bound; [apply Z.pow_pos_nonneg; lia|].
  rewrite <- Z.pow_add_r by lia. replace (d - 53 + 52) with (d - 1) by lia. done.
Qed.


(** ** An upper bound through rounding

    Rounding to nearest never passes a number of the format that the exact
    value does not pass. *)
Lemma round_aux_upper (mx ex : Z) (lx : location) (mB eB : Z) :
  0 ≤ mx → in_format mB eB → (scaled mB eB <= pow2 971)%Q →
  (lx = loc_Exact ∨ ex ≤ fexp64 (Zdigits2 mx + ex)) →
  (lx = loc_Exact → (scaled mx ex <= scaled mB eB)%Q) →
  (lx ≠ loc_Exact → (scaled mx ex < scaled mB eB)%Q) →
  binary_round_aux prec emax false mx ex lx = S754_zero false
  ∨ ∃ m e, binary_round_aux prec emax false mx ex lx = S754_finite false m e
      ∧ (scaled (Z.pos m) e <= scaled mB eB)%Q.
Proof.
  intros Hmx HB Hbig Hshape Hexact Hinexact. unfold binary_round_aux.
  destruct (shr_fexp_spec mx ex lx Hmx) as (mrs1 & e1 & -> & Hm1 & Hstay & Hshift).
  set (m2 := round_nearest_even (shr_m mrs1) (loc_of_shr_record mrs1)).
  pose proof (round_nearest_even_bounds (shr_m mrs1) (loc_of_shr_record mrs1))
    as [Hm2 Hm2exact]. fold m2 in Hm2, Hm2exact.
  assert (scaled mx ex <= scaled mB eB)%Q as Hle.
  { destruct (decide (lx = loc_Exact)); [auto|apply Qlt_le_weak; auto]. }
  assert (scaled m2 e1 <= scaled mB eB)%Q as Hbound.
  { destruct (decide (ex < fexp64 (Zdigits2 mx + ex))) as [Hk|Hk].
    - destruct (Hshift Hk) as (He1 & Hdiv & Hloc).
      destruct (canonic_after_shift mx ex Hmx Hk) as [Hcan Hemin].
      rewrite <- He1 in Hcan, Hemin. rewrite <- Hdiv in Hcan.
      assert (0 < 2 ^ (e1 - ex)) as Hpow by (apply Z.pow_pos_nonneg; lia).
      assert (scaled (shr_m mrs1) e1 == scaled (shr_m mrs1 * 2 ^ (e1 - ex)) ex)%Q
        as Hval.
      { replace e1 with (ex + (e1 - ex)) at 1 by lia. apply scaled_shift. lia. }
      pose proof (Z.mul_div_le mx (2 ^ (e1 - ex)) Hpow) as Hfloor.
      rewrite <- Hdiv in Hfloor.
      destruct (decide (loc_of_shr_record mrs1 = loc_Exact)) as [Hl1|Hl1].
      + rewrite (Hm2exact Hl1), Hval.
        eapply Qle_trans; [|exact Hle]. apply scaled_le. lia.
      + eapply Qle_trans; [apply scaled_le, (proj2 Hm2)|].
        apply successor_in_format; [done..|].
        rewrite Hval.
        destruct (decide (lx = loc_Exact)) as [Hlx|Hlx].
        * eapply Qlt_le_trans; [|exact Hle]. apply scaled_lt.
          destruct (decide (mx `mod` 2 ^ (e1 - ex) = 0)) as [Hmod|Hmod];
            [by destruct Hl1; apply Hloc|].
          pose proof (Z.div_mod mx (2 ^ (e1 - ex)) ltac:(lia)) as Hdm.
          pose proof (Z.mod_pos_bound mx (2 ^ (e1 - ex)) Hpow).
          rewrite <- Hdiv in Hdm. lia.
        * eapply Qle_lt_trans; [|exact (Hinexact Hlx)]. apply scaled_le. lia.
    - destruct Hstay as [-> ->]; [lia|].
      rewrite shr_m_of_loc, loc_of_shr_record_of_loc in *.
      destruct (decide (lx = loc_Exact)) as [Hlx|Hlx].
      + by rewrite (Hm2exact Hlx).
      + eapply Qle_trans; [apply scaled_le, (proj2 Hm2)|].
        destruct Hshape as [?|Hk']; [done|].
        destruct (canonic_of_fexp mx ex Hmx ltac:(lia)) as [Hcan Hemin].
        apply successor_in_format; auto. }
  assert (0 ≤ m2) as Hm2pos by lia.
  destruct (shr_fexp_spec m2 e1 loc_Exact Hm2pos)
    as (mrs3 & e3 & -> & Hm3 & Hstay3 & Hshift3).
  assert (scaled (shr_m mrs3) e3 <= scaled mB eB)%Q as Hbound3.
  { eapply Qle_trans; [|exact Hbound].
    destruct (decide (e1 < fexp64 (Zdigits2 m2 + e1))) as [Hk|Hk].
    - destruct (Hshift3 Hk) as (He3 & Hdiv & _).
      assert (0 < 2 ^ (e3 - e1)) as Hpow by (apply Z.pow_pos_nonneg; lia).
      replace e3 with (e1 + (e3 - e1)) at 1 by lia.
      rewrite scaled_shift by lia. apply scaled_le.
      rewrite Hdiv. pose proof (Z.mul_div_le m2 _ Hpow). lia.
    - destruct Hstay3 as [-> ->]; [lia|]. rewrite shr_m_of_loc. apply Qle_refl. }
  destruct (shr_m mrs3) as [|m|m] eqn:Hm; [by left| |lia].
  right. exists m, e3.
  destruct (Z.leb_spec e3 (emax - prec)) as [_|Hover]; [done|].
  exfalso. change (emax - prec) with 971 in Hover.
  assert (pow2 971 < scaled (Z.pos m) e3)%Q; [|lra].
  eapply Qlt_le_trans; [apply (pow2_lt 971 e3 Hover)|].
  unfold scaled. rewrite <- (Qmult_1_l (pow2 e3)) at 1.
  apply Qmult_le_compat_r; [|apply Qlt_le_weak, pow2_pos].
  change 1%Q with (inject_Z 1). rewrite <- Zle_Qle. lia.
Qed.


(** ** Valid numbers *)

Lemma valid_finite (s : bool) (m : positive) (e : Z) :
  valid_binary (S754_finite s m e) = true →
  fexp64 (Zdigits2 (Z.pos m) + e) = e
  ∧ in_format (Z.pos m) e ∧ canonic (Z.pos m) e ∧ e ≤ 971.
Proof.
  unfold valid_binary, bounded, canonical_mantissa.
  intros [Hcan Hmax]%andb_prop.
  apply Z.eqb_eq in Hcan. apply Z.leb_le in Hmax.
  rewrite fexp_fexp64 in Hcan. change (emax - prec) with 971 in Hmax.
  change (Z.pos (digits2_pos m)) with (Zdigits2 (Z.pos m)) in Hcan.
  split; [done|].
  destruct (canonic_of_fexp (Z.pos m) e ltac:(lia) Hcan) as [Hc He].
  split; [|done]. split; [|done]. split; [lia|].
  destruct (Zdigits2_bounds (Z.pos m) ltac:(lia)) as [[_ Hup] Hd].
  assert (Zdigits2 (Z.pos m) ≤ 53) as Hd53 by (unfold fexp64 in Hcan; lia).
  eapply Z.lt_le_trans; [exact Hup|]. apply Z.pow_le_mono_r; lia.
Qed.


Lemma bounded_by_weaken (x : spec_float) (b b' : Q) :
  (b <= b')%Q → bounded_by x b → bounded_by x b'.
Proof.
  intros Hb. destruct x as [| | |[|] m e]; simpl; try done.
  intros Hx. by eapply Qle_trans.
Qed.

Lemma round_aux_bounded (mx ex : Z) (lx : location) (mB eB : Z) :
  0 ≤ mx → in_format mB eB → (scaled mB eB <= pow2 971)%Q →
  (lx = loc_Exact ∨ ex ≤ fexp64 (Zdigits2 mx + ex)) →
  (lx = loc_Exact → (scaled mx ex <= scaled mB eB)%Q) →
  (lx ≠ loc_Exact → (scaled mx ex < scaled mB eB)%Q) →
  bounded_by (binary_round_aux prec emax false mx ex lx) (scaled mB eB).
Proof.
  intros Hmx HB Hbig Hshape Hexact Hinexact.
  destruct (round_aux_upper mx ex lx mB eB Hmx HB Hbig Hshape Hexact Hinexact)
    as [->|(m & e & -> & Hle)]; done.
Qed.

(** ** Multiplication *)

Lemma SFmul_bounded (x y : spec_float) (bx by_ : Q) (mB eB : Z) :
  bounded_by x bx → bounded_by y by_ → (0 <= bx)%Q → (0 <= by_)%Q →
  (bx * by_ <= scaled mB eB)%Q →
  in_format mB eB → (scaled mB eB <= pow2 971)%Q →
  bounded_by (SF64mul x y) (scaled mB eB).
Proof.
  intros Hx Hy Hbx Hby Hprod HB Hbig.
  destruct x as [sx| | |[|] mx ex], y as [sy| | |[|] my ey]; simpl in *; try done.
  apply round_aux_bounded; [lia|done|done|by left| |done].
  intros _. change (Z.pos (mx * my)) with (Z.pos mx * Z.pos my).
  rewrite scaled_mult. eapply Qle_trans; [|exact Hprod].
  apply Qle_trans with (bx * scaled (Z.pos my) ey)%Q.
  - apply Qmult_le_compat_r; [done|]. apply scaled_nonneg. lia.
  - rewrite !(Qmult_comm bx). by apply Qmult_le_compat_r.
Qed.

(** ** Addition *)

Lemma shl_align_spec (mx : positive) (ex ex' : Z) :
  ∃ mz ez, shl_align mx ex ex' = (mz, ez)
    ∧ (scaled (Z.pos mz) ez == scaled (Z.pos mx) ex)%Q
    ∧ (ex' ≤ ex → ez = ex' ∧ Z.pos mz = Z.pos mx * 2 ^ (ex - ex'))
    ∧ (ex ≤ ex' → ez = ex ∧ mz = mx).
Proof.
  unfold shl_align. destruct (ex' - ex) as [|d|d] eqn:Hd.
  - exists mx, ex. split; [done|]. split; [reflexivity|].
    split; [|done]. intros _. split; [lia|].
    replace (ex - ex') with 0 by lia. lia.
  - exists mx, ex. split; [done|]. split; [reflexivity|]. split; [lia|done].
  - exists (Pos.iter xO mx d), ex'. split; [done|].
    assert (Z.pos (Pos.iter xO mx d) = Z.pos mx * 2 ^ (ex - ex')) as Hval.
    { change (Pos.iter xO mx d) with (shift_pos d mx).
      rewrite shift_pos_correct, Zpower_pos_nat, Zpower_nat_Z, positive_nat_Z.
      replace (ex - ex') with (Z.pos d) by lia. lia. }
    split; [|split; [done|lia]].
    rewrite Hval. replace ex with (ex' + (ex - ex')) at 2 by lia.
    by rewrite scaled_shift by lia.
Qed.

Lemma binary_round_bounded (mx : positive) (ex : Z) (mB eB : Z) :
  in_format mB eB → (scaled mB eB <= pow2 971)%Q →
  (scaled (Z.pos mx) ex <= scaled mB eB)%Q →
  bounded_by (binary_round prec emax false mx ex) (scaled mB eB).
Proof.
  intros HB Hbig Hle. unfold binary_round.
  destruct (shl_align_spec mx ex (fexp prec emax (Z.pos (digits2_pos mx) + ex)))
    as (mz & ez & -> & Hval & _).
  apply round_aux_bounded; [lia|done|done|by left| |done].
  intros _. by rewrite Hval.
Qed.

Lemma SFadd_bounded (x y : spec_float) (bx by_ : Q) (mB eB : Z) :
  bounded_by x bx → bounded_by y by_ → (0 <= bx)%Q → (0 <= by_)%Q →
  (bx + by_ <= scaled mB eB)%Q →
  in_format mB eB → (scaled mB eB <= pow2 971)%Q →
  bounded_by (SF64add x y) (scaled mB eB).
Proof.
  intros Hx Hy Hbx Hby Hsum HB Hbig.
  destruct x as [sx| | |[|] mx ex], y as [sy| | |[|] my ey]; simpl in *; try done.
  - by destruct sx, sy.
  - lra.
  - lra.
  - set (ez := Z.min ex ey).
    destruct (shl_align_spec mx ex ez) as (mx' & ex' & -> & Hvx & Hx' & _).
    destruct (shl_align_spec my ey ez) as (my' & ey' & -> & Hvy & Hy' & _).
    destruct Hx' as [-> _]; [unfold ez; lia|].
    destruct Hy' as [-> _]; [unfold ez; lia|].
    simpl. apply binary_round_bounded; [done|done|].
    change (Z.pos (mx' + my')) with (Z.pos mx' + Z.pos my').
    rewrite scaled_plus, Hvx, Hvy. lra.
Qed.

(** ** Division *)

Lemma new_location_exact (n k : Z) : new_location n k = loc_Exact ↔ k = 0.
Proof.
  unfold new_location, new_location_even, new_location_odd.
  destruct (Z.even n), (Z.eqb_spec k 0); split; (done || discriminate).
Qed.

Lemma SFdiv_core_spec (m1 e1 m2 e2 : Z) :
  0 < m1 → 0 < m2 →
  ∃ q r e',
    SFdiv_core_binary prec emax m1 e1 m2 e2 = (q, e', new_location m2 r)
    ∧ 0 ≤ q ∧ 0 ≤ r < m2 ∧ e' ≤ e1 - e2
    ∧ m1 * 2 ^ (e1 - e2 - e') = m2 * q + r
    ∧ e' ≤ fexp64 (Zdigits2 q + e').
Proof.
  intros Hm1 Hm2. unfold SFdiv_core_binary. rewrite fexp_fexp64.
  set (d1 := Zdigits2 m1). set (d2 := Zdigits2 m2).
  set (e' := Z.min (fexp64 (d1 + e1 - (d2 + e2))) (e1 - e2)).
  set (s := e1 - e2 - e').
  assert (0 ≤ s) as Hs by (unfold s, e'; lia).
  set (m' := match s with Z.pos _ => Z.shiftl m1 s | 0 => m1 | Z.neg _ => 0 end).
  assert (m' = m1 * 2 ^ s) as Hm'.
  { unfold m'. destruct s as [|p|p] eqn:Hsp; [lia| |lia].
    by rewrite Z.shiftl_mul_pow2. }
  pose proof (Z.div_eucl_eq m' m2 ltac:(lia)) as Heq.
  pose proof (Z.mod_pos_bound m' m2 Hm2) as Hr.
  unfold Z.modulo in Hr.
  assert (fst (Z.div_eucl m' m2) = m' / m2) as Hq by done.
  destruct (Z.div_eucl m' m2) as [q r]. simpl in *.
  assert (0 < 2 ^ s) by (apply Z.pow_pos_nonneg; lia).
  assert (0 ≤ q) as Hq0 by (rewrite Hq; apply Z.div_pos; lia).
  exists q, r, e'. split; [done|]. split; [done|]. split; [done|].
  split; [unfold e'; lia|]. split; [fold s; lia|].
  destruct (decide (e' ≤ -1074)); [unfold fexp64; lia|].
  assert (53 ≤ d1 - d2 + s) as Hdig by (unfold s, e', fexp64 in *; lia).
  destruct (Zdigits2_bounds m1 Hm1) as [[Hlow1 _] Hd1].
  destruct (Zdigits2_bounds m2 Hm2) as [[_ Hup2] Hd2].
  fold d1 in Hlow1, Hd1. fold d2 in Hup2, Hd2.
  assert (2 ^ (d1 + s - d2 - 1) ≤ q) as Hqlow.
  { rewrite Hq. apply Z.div_le_lower_bound; [done|].
    rewrite Hm'.
    apply Z.le_trans with (2 ^ d2 * 2 ^ (d1 + s - d2 - 1)).
    - apply Z.mul_le_mono_nonneg_r; [apply Z.pow_nonneg; lia|lia].
    - rewrite <- Z.pow_add_r by lia.
      replace (d2 + (d1 + s - d2 - 1)) with ((d1 - 1) + s) by lia.
      rewrite Z.pow_add_r by lia.
      apply Z.mul_le_mono_nonneg_r; lia. }
  apply Zdigits2_lower in Hqlow; [|lia]. unfold fexp64. lia.
Qed.

Lemma SFdiv_bounded (x : spec_float) (my : positive) (ey : Z) :
  bounded_by x (scaled (Z.pos my) ey) →
  bounded_by (SF64div x (S754_finite false my ey)) 1.
Proof.
  intros Hx. destruct x as [sx| | |[|] mx ex]; simpl in *; try done.
  destruct (SFdiv_core_spec (Z.pos mx) ex (Z.pos my) ey)
    as (q & r & e' & -> & Hq & Hr & He' & Heq & Hdig); [lia|lia|].
  assert (1 == scaled 1 0)%Q as H1 by reflexivity.
  apply (bounded_by_weaken _ (scaled 1 0)); [by rewrite <- H1|].
  set (P := pow2 e').
  assert (0 < P)%Q as HP by apply pow2_pos.
  assert (scaled (Z.pos my * q + r) e' <= inject_Z (Z.pos my))%Q as Hnum.
  { rewrite <- Heq.
    assert (scaled (Z.pos mx * 2 ^ (ex - ey - e')) e' == scaled (Z.pos mx) (ex - ey))%Q
      as ->.
    { rewrite <- scaled_shift by lia. by replace (e' + (ex - ey - e')) with (ex - ey) by lia. }
    apply (Qmult_le_r _ _ (pow2 ey)); [apply pow2_pos|].
    unfold scaled in *. rewrite <- Qmult_assoc, <- pow2_add.
    by replace (ex - ey + ey) with ex by lia. }
  unfold scaled in Hnum. rewrite inject_Z_plus, inject_Z_mult in Hnum. fold P in Hnum.
  assert (0 < inject_Z (Z.pos my))%Q as Hmy
    by (change 0%Q with (inject_Z 0); rewrite <- Zlt_Qlt; lia).
  assert (0 <= inject_Z r)%Q as Hr0
    by (change 0%Q with (inject_Z 0); rewrite <- Zle_Qle; lia).
  assert (0 <= inject_Z r * P)%Q as HrP
    by (apply Qmult_le_0_compat; [done|by apply Qlt_le_weak]).
  assert (inject_Z (Z.pos my) * (inject_Z q * P) <= inject_Z (Z.pos my) * 1)%Q
    as Hle by lra.
  apply Qmult_le_l in Hle; [|done].
  apply round_aux_bounded.
  - done.
  - split; [done|lia].
  - rewrite <- H1. apply Qlt_le_weak.
    change 1%Q with (pow2 0). by apply pow2_lt.
  - by right.
  - intros _. rewrite <- H1. exact Hle.
  - intros Hinexact. rewrite <- H1.
    assert (r ≠ 0) as Hrne by (intros ->; by apply Hinexact, new_location_exact).
    assert (0 < inject_Z r)%Q as Hrpos
      by (change 0%Q with (inject_Z 0); rewrite <- Zlt_Qlt; lia).
    assert (0 < inject_Z r * P)%Q as HrPpos by (by apply Qmult_lt_0_compat).
    assert (inject_Z (Z.pos my) * (inject_Z q * P) < inject_Z (Z.pos my) * 1)%Q
      as Hlt by lra.
    apply Qmult_lt_l in Hlt; done.
Qed.



(** ** Conversion of an integer *)

Lemma round_aux_exact (mx : positive) (ex : Z) :
  fexp64 (Zdigits2 (Z.pos mx) + ex) = ex → ex ≤ 971 →
  binary_round_aux prec emax false (Z.pos mx) ex loc_Exact
  = S754_finite false mx ex.
Proof.
  intros Hcan Hmax. unfold binary_round_aux.
  destruct (shr_fexp_spec (Z.pos mx) ex loc_Exact ltac:(lia))
    as (mrs & e1 & Heq & _ & Hstay & _).
  destruct Hstay as [-> ->]; [lia|]. rewrite Heq. simpl. rewrite Heq. simpl.
  change (emax - prec) with 971.
  by destruct (Z.leb_spec ex 971); [|lia].
Qed.

Lemma binary_round_exact (p : positive) :
  Z.pos p < 2 ^ 53 →
  ∃ m e, binary_round prec emax false p 0 = S754_finite false m e
    ∧ (scaled (Z.pos m) e == inject_Z (Z.pos p))%Q.
Proof.
  intros Hp. unfold binary_round. rewrite fexp_fexp64.
  change (Z.pos (digits2_pos p)) with (Zdigits2 (Z.pos p)).
  set (d := Zdigits2 (Z.pos p)).
  destruct (Zdigits2_bounds (Z.pos p) ltac:(lia)) as [[Hlow Hup] Hd].
  fold d in Hlow, Hup, Hd.
  assert (d ≤ 53) as Hd53 by (apply Zdigits2_upper; lia).
  destruct (shl_align_spec p 0 (fexp64 (d + 0)))
    as (mz & ez & -> & Hval & Hshl & _).
  destruct Hshl as [-> Hmz]; [unfold fexp64; lia|].
  assert (fexp64 (d + 0) = d - 53) as Hf by (unfold fexp64; lia).
  rewrite Hf in *. replace (0 - (d - 53)) with (53 - d) in Hmz by lia.
  assert (0 < 2 ^ (53 - d)) by (apply Z.pow_pos_nonneg; lia).
  assert (2 ^ 52 ≤ Z.pos mz < 2 ^ 53) as Hbounds.
  { rewrite Hmz. split.
    - replace 52 with ((d - 1) + (53 - d)) by lia. rewrite Z.pow_add_r by lia.
      apply Z.mul_le_mono_nonneg_r; lia.
    - replace 53 with (d + (53 - d)) at 2 by lia. rewrite Z.pow_add_r by lia.
      apply Z.mul_lt_mono_pos_r; lia. }
  assert (Zdigits2 (Z.pos mz) = 53) as Hdz.
  { apply Z.le_antisymm; [apply Zdigits2_upper; lia|].
    apply (Zdigits2_lower _ 52); lia. }
  exists mz, (d - 53). split.
  - apply round_aux_exact; [rewrite Hdz; unfold fexp64; lia|lia].
  - rewrite Hval. unfold scaled, pow2. simpl. ring.
Qed.

Lemma of_int_zero : Prim2SF (num_of_int 0) = S754_zero false.
Proof. reflexivity. Qed.

Lemma of_int_positive (i : Z) :
  0 < i < 2 ^ 53 →
  ∃ m e, Prim2SF (num_of_int i) = S754_finite false m e
    ∧ (scaled (Z.pos m) e == inject_Z i)%Q.
Proof.
  intros Hi. cbn [num_of_int binary64_number].
  destruct (Z.ltb_spec i 0); [lia|].
  rewrite of_uint63_spec, Uint63.of_Z_spec.
  rewrite Z.mod_small by (change Uint63.wB with (2 ^ 63); split; [lia|];
                          eapply Z.lt_trans; [apply Hi|]; done).
  destruct i as [|p|p]; [lia| |lia]. simpl binary_normalize.
  apply binary_round_exact. lia.
Qed.

Lemma of_int_bounded (i : Z) :
  0 ≤ i < 2 ^ 53 → bounded_by (Prim2SF (num_of_int i)) (inject_Z i).
Proof.
  intros Hi. destruct (decide (i = 0)) as [->|Hne]; [by rewrite of_int_zero|].
  destruct (of_int_positive i ltac:(lia)) as (m & e & -> & Hval).
  simpl. rewrite Hval. apply Qle_refl.
Qed.

(** ** The unit interval, by comparisons *)


Lemma Prim2SF_zero : Prim2SF 0%float = S754_zero false.
Proof. reflexivity. Qed.

Lemma Prim2SF_one : Prim2SF 1%float = S754_finite false 4503599627370496 (-52).
Proof. reflexivity. Qed.

Lemma scaled_one : (scaled 4503599627370496 (-52) == 1)%Q.
Proof. reflexivity. Qed.

Lemma in_unit_interval_bounded (x : float) :
  in_unit_interval x ↔ bounded_by (Prim2SF x) 1.
Proof.
  unfold in_unit_interval. rewrite !FloatAxioms.leb_spec, Prim2SF_zero, Prim2SF_one.
  pose proof (Prim2SF_valid x) as Hvalid.
  destruct (Prim2SF x) as [s| | |s m e]; simpl.
  - by destruct s.
  - split; [|done]. by intros [? ?]; destruct s.
  - split; [|done]. by intros [? ?].
  - destruct (valid_finite s m e Hvalid) as (_ & [Hm He] & Hcan & _).
    destruct s; simpl; [split; [by intros [? ?]|done]|].
    unfold SFleb, SFcompare.
    rewrite <- scaled_one.
    destruct (Z.compare_spec e (-52)) as [->|Hlt|Hgt].
    + rewrite Pos.compare_cont_spec. simpl.
      rewrite scaled_le.
      destruct (Pos.compare_spec m 4503599627370496) as [->|Hlt|Hgt]; simpl.
      * split; [intros _; apply Z.le_refl|intros _; split; reflexivity].
      * apply Pos2Z.pos_lt_pos in Hlt.
        split; [intros _; by apply Z.lt_le_incl|intros _; split; reflexivity].
      * apply Pos2Z.pos_lt_pos in Hgt.
        split; [intros [_ [=]]|intros Hle; exfalso].
        by apply (Z.lt_irrefl (Z.pos m)), (Z.le_lt_trans _ _ _ Hle).
    + split; [intros _|intros _; split; reflexivity].
      replace (-52) with (e + (-52 - e)) by lia.
      rewrite scaled_shift by lia. apply scaled_le.
      assert (2 ^ 1 ≤ 2 ^ (-52 - e)) as Hpow by (apply Z.pow_le_mono_r; lia).
      change (2 ^ 1) with 2 in Hpow.
      assert (Z.pos m < 2 ^ 52 * 2) as Hm' by (change (2 ^ 52 * 2) with (2 ^ 53); lia).
      change 4503599627370496 with (2 ^ 52).
      set (P := 2 ^ 52) in *. set (T := 2 ^ (-52 - e)) in *.
      assert (0 < P) by (unfold P; lia).
      apply Z.le_trans with (P * 2); [lia|]. apply Z.mul_le_mono_nonneg_l; lia.
    + split; [intros [_ [=]]|]. intros Hle. exfalso.
      destruct Hcan as [->|Hfull]; [lia|].
      replace e with (-52 + (e + 52)) in Hle by lia.
      rewrite scaled_shift in Hle by lia. apply scaled_le in Hle.
      assert (2 ^ 1 ≤ 2 ^ (e + 52)) as Hpow by (apply Z.pow_le_mono_r; lia).
      change (2 ^ 1) with 2 in Hpow.
      change 4503599627370496 with (2 ^ 52) in Hle.
      set (P := 2 ^ 52) in *. set (T := 2 ^ (e + 52)) in *.
      assert (0 < P) by (unfold P; lia).
      assert (P * 2 ≤ Z.pos m * T) by (apply Z.mul_le_mono_nonneg; lia).
      lia.
Qed.

(** ** The two updates *)


Lemma inject_Z_format (i : Z) :
  0 ≤ i < 2 ^ 53 →
  in_format i 0 ∧ (scaled i 0 == inject_Z i)%Q ∧ (scaled i 0 <= pow2 971)%Q.
Proof.
  intros Hi. split; [split; lia|].
  assert (scaled i 0 == inject_Z i)%Q as Hval by (unfold scaled, pow2; simpl; ring).
  split; [done|]. rewrite Hval, (pow2_Z 971) by lia. rewrite <- Zle_Qle.
  apply Z.le_trans with (2 ^ 53); [lia|]. by apply Z.pow_le_mono_r.
Qed.

Lemma closed_in_unit_interval (i : Z) (a : float) :
  0 ≤ i → i + 1 < 2 ^ 53 → in_unit_interval a → in_unit_interval (closed_triad i a).
Proof.
  intros Hi Hmax Ha%in_unit_interval_bounded. apply in_unit_interval_bounded.
  unfold closed_triad. cbn [num_div num_add num_mul binary64_number].
  rewrite FloatAxioms.div_spec, FloatAxioms.add_spec, FloatAxioms.mul_spec.
  destruct (of_int_positive (i + 1) ltac:(lia)) as (mD & eD & -> & HD).
  destruct (inject_Z_format i ltac:(lia)) as (Hfi & Hvi & Hbi).
  destruct (inject_Z_format (i + 1) ltac:(lia)) as (Hfs & Hvs & Hbs).
  pose proof (inject_Z_nonneg i Hi) as Hi0.
  apply SFdiv_bounded.
  apply (bounded_by_weaken _ (scaled (i + 1) 0));
    [rewrite HD, Hvs; apply Qle_refl|].
  apply (SFadd_bounded _ _ (inject_Z i) 1); [| |done|done| |done|done].
  - apply (bounded_by_weaken _ (scaled i 0)); [rewrite Hvi; apply Qle_refl|].
    apply (SFmul_bounded _ _ (inject_Z i) 1); [|done|done|done| |done|done].
    + apply of_int_bounded. lia.
    + rewrite Hvi. lra.
  - apply (of_int_bounded 1). lia.
  - rewrite Hvs, inject_Z_plus. apply Qle_refl.
Qed.

Lemma opened_in_unit_interval (i : Z) (a : float) :
  0 ≤ i → i + 1 < 2 ^ 53 → in_unit_interval a → in_unit_interval (open_triad i a).
Proof.
  intros Hi Hmax Ha%in_unit_interval_bounded. apply in_unit_interval_bounded.
  unfold open_triad. cbn [num_div num_mul binary64_number].
  rewrite FloatAxioms.div_spec, FloatAxioms.mul_spec.
  destruct (of_int_positive (i + 1) ltac:(lia)) as (mD & eD & -> & HD).
  destruct (inject_Z_format i ltac:(lia)) as (Hfi & Hvi & Hbi).
  pose proof (inject_Z_nonneg i Hi) as Hi0.
  apply SFdiv_bounded.
  apply (bounded_by_weaken _ (scaled i 0)).
  { rewrite HD, Hvi, inject_Z_plus. change (inject_Z 1) with 1%Q. lra. }
  apply (SFmul_bounded _ _ 1 (inject_Z i)); [done| |done|done| |done|done].
  - apply of_int_bounded. lia.
  - rewrite Hvi. lra.
Qed.

Lemma clustering_recurrence_in_unit_interval (g : Graph) :
  num_vertices g < 2 ^ 53 →
  in_unit_interval (clustering_recurrence (F := float) g).
Proof.
  intros Hn. unfold clustering_recurrence.
  apply (foldl_invariant in_unit_interval).
  - split; reflexivity.
  - intros avg t Ht%position_pairs_index Havg. unfold recurrence_step.
    destruct (closes_triad (neighbors g) t).
    + apply closed_in_unit_interval; [lia|lia|done].
    + apply opened_in_unit_interval; [lia|lia|done].
Qed.

(** C10. The value [clustering_coefficient()] returns lies in [0, 1], in
    the binary64 arithmetic of the code and in exact arithmetic: the
    running value starts at 0, and each of the two updates maps a value of
    [0, 1] into [0, 1].  In binary64 this is proved for graphs of fewer
    than [2^53] vertices, for which the conversions of [i] and [i + 1] to
    [float] are exact. *)
Theorem clustering_coefficient_unit_interval (n : Z) (es : list edge) (g : Graph) :
  Graph_init n es = Ok g →
  (n < 2 ^ 53 →
   ∃ r : float, clustering_coefficient g = Ok r
     ∧ (0 <=? r)%float = true ∧ (r <=? 1)%float = true)
  ∧ (∀ (i : Z) (avg : float), 0 ≤ i → i + 1 < 2 ^ 53 →
       (0 <=? avg)%float = true ∧ (avg <=? 1)%float = true →
       ((0 <=? closed_triad i avg)%float = true
        ∧ (closed_triad i avg <=? 1)%float = true)
       ∧ ((0 <=? open_triad i avg)%float = true
          ∧ (open_triad i avg <=? 1)%float = true))
  ∧ (∃ q : Q, clustering_coefficient g = Ok q ∧ (0 <= q)%Q ∧ (q <= 1)%Q)
  ∧ (∀ (i : Z) (avg : Q), 0 ≤ i → (0 <= avg)%Q ∧ (avg <= 1)%Q →
       ((0 <= closed_triad i avg)%Q ∧ (closed_triad i avg <= 1)%Q)
       ∧ ((0 <= open_triad i avg)%Q ∧ (open_triad i avg <= 1)%Q)).
Proof.
  intros Hg.
  pose proof Hg as (Hnum & _)%Graph_init_fields.
  split; [|split; [|split]].
  - intros Hn. exists (clustering_recurrence g).
    split; [by apply (clustering_coefficient_flattened n es)|].
    apply clustering_recurrence_in_unit_interval. by rewrite Hnum.
  - intros i avg Hi Hmax Havg. split.
    + by apply closed_in_unit_interval.
    + by apply opened_in_unit_interval.
  - exists (clustering_recurrence g).
    split; [by apply (clustering_coefficient_flattened n es)|].
    apply clustering_recurrence_unit_interval.
  - intros i avg Hi Havg. split.
    + by apply closed_triad_unit_interval.
    + by apply open_triad_unit_interval.
Qed.

Lemma clustering_coefficient_unit_interval_witness :
  ∃ g, make_graph 6 2 = Ok g
    ∧ clustering_coefficient g = Ok 0x1.57c5010db20abp-1%float
    ∧ (∃ r : float, clustering_coefficient g = Ok r
         ∧ (0 <=? r)%float = true ∧ (r <=? 1)%float = true)
    ∧ (∃ q : Q, clustering_coefficient g = Ok q ∧ (0 <= q)%Q ∧ (q <= 1)%Q).
Proof.
  eexists. split; [reflexivity|]. split; [vm_compute; reflexivity|].
  destruct (clustering_coefficient_unit_interval 6 (make_graph_edges 6 2) _
              eq_refl) as (Hfloat & _ & Hexact & _).
  split; [apply Hfloat; lia|exact Hexact].
Defined.
